(** * Aggregate Schnorr signatures over secp256k1 (module [aggsig])

    A shallow embedding of [src/modules/aggsig/main_impl.h] and the
    properties of its nonce state machine, its challenge derivation and
    its sign / combine / verify algebra.

    The arithmetic backend (group law, SHA-256, the RFC 6979 generator)
    is not part of the module: it is an interface ([Backend]) whose
    algebraic laws ([BackendLaws]) are the assumptions of the theorems
    that need them. *)

From Stdlib Require Import ZArith NArith Lia Bool List.
From Stdlib.Strings Require Import Byte.
From Stdlib Require Import Zmod.
From stdpp Require Import base list.
From Equations Require Import Equations.

Import ListNotations.
Open Scope Z_scope.

(** ** Bytes and big-endian buffers *)

Abbreviation byte := Byte.byte.

Definition byte_to_Z (b : byte) : Z := Z.of_N (Byte.to_N b).

Definition byte_of_N (v : N) : byte :=
  match Byte.of_N (v mod 256)%N with
  | Some b => b
  | None => Byte.x00
  end.

Definition byte_of_Z (z : Z) : byte := byte_of_N (Z.to_N (z mod 256)).

(** Big-endian value of a whole buffer. *)
Definition be_value (bs : list byte) : Z :=
  fold_left (fun acc b => acc * 256 + byte_to_Z b) bs 0.

(** Value of the 32 bytes found at a [const unsigned char *]. *)
Definition be32 (bs : list byte) : Z := be_value (take 32 bs).

(** [len] bytes, most significant first. *)
Fixpoint be_bytes (len : nat) (z : Z) : list byte :=
  match len with
  | O => []
  | S k => be_bytes k (z / 256) ++ [byte_of_Z z]
  end.

(** ** Curve constants *)

(** Modelled from the spec: the order n of the base point G, a constant
    of the backend's scalar arithmetic. *)
Definition secp256k1_n : Z :=
  0xFFFFFFFFFFFFFFFFFFFFFFFFFFFFFFFEBAAEDCE6AF48A03BBFD25E8CD0364141.

(** Modelled from the spec: the field prime p = 2^256 - 2^32 - 977. *)
Definition secp256k1_p : Z :=
  0xFFFFFFFFFFFFFFFFFFFFFFFFFFFFFFFFFFFFFFFFFFFFFFFFFFFFFFFEFFFFFC2F.

(** ** Scalars (integers mod n) *)

Module Scalar.

Definition t := Z.

(** Modelled from the spec: [set_from_bytes_be(x, out_overflow)] of the
    arithmetic backend, [secp256k1_scalar_set_b32]. The scalar is the
    value reduced mod n, the flag says whether the value was >= n. *)
Definition set_b32 (b32 : list byte) : t * bool :=
  let v := be32 b32 in (v mod secp256k1_n, secp256k1_n <=? v).

(** Modelled from the spec: [get_bytes_be], [secp256k1_scalar_get_b32]. *)
Definition get_b32 (a : t) : list byte := be_bytes 32 a.

(** Modelled from the spec: [is_zero] of the backend's scalars. *)
Definition is_zero (a : t) : bool := a =? 0.

(** Modelled from the spec: [negate], the opposite in Z/nZ. *)
Definition negate (a : t) : t := (- a) mod secp256k1_n.

(** Modelled from the spec: [add], the sum in Z/nZ. *)
Definition add (a b : t) : t := (a + b) mod secp256k1_n.

(** Modelled from the spec: [mul], the product in Z/nZ. *)
Definition mul (a b : t) : t := (a * b) mod secp256k1_n.

(** Modelled from the spec: [set_int], a small integer as a scalar. *)
Definition set_int (v : Z) : t := v.

End Scalar.

(** ** Field elements (integers mod p) *)

Module Fe.

Definition t := Z.

(** Modelled from the spec: [secp256k1_fe_set_b32], which returns 0 on
    a non-canonical encoding (value >= p). *)
Definition set_b32 (b32 : list byte) : option t :=
  let v := be32 b32 in if v <? secp256k1_p then Some v else None.

(** Modelled from the spec: [normalize], the representative in [0, p). *)
Definition normalize (a : t) : t := a mod secp256k1_p.

(** Modelled from the spec: [get_bytes_be] of a normalised element. *)
Definition get_b32 (a : t) : list byte := be_bytes 32 a.

(** Modelled from the spec: [equal_var], equality in Z/pZ. *)
Definition equal_var (a b : t) : bool :=
  (a mod secp256k1_p) =? (b mod secp256k1_p).

End Fe.

(** ** The arithmetic backend *)

(** Modelled from the spec: what the module takes from the rest of the
    library (the external interfaces of the specification). A [point]
    stands for a curve point in either representation ([secp256k1_ge],
    [secp256k1_gej], or the opaque [secp256k1_pubkey]); conversions
    between them are the identity here. *)
Class Backend := {
  point : Type;
  gej_add_var : point -> point -> point;
  gej_neg : point -> point;
  gej_infinity : point;
  generator : point;
  (** normalised affine X coordinate *)
  ge_x : point -> Fe.t;
  (** [secp256k1_gej_has_quad_y_var] *)
  has_quad_y : point -> bool;
  (** parity of the affine Y coordinate, for SEC1 compression *)
  ge_y_is_odd : point -> bool;
  (** [secp256k1_ge_set_xquad] *)
  ge_set_xquad : Fe.t -> point;
  (** the SHA-256 function on whole messages *)
  sha256 : list byte -> list byte;
  (** state of the RFC 6979 HMAC-SHA256 generator *)
  rfc6979 : Type;
  rfc6979_initialize : list byte -> rfc6979;
  rfc6979_generate : rfc6979 -> nat -> list byte * rfc6979;
}.

Section Aggsig.

Context {B : Backend}.

(** *** Scalar multiplication *)

(** Modelled from the spec: [ecmult_gen(k) -> k.G] and the products
    [s_i . P_i] inside [ecmult_multi_var]; the backend's algorithms are
    absent, so k.P is k-fold addition by binary doubling. *)
Definition ecmult (k : Z) (P : point) : point :=
  match k with
  | Z0 => gej_infinity
  | Zpos q => Pos.iter_op gej_add_var q P
  | Zneg q => gej_neg (Pos.iter_op gej_add_var q P)
  end.

(** Modelled from the spec: [ecmult_gen(k) -> k.G]. *)
Definition secp256k1_ecmult_gen (k : Scalar.t) : point := ecmult k generator.

(** Modelled from the spec: [ecmult_multi_var(scratch, s_g, callback, n)]
    computes [s_g.G + sum_i s_i.P_i] with [(s_i, P_i) = callback(i)],
    and aborts (returns 0) when a callback fails. *)
Fixpoint ecmult_multi_sum (cb : N -> option (Scalar.t * point)) (n : nat)
  : option point :=
  match n with
  | O => Some gej_infinity
  | S k =>
      match ecmult_multi_sum cb k with
      | None => None
      | Some acc =>
          match cb (N.of_nat k) with
          | None => None
          | Some (sc, pt) => Some (gej_add_var acc (ecmult sc pt))
          end
      end
  end.

(** Modelled from the spec: [ecmult_multi_var], the sum above plus
    [s_g.G]. *)
Definition secp256k1_ecmult_multi_var (g_sc : Scalar.t)
    (cb : N -> option (Scalar.t * point)) (n : N) : option point :=
  match ecmult_multi_sum cb (N.to_nat n) with
  | None => None
  | Some acc => Some (gej_add_var (secp256k1_ecmult_gen g_sc) acc)
  end.

(** *** Public keys *)

(** Modelled from the spec: [PublicKey], a wrapper around a curve
    point. *)
Definition secp256k1_pubkey := point.

(** Modelled from the spec: [PublicKey] load. *)
Definition secp256k1_pubkey_load (pk : secp256k1_pubkey) : point := pk.

(** Modelled from the spec: [PublicKey] save. *)
Definition secp256k1_pubkey_save (ge : point) : secp256k1_pubkey := ge.

(** Modelled from the spec: compressed SEC1 serialization, 33 bytes
    [{0x02|0x03} || x]: the bytes written when the call succeeds.
    Whether it succeeds is [secp256k1_ec_pubkey_serialize_ok]. *)
Definition secp256k1_ec_pubkey_serialize (pk : secp256k1_pubkey) : list byte :=
  (if ge_y_is_odd (secp256k1_pubkey_load pk) then Byte.x03 else Byte.x02)
    :: Fe.get_b32 (ge_x (secp256k1_pubkey_load pk)).

(** Modelled from the spec: the return value of the compressed
    serialization. The backend refuses to load a key whose stored X
    coordinate is zero, which is what the affine form of the point at
    infinity and [set_xquad] of 0 leave in a key; serialization then
    returns 0. *)
Definition secp256k1_ec_pubkey_serialize_ok (pk : secp256k1_pubkey) : bool :=
  negb (ge_x (secp256k1_pubkey_load pk) =? 0).

(** *** Incremental hashing *)

(** Modelled from the spec: the state of the [sha256] interface, here
    the message absorbed so far. *)
Definition secp256k1_sha256 := list byte.

(** Modelled from the spec: [sha256] initialize. *)
Definition secp256k1_sha256_initialize : secp256k1_sha256 := [].

(** Modelled from the spec: [sha256] write, which absorbs [len] bytes. *)
Definition secp256k1_sha256_write (h : secp256k1_sha256) (data : list byte)
    (len : nat) : secp256k1_sha256 := h ++ take len data.

(** Modelled from the spec: [sha256] finalize, the digest of what was
    absorbed. *)
Definition secp256k1_sha256_finalize (h : secp256k1_sha256) : list byte :=
  sha256 h.

(** ** Sighash derivation *)

(** [secp256k1_compute_sighash_single]: the scalar written to [r] and the
    return value [!overflow]; [None] when the [CHECK] on the
    serialization of the key fails, which aborts the process. *)
Definition secp256k1_compute_sighash_single (pubkey : secp256k1_pubkey)
    (msghash32 : list byte) : option (Scalar.t * bool) :=
  let hasher := secp256k1_sha256_initialize in
  if negb (secp256k1_ec_pubkey_serialize_ok pubkey) then None
  else
    let buf := secp256k1_ec_pubkey_serialize pubkey in
    let hasher := secp256k1_sha256_write hasher buf 33 in
    let hasher := secp256k1_sha256_write hasher msghash32 32 in
    let output := secp256k1_sha256_finalize hasher in
    let '(r, overflow) := Scalar.set_b32 output in
    Some (r, negb overflow).

(** The [for] loop of [secp256k1_compute_prehash] over the public keys.
    The key list is taken to hold keys that the library made from
    points of the curve, for which the [CHECK] on each serialization
    holds. *)
Fixpoint prehash_pubkeys (hasher : secp256k1_sha256)
    (pubkeys : list secp256k1_pubkey) : secp256k1_sha256 :=
  match pubkeys with
  | [] => hasher
  | pk :: rest =>
      prehash_pubkeys
        (secp256k1_sha256_write hasher (secp256k1_ec_pubkey_serialize pk) 33)
        rest
  end.

Definition secp256k1_compute_prehash (pubkeys : list secp256k1_pubkey)
    (n_pubkeys : N) (nonce_ge_x : Fe.t) (msghash32 : list byte) : list byte :=
  let hasher := secp256k1_sha256_initialize in
  let hasher := prehash_pubkeys hasher (take (N.to_nat n_pubkeys) pubkeys) in
  let buf := Fe.get_b32 nonce_ge_x in
  let hasher := secp256k1_sha256_write hasher buf 32 in
  let hasher := secp256k1_sha256_write hasher msghash32 32 in
  secp256k1_sha256_finalize hasher.

(** The [while (index > 0)] loop of [secp256k1_compute_sighash]. *)
Equations? sighash_index_loop (index : N) (hasher : secp256k1_sha256)
  : secp256k1_sha256 by wf (N.to_nat index) lt :=
  sighash_index_loop index hasher with N.eq_dec index 0%N := {
    | left _ => hasher
    | right _ =>
        let ch := byte_of_N (N.land index 0x7f%N) in
        sighash_index_loop (N.shiftr index 7%N)
          (secp256k1_sha256_write hasher [ch] 1) }.
Proof.
  rewrite N.shiftr_div_pow2.
  assert (index / 2 ^ 7 < index)%N by (apply N.div_lt; lia).
  lia.
Defined.

Definition secp256k1_compute_sighash (prehash : list byte) (index : N)
  : Scalar.t * bool :=
  let hasher := secp256k1_sha256_initialize in
  let hasher := sighash_index_loop index hasher in
  let hasher := secp256k1_sha256_write hasher prehash 32 in
  let output := secp256k1_sha256_finalize hasher in
  let '(r, overflow) := Scalar.set_b32 output in
  (r, negb overflow).

(** ** Nonce generation *)

(** [enum nonce_progress] *)
Inductive nonce_progress :=
  | NONCE_PROGRESS_UNKNOWN
  | NONCE_PROGRESS_OTHER
  | NONCE_PROGRESS_OURS
  | NONCE_PROGRESS_SIGNED.

Definition nonce_progress_eqb (a b : nonce_progress) : bool :=
  match a, b with
  | NONCE_PROGRESS_UNKNOWN, NONCE_PROGRESS_UNKNOWN
  | NONCE_PROGRESS_OTHER, NONCE_PROGRESS_OTHER
  | NONCE_PROGRESS_OURS, NONCE_PROGRESS_OURS
  | NONCE_PROGRESS_SIGNED, NONCE_PROGRESS_SIGNED => true
  | _, _ => false
  end.

(** [struct secp256k1_aggsig_context_struct]; the three arrays are lists
    of [n_sigs] elements. *)
Record secp256k1_aggsig_context := mk_aggctx {
  progress : list nonce_progress;
  pubkeys : list secp256k1_pubkey;
  secnonce : list Scalar.t;
  pubnonce_sum : point;
  n_sigs : N;
  rng : rfc6979;
}.

Definition with_progress (a : secp256k1_aggsig_context) v :=
  mk_aggctx v (pubkeys a) (secnonce a) (pubnonce_sum a) (n_sigs a) (rng a).
Definition with_secnonce (a : secp256k1_aggsig_context) v :=
  mk_aggctx (progress a) (pubkeys a) v (pubnonce_sum a) (n_sigs a) (rng a).
Definition with_pubnonce_sum (a : secp256k1_aggsig_context) v :=
  mk_aggctx (progress a) (pubkeys a) (secnonce a) v (n_sigs a) (rng a).
Definition with_rng (a : secp256k1_aggsig_context) v :=
  mk_aggctx (progress a) (pubkeys a) (secnonce a) (pubnonce_sum a) (n_sigs a) v.

(** Array reads. A read past the end of an array is outside the model
    (it gets a fixed value); the operations below check their index
    against [n_sigs] first. *)
Definition progress_at (a : secp256k1_aggsig_context) (i : N) : nonce_progress :=
  default NONCE_PROGRESS_UNKNOWN (progress a !! N.to_nat i).
Definition secnonce_at (a : secp256k1_aggsig_context) (i : N) : Scalar.t :=
  default 0 (secnonce a !! N.to_nat i).
Definition pubkey_at (pks : list secp256k1_pubkey) (i : N) : secp256k1_pubkey :=
  default gej_infinity (pks !! N.to_nat i).

(** [secp256k1_aggsig_context_create]. The secret nonce array comes
    from [malloc] and is not initialised; its slots are written before
    they are read. *)
Definition secp256k1_aggsig_context_create (pubkeys : list secp256k1_pubkey)
    (n_pubkeys : N) (seed : list byte) : secp256k1_aggsig_context :=
  {| progress := replicate (N.to_nat n_pubkeys) NONCE_PROGRESS_UNKNOWN;
     pubkeys := take (N.to_nat n_pubkeys) pubkeys;
     secnonce := replicate (N.to_nat n_pubkeys) 0;
     pubnonce_sum := gej_infinity;
     n_sigs := n_pubkeys;
     rng := rfc6979_initialize (take 32 seed) |}.

(** The [do ... while (retry)] loop of
    [secp256k1_aggsig_generate_nonce_single]; [None] when [fuel] draws
    were all rejected. *)
Fixpoint nonce_retry_loop (fuel : nat) (rng : rfc6979)
  : option (Scalar.t * rfc6979) :=
  match fuel with
  | O => None
  | S fuel' =>
      let '(data, rng) := rfc6979_generate rng 32 in
      let '(secnonce, retry) := Scalar.set_b32 data in
      let retry := retry || Scalar.is_zero secnonce in
      if retry then nonce_retry_loop fuel' rng else Some (secnonce, rng)
  end.

(** [secp256k1_aggsig_generate_nonce_single]: return value, [*secnonce],
    [*pubnonce] and the generator state; [None] when the loop did not
    finish within [fuel] draws. *)
Definition secp256k1_aggsig_generate_nonce_single (fuel : nat) (rng : rfc6979)
  : option (bool * Scalar.t * point * rfc6979) :=
  match nonce_retry_loop fuel rng with
  | None => None
  | Some (secnonce, rng) =>
      let pubnonce := secp256k1_ecmult_gen secnonce in
      if negb (has_quad_y pubnonce)
      then Some (true, Scalar.negate secnonce, gej_neg pubnonce, rng)
      else Some (true, secnonce, pubnonce, rng)
  end.

(** [secp256k1_aggsig_export_secnonce_single] *)
Definition secp256k1_aggsig_export_secnonce_single (fuel : nat)
    (seed : list byte) : option (option (list byte)) :=
  let rng := rfc6979_initialize (take 32 seed) in
  match secp256k1_aggsig_generate_nonce_single fuel rng with
  | None => None
  | Some (ret, secnonce, _, _) =>
      if negb ret then Some None else Some (Some (Scalar.get_b32 secnonce))
  end.

(** [secp256k1_aggsig_generate_nonce]: the session after the call and
    the return value. *)
Definition secp256k1_aggsig_generate_nonce (fuel : nat)
    (aggctx : secp256k1_aggsig_context) (index : N)
  : option (secp256k1_aggsig_context * bool) :=
  if negb (index <? n_sigs aggctx)%N then Some (aggctx, false)
  else if negb (nonce_progress_eqb (progress_at aggctx index)
                  NONCE_PROGRESS_UNKNOWN)
  then Some (aggctx, false)
  else
    match secp256k1_aggsig_generate_nonce_single fuel (rng aggctx) with
    | None => None
    | Some (ret, k, pubnon, rng') =>
        let aggctx :=
          with_rng
            (with_secnonce aggctx (<[N.to_nat index := k]> (secnonce aggctx)))
            rng' in
        if negb ret then Some (aggctx, false)
        else
          let aggctx :=
            with_pubnonce_sum aggctx
              (gej_add_var (pubnonce_sum aggctx) pubnon) in
          let aggctx :=
            with_progress aggctx
              (<[N.to_nat index := NONCE_PROGRESS_OURS]> (progress aggctx)) in
          Some (aggctx, true)
    end.

(** ** Single-party signing *)

(** Modelled from the spec: projective to affine conversion, the same
    point. *)
Definition secp256k1_ge_set_gej (a : point) : point := a.

(** Modelled from the spec: negation of an affine point. *)
Definition secp256k1_ge_neg (a : point) : point := gej_neg a.

(** "generate nonce if needed": the return value of the generator (1 on
    the other branch), [secnonce] and [pubnonce_j]. *)
Definition sign_single_nonce (fuel : nat) (secnonce32 : option (list byte))
    (seed : list byte) : option (bool * Scalar.t * point) :=
  match secnonce32 with
  | None =>
      let rng := rfc6979_initialize (take 32 seed) in
      match secp256k1_aggsig_generate_nonce_single fuel rng with
      | None => None
      | Some (ret, secnonce, pubnonce_j, _) => Some (ret, secnonce, pubnonce_j)
      end
  | Some secnonce32 =>
      let '(secnonce, retry) := Scalar.set_b32 secnonce32 in
      let pubnonce_j := secp256k1_ecmult_gen secnonce in
      if negb (has_quad_y pubnonce_j)
      then Some (true, Scalar.negate secnonce, gej_neg pubnonce_j)
      else Some (true, secnonce, pubnonce_j)
  end.

(** The check before the sighash: [secnonce] and [tmp_ge] after it. *)
Definition sign_single_recheck (secnonce : Scalar.t) (pubnonce_j : point)
  : Scalar.t * point :=
  let tmp_ge := secp256k1_ge_set_gej pubnonce_j in
  if negb (has_quad_y pubnonce_j)
  then (Scalar.negate secnonce, secp256k1_ge_neg tmp_ge)
  else (secnonce, tmp_ge).

(** From the sighash to the end of [secp256k1_aggsig_sign_single]:
    [Some (Some sig64)] when it returns 1, [Some None] when it returns
    0, [None] when the sighash derivation aborts the process. *)
Definition sign_single_finish (msg32 seckey32 : list byte)
    (pubnonce : option secp256k1_pubkey) (secnonce : Scalar.t)
    (pubnonce_j tmp_ge : point) : option (option (list byte)) :=
  match
    match pubnonce with
    | Some pubnonce => secp256k1_compute_sighash_single pubnonce msg32
    | None =>
        let pub_tmp := secp256k1_pubkey_save tmp_ge in
        secp256k1_compute_sighash_single pub_tmp msg32
    end
  with
  | None => None
  | Some (sighash, _) =>
      let '(sec, overflow) := Scalar.set_b32 seckey32 in
      if overflow then Some None
      else
        let sec := Scalar.mul sec sighash in
        let sec := Scalar.add sec secnonce in
        let final := secp256k1_ge_set_gej pubnonce_j in
        Some (Some (Scalar.get_b32 sec
                    ++ Fe.get_b32 (Fe.normalize (ge_x final))))
  end.

(** [secp256k1_aggsig_sign_single]: [Some (Some sig64)] when it returns
    1, [Some None] when it returns 0, [None] when it does not return:
    the nonce loop did not finish within [fuel] draws, or the sighash
    derivation aborted the process. *)
Definition secp256k1_aggsig_sign_single (fuel : nat) (msg32 seckey32 : list byte)
    (secnonce32 : option (list byte)) (pubnonce : option secp256k1_pubkey)
    (seed : list byte) : option (option (list byte)) :=
  match sign_single_nonce fuel secnonce32 seed with
  | None => None
  | Some (ret, secnonce, pubnonce_j) =>
      if negb ret then Some None
      else
        let '(secnonce, tmp_ge) := sign_single_recheck secnonce pubnonce_j in
        sign_single_finish msg32 seckey32 pubnonce secnonce pubnonce_j tmp_ge
  end.

(** ** Partial signatures *)

(** The state-machine loop of [secp256k1_aggsig_partial_sign]: is some
    slot among the first [n] still unknown? *)
Fixpoint some_nonce_unknown (progress : list nonce_progress) (n : nat) : bool :=
  match n, progress with
  | O, _ => false
  | S n', [] => false
  | S n', st :: rest =>
      if nonce_progress_eqb st NONCE_PROGRESS_UNKNOWN then true
      else some_nonce_unknown rest n'
  end.

(** [secp256k1_aggsig_partial_sign]: the session after the call, and
    the partial signature when the call returns 1 ([None] when it
    returns 0). *)
Definition secp256k1_aggsig_partial_sign (aggctx : secp256k1_aggsig_context)
    (msghash32 seckey32 : list byte) (index : N)
  : secp256k1_aggsig_context * option (list byte) :=
  if negb (index <? n_sigs aggctx)%N then (aggctx, None)
  else if some_nonce_unknown (progress aggctx) (N.to_nat (n_sigs aggctx))
  then (aggctx, None)
  else if negb (nonce_progress_eqb (progress_at aggctx index)
                  NONCE_PROGRESS_OURS)
  then (aggctx, None)
  else
    let tmp_ge := secp256k1_ge_set_gej (pubnonce_sum aggctx) in
    let '(aggctx, tmp_ge) :=
      if negb (has_quad_y (pubnonce_sum aggctx))
      then (with_secnonce aggctx
              (<[N.to_nat index := Scalar.negate (secnonce_at aggctx index)]>
                 (secnonce aggctx)),
            secp256k1_ge_neg tmp_ge)
      else (aggctx, tmp_ge) in
    let prehash :=
      secp256k1_compute_prehash (pubkeys aggctx) (n_sigs aggctx)
        (Fe.normalize (ge_x tmp_ge)) msghash32 in
    let '(sighash, ok) := secp256k1_compute_sighash prehash index in
    if negb ok then (aggctx, None)
    else
      let '(sec, overflow) := Scalar.set_b32 seckey32 in
      if overflow then (aggctx, None)
      else
        let sec := Scalar.mul sec sighash in
        let sec := Scalar.add sec (secnonce_at aggctx index) in
        (with_progress aggctx
           (<[N.to_nat index := NONCE_PROGRESS_SIGNED]> (progress aggctx)),
         Some (Scalar.get_b32 sec)).

(** ** Combining *)

(** The summation loop of [secp256k1_aggsig_combine_signatures]; [None]
    when a partial signature overflows. *)
Fixpoint combine_loop (s : Scalar.t) (partial : list (list byte))
  : option Scalar.t :=
  match partial with
  | [] => Some s
  | data :: rest =>
      let '(tmp, overflow) := Scalar.set_b32 data in
      if overflow then None else combine_loop (Scalar.add s tmp) rest
  end.

(** [secp256k1_aggsig_combine_signatures]: the session after the call,
    and [sig64] when the call returns 1. *)
Definition secp256k1_aggsig_combine_signatures
    (aggctx : secp256k1_aggsig_context) (partial : list (list byte))
    (n_sigs' : N) : secp256k1_aggsig_context * option (list byte) :=
  if negb (n_sigs' =? n_sigs aggctx)%N then (aggctx, None)
  else
    match combine_loop (Scalar.set_int 0) (take (N.to_nat n_sigs') partial) with
    | None => (aggctx, None)
    | Some s =>
        let aggctx :=
          if negb (has_quad_y (pubnonce_sum aggctx))
          then with_pubnonce_sum aggctx (gej_neg (pubnonce_sum aggctx))
          else aggctx in
        let final := secp256k1_ge_set_gej (pubnonce_sum aggctx) in
        (aggctx,
         Some (Scalar.get_b32 s ++ Fe.get_b32 (Fe.normalize (ge_x final))))
    end.

(** ** Verification *)

(** [secp256k1_verify_callback_data] *)
Record secp256k1_verify_callback_data := mk_cbdata {
  cb_prehash : list byte;
  cb_single_hash : Scalar.t;
  cb_pubkeys : list secp256k1_pubkey;
}.

(** [secp256k1_aggsig_verify_callback]: [(sc, pt)], or [None] when it
    returns 0. *)
Definition secp256k1_aggsig_verify_callback
    (cbdata : secp256k1_verify_callback_data) (idx : N)
  : option (Scalar.t * point) :=
  let '(sc, ok) := secp256k1_compute_sighash (cb_prehash cbdata) idx in
  if negb ok then None
  else
    let sc := Scalar.negate sc in
    let pt := secp256k1_pubkey_load (pubkey_at (cb_pubkeys cbdata) idx) in
    Some (sc, pt).

(** [secp256k1_aggsig_verify] *)
Definition secp256k1_aggsig_verify (sig64 msg32 : list byte)
    (pubkeys : list secp256k1_pubkey) (n_pubkeys : N) : bool :=
  if (n_pubkeys =? 0)%N then false
  else
    let '(g_sc, overflow) := Scalar.set_b32 sig64 in
    if overflow then false
    else
      match Fe.set_b32 (drop 32 sig64) with
      | None => false
      | Some r_x =>
          let cbdata :=
            {| cb_prehash :=
                 secp256k1_compute_prehash pubkeys n_pubkeys r_x msg32;
               cb_single_hash := 0;
               cb_pubkeys := pubkeys |} in
          match secp256k1_ecmult_multi_var g_sc
                  (secp256k1_aggsig_verify_callback cbdata) n_pubkeys with
          | None => false
          | Some pk_sum =>
              let pk_sum_ge := secp256k1_ge_set_gej pk_sum in
              Fe.equal_var r_x (ge_x pk_sum_ge) && has_quad_y pk_sum
          end
      end.

(** [secp256k1_aggsig_verify_callback_single] *)
Definition secp256k1_aggsig_verify_callback_single
    (cbdata : secp256k1_verify_callback_data) (idx : N)
  : option (Scalar.t * point) :=
  let sc := Scalar.negate (cb_single_hash cbdata) in
  let pt := secp256k1_pubkey_load (pubkey_at (cb_pubkeys cbdata) idx) in
  Some (sc, pt).

(** [secp256k1_aggsig_verify_single]: the return value, or [None] when
    the sighash derivation aborts the process. *)
Definition secp256k1_aggsig_verify_single (sig64 msg32 : list byte)
    (pubnonce : option secp256k1_pubkey) (pubkey : secp256k1_pubkey)
  : option bool :=
  let '(g_sc, overflow) := Scalar.set_b32 sig64 in
  if overflow then Some false
  else
    match Fe.set_b32 (drop 32 sig64) with
    | None => Some false
    | Some r_x =>
        match
          match pubnonce with
          | Some pubnonce => secp256k1_compute_sighash_single pubnonce msg32
          | None =>
              let tmp_pubnonce_ge := ge_set_xquad r_x in
              let tmp_pk := secp256k1_pubkey_save tmp_pubnonce_ge in
              secp256k1_compute_sighash_single tmp_pk msg32
          end
        with
        | None => None
        | Some (sighash, _) =>
            let cbdata :=
              {| cb_prehash := [];
                 cb_single_hash := sighash;
                 cb_pubkeys := [pubkey] |} in
            match secp256k1_ecmult_multi_var g_sc
                    (secp256k1_aggsig_verify_callback_single cbdata) 1 with
            | None => Some false
            | Some pk_sum =>
                let pk_sum_ge := secp256k1_ge_set_gej pk_sum in
                Some (Fe.equal_var r_x (ge_x pk_sum_ge) && has_quad_y pk_sum)
            end
        end
    end.

(** ** Reference definitions taken from the specification *)

(** [varint7(i)]: the 7-bit limbs of [i], low limb first, one byte each;
    their number is the least [L] with [i < 128^L], so none for 0. *)
Definition varint7_limbs (i : N) : nat := N.to_nat ((N.size i + 6) / 7).

Definition varint7 (i : N) : list byte :=
  map (fun j => byte_of_N ((i / 128 ^ N.of_nat j) mod 128)%N)
      (seq 0 (varint7_limbs i)).

(** Sum of a list of points. *)
Definition point_sum (l : list point) : point :=
  foldr gej_add_var gej_infinity l.

(** [Q = s.G - sum_{i < N} e_i . P_i] of the aggregate verifier, with
    [e_i] the per-index sighash of the prehash over the key list, [r_x]
    and the message. *)
Definition verify_point (s : Scalar.t) (r_x : Fe.t) (msg32 : list byte)
    (pubkeys : list secp256k1_pubkey) : point :=
  let prehash :=
    secp256k1_compute_prehash pubkeys (N.of_nat (length pubkeys)) r_x msg32 in
  gej_add_var (ecmult s generator)
    (gej_neg
       (point_sum
          (map (fun i =>
                  ecmult
                    (fst (secp256k1_compute_sighash prehash (N.of_nat i)))
                    (secp256k1_pubkey_load (pubkey_at pubkeys (N.of_nat i))))
               (seq 0 (length pubkeys))))).

(** Does some per-index sighash derivation among the first [n] fail? *)
Definition sighash_overflows (prehash : list byte) (n : nat) : bool :=
  existsb (fun i => negb (snd (secp256k1_compute_sighash prehash (N.of_nat i))))
          (seq 0 n).

(** [secp256k1_aggsig_sign_single] with the check before the sighash
    taken out. *)
Definition sign_single_without_recheck (fuel : nat) (msg32 seckey32 : list byte)
    (secnonce32 : option (list byte)) (pubnonce : option secp256k1_pubkey)
    (seed : list byte) : option (option (list byte)) :=
  match sign_single_nonce fuel secnonce32 seed with
  | None => None
  | Some (ret, secnonce, pubnonce_j) =>
      if negb ret then Some None
      else
        sign_single_finish msg32 seckey32 pubnonce secnonce pubnonce_j
          (secp256k1_ge_set_gej pubnonce_j)
  end.

(** ** Sessions as a state machine *)

(** The arrays of a session have [n_sigs] elements. *)
Definition aggctx_wf (a : secp256k1_aggsig_context) : Prop :=
  length (progress a) = N.to_nat (n_sigs a) /\
  length (pubkeys a) = N.to_nat (n_sigs a) /\
  length (secnonce a) = N.to_nat (n_sigs a).

(** A call on a session. *)
Inductive aggsig_call :=
  | CallGenerateNonce (fuel : nat) (index : N)
  | CallPartialSign (msghash32 seckey32 : list byte) (index : N)
  | CallCombine (partial : list (list byte)) (n_sigs' : N).

(** One call: the session after it and what it returned (the output
    buffer when it returned 1); [None] when a nonce loop ran out of
    fuel. *)
Definition aggsig_exec (a : secp256k1_aggsig_context) (c : aggsig_call)
  : option (secp256k1_aggsig_context * option (list byte)) :=
  match c with
  | CallGenerateNonce fuel index =>
      match secp256k1_aggsig_generate_nonce fuel a index with
      | None => None
      | Some (a', ret) => Some (a', if ret then Some [] else None)
      end
  | CallPartialSign msghash32 seckey32 index =>
      Some (secp256k1_aggsig_partial_sign a msghash32 seckey32 index)
  | CallCombine partial n_sigs' =>
      Some (secp256k1_aggsig_combine_signatures a partial n_sigs')
  end.

(** A sequence of calls, with the list of what each returned. *)
Fixpoint aggsig_exec_all (a : secp256k1_aggsig_context) (cs : list aggsig_call)
  : option (secp256k1_aggsig_context * list (option (list byte))) :=
  match cs with
  | [] => Some (a, [])
  | c :: cs' =>
      match aggsig_exec a c with
      | None => None
      | Some (a', out) =>
          match aggsig_exec_all a' cs' with
          | None => None
          | Some (a'', outs) => Some (a'', out :: outs)
          end
      end
  end.

(** ** The aggregate protocol, end to end *)

(** [generate_nonce] for each index of the list, stopping at the first
    call that returns 0. *)
Fixpoint generate_nonces (fuel : nat) (aggctx : secp256k1_aggsig_context)
    (indices : list N) : option (secp256k1_aggsig_context * bool) :=
  match indices with
  | [] => Some (aggctx, true)
  | i :: rest =>
      match secp256k1_aggsig_generate_nonce fuel aggctx i with
      | None => None
      | Some (aggctx, ret) =>
          if ret then generate_nonces fuel aggctx rest
          else Some (aggctx, false)
      end
  end.

(** [partial_sign] for the indices [index, index + 1, ...], one secret
    key each, stopping at the first call that returns 0. *)
Fixpoint partial_signs (aggctx : secp256k1_aggsig_context)
    (msghash32 : list byte) (seckeys : list (list byte)) (index : N)
  : secp256k1_aggsig_context * option (list (list byte)) :=
  match seckeys with
  | [] => (aggctx, Some [])
  | seckey32 :: rest =>
      match secp256k1_aggsig_partial_sign aggctx msghash32 seckey32 index with
      | (aggctx, None) => (aggctx, None)
      | (aggctx, Some partial) =>
          match partial_signs aggctx msghash32 rest (index + 1)%N with
          | (aggctx, None) => (aggctx, None)
          | (aggctx, Some partials) => (aggctx, Some (partial :: partials))
          end
      end
  end.

Definition indices (n : nat) : list N := map N.of_nat (seq 0 n).

(** Session after [context_create] and the nonce round. *)
Definition aggsig_nonce_round (fuel : nat) (seed : list byte)
    (pubkeys : list secp256k1_pubkey)
  : option (secp256k1_aggsig_context * bool) :=
  let n := length pubkeys in
  generate_nonces fuel
    (secp256k1_aggsig_context_create pubkeys (N.of_nat n) seed) (indices n).

(** create, nonce round, signing round, combine. [Some (Some sig64)]
    when every call returned 1. *)
Definition aggsig_protocol (fuel : nat) (seed msg32 : list byte)
    (seckeys : list (list byte)) (pubkeys : list secp256k1_pubkey)
  : option (option (list byte)) :=
  match aggsig_nonce_round fuel seed pubkeys with
  | None => None
  | Some (_, false) => Some None
  | Some (aggctx, true) =>
      match partial_signs aggctx msg32 seckeys 0 with
      | (_, None) => Some None
      | (aggctx, Some partials) =>
          Some (snd (secp256k1_aggsig_combine_signatures aggctx partials
                       (N.of_nat (length pubkeys))))
      end
  end.

(** Public key of a 32-byte secret key. *)
Definition pubkey_of_seckey (seckey32 : list byte) : secp256k1_pubkey :=
  secp256k1_pubkey_save
    (secp256k1_ecmult_gen (fst (Scalar.set_b32 seckey32))).

(** The secret nonce a cosigner signs with when the nonce sum is [R]:
    negated when [R] has no quadratic-residue Y. *)
Definition signing_nonce (R : point) (k : Scalar.t) : Scalar.t :=
  if negb (has_quad_y R) then Scalar.negate k else k.

(** The nonce point whose X goes into the signature. *)
Definition final_nonce (R : point) : point :=
  if negb (has_quad_y R) then gej_neg R else R.

(** A valid secret key: 32 bytes, not zero and below the group order. *)
Definition seckey_valid (seckey32 : list byte) : Prop :=
  length seckey32 = 32%nat /\ 0 < be32 seckey32 < secp256k1_n.

(** ** Invariants of the protocol rounds *)

(** The state of a session for the keys [pks] when the slots below [j]
    have their nonce and the others have none. *)
Definition nonce_round_inv (pks : list secp256k1_pubkey)
    (a : secp256k1_aggsig_context) (j : nat) : Prop :=
  n_sigs a = N.of_nat (length pks)
  /\ pubkeys a = pks
  /\ length (progress a) = length pks
  /\ length (secnonce a) = length pks
  /\ (forall i, (i < length pks)%nat ->
        progress a !! i
        = Some (if (i <? j)%nat then NONCE_PROGRESS_OURS
                else NONCE_PROGRESS_UNKNOWN))
  /\ pubnonce_sum a
     = point_sum (map secp256k1_ecmult_gen (take j (secnonce a))).

(** For the session [a1] left by the nonce round, the keys and the
    message: the prehash, the challenges, the parsed secret keys, the
    nonces as signed with, and the share sk_i . e_i + k_i of each
    cosigner. *)
Definition round_prehash (pks : list secp256k1_pubkey) (msg32 : list byte)
    (a1 : secp256k1_aggsig_context) : list byte :=
  secp256k1_compute_prehash pks (N.of_nat (length pks))
    (ge_x (pubnonce_sum a1)) msg32.

Definition round_challenge (pks : list secp256k1_pubkey) (msg32 : list byte)
    (a1 : secp256k1_aggsig_context) (i : nat) : Scalar.t :=
  fst (secp256k1_compute_sighash (round_prehash pks msg32 a1) (N.of_nat i)).

Definition round_seckey (sks : list (list byte)) (i : nat) : Scalar.t :=
  fst (Scalar.set_b32 (default [] (sks !! i))).

Definition round_nonce (a1 : secp256k1_aggsig_context) (i : nat) : Scalar.t :=
  signing_nonce (pubnonce_sum a1) (default 0 (secnonce a1 !! i)).

Definition round_partial (pks : list secp256k1_pubkey) (sks : list (list byte))
    (msg32 : list byte) (a1 : secp256k1_aggsig_context) (i : nat) : Scalar.t :=
  Scalar.add (Scalar.mul (round_seckey sks i) (round_challenge pks msg32 a1 i))
             (round_nonce a1 i).

(** The state of the session when the slots below [j] have signed. *)
Definition signing_round_inv (pks : list secp256k1_pubkey)
    (a1 a : secp256k1_aggsig_context) (j : nat) : Prop :=
  n_sigs a = N.of_nat (length pks)
  /\ pubkeys a = pks
  /\ pubnonce_sum a = pubnonce_sum a1
  /\ length (progress a) = length pks
  /\ length (secnonce a) = length pks
  /\ (forall i, (i < length pks)%nat ->
        progress a !! i
        = Some (if (i <? j)%nat then NONCE_PROGRESS_SIGNED
                else NONCE_PROGRESS_OURS))
  /\ (forall i, (j <= i)%nat -> secnonce a !! i = secnonce a1 !! i).

(** The term the verifier's callback contributes for index [i]. *)
Definition verify_term (prehash : list byte) (pks : list secp256k1_pubkey)
    (i : nat) : point :=
  ecmult (Scalar.negate (fst (secp256k1_compute_sighash prehash (N.of_nat i))))
         (secp256k1_pubkey_load (pubkey_at pks (N.of_nat i))).

(** ** Further reference definitions *)

(** The state of the generator after [j] draws of 32 bytes. *)
Fixpoint rng_after (j : nat) (rng : rfc6979) : rfc6979 :=
  match j with
  | O => rng
  | S j' => rng_after j' (snd (rfc6979_generate rng 32))
  end.

(** The [j]-th draw of 32 bytes, counting from 0. *)
Definition nth_draw (rng : rfc6979) (j : nat) : list byte :=
  fst (rfc6979_generate (rng_after j rng) 32).

(** The value of a list of 7-bit limbs, low limb first. *)
Definition varint7_decode (bs : list byte) : N :=
  foldr (fun b acc => (Byte.to_N b + 128 * acc)%N) 0%N bs.

(** The nonce point a session holds for slot [i]: none while the slot
    is Unknown, k_i.G afterwards. *)
Definition slot_nonce_point (a : secp256k1_aggsig_context) (i : N) : point :=
  if nonce_progress_eqb (progress_at a i) NONCE_PROGRESS_UNKNOWN
  then gej_infinity
  else secp256k1_ecmult_gen (secnonce_at a i).

(** The sum of the nonce points of all the slots of a session. *)
Definition session_nonce_sum (a : secp256k1_aggsig_context) : point :=
  point_sum (map (slot_nonce_point a) (indices (N.to_nat (n_sigs a)))).

(** A sequence of [generate_nonce] calls, each with its fuel and index. *)
Definition generate_nonce_calls (calls : list (nat * N)) : list aggsig_call :=
  map (fun c => CallGenerateNonce (fst c) (snd c)) calls.

(** The key whose serialization the single-party verifier hashes into
    its challenge: the explicit public nonce when there is one, else
    the point with X coordinate [r_x] and quadratic-residue Y. *)
Definition verify_single_nonce_key (r_x : Fe.t)
    (pubnonce : option secp256k1_pubkey) : secp256k1_pubkey :=
  match pubnonce with
  | Some pubnonce => pubnonce
  | None => secp256k1_pubkey_save (ge_set_xquad r_x)
  end.

(** [Q = s.G - e.P] of the single-party verifier. *)
Definition verify_single_point (s e : Scalar.t) (pubkey : secp256k1_pubkey)
  : point :=
  gej_add_var (ecmult s generator)
    (gej_neg (ecmult e (secp256k1_pubkey_load pubkey))).

(** The challenge that [secp256k1_aggsig_partial_sign] derives for a
    slot: the per-index sighash of the prehash over the keys of the
    session, the X coordinate of the nonce sum (of its negation when
    its Y is not a quadratic residue) and the message. *)
Definition partial_sign_challenge (aggctx : secp256k1_aggsig_context)
    (msghash32 : list byte) (index : N) : Scalar.t :=
  let tmp_ge := secp256k1_ge_set_gej (pubnonce_sum aggctx) in
  let tmp_ge :=
    if negb (has_quad_y (pubnonce_sum aggctx)) then secp256k1_ge_neg tmp_ge
    else tmp_ge in
  fst (secp256k1_compute_sighash
         (secp256k1_compute_prehash (pubkeys aggctx) (n_sigs aggctx)
            (Fe.normalize (ge_x tmp_ge)) msghash32) index).

(** A session with the stored secret nonce of one slot replaced. *)
Definition with_secnonce_at (aggctx : secp256k1_aggsig_context) (i : N)
    (v : Scalar.t) : secp256k1_aggsig_context :=
  with_secnonce aggctx (<[N.to_nat i := v]> (secnonce aggctx)).

End Aggsig.

(** ** Laws of the backend *)

(** The points form an abelian group of order n generated by G;
    negation keeps X and, away from infinity, flips the residuosity of
    Y (p = 3 mod 4); infinity has no quadratic-residue Y; X and a
    quadratic-residue Y determine the point. *)
Class BackendLaws (B : Backend) : Prop := {
  add_assoc : forall P Q R : point,
    gej_add_var P (gej_add_var Q R) = gej_add_var (gej_add_var P Q) R;
  add_comm : forall P Q : point, gej_add_var P Q = gej_add_var Q P;
  add_inf_l : forall P : point, gej_add_var gej_infinity P = P;
  add_neg_r : forall P : point, gej_add_var P (gej_neg P) = gej_infinity;
  group_order : forall P : point, ecmult secp256k1_n P = gej_infinity;
  generator_order_min : forall k : Z,
    0 < k < secp256k1_n -> ecmult k generator <> gej_infinity;
  has_quad_y_infinity : has_quad_y gej_infinity = false;
  has_quad_y_neg : forall P : point,
    P <> gej_infinity -> has_quad_y (gej_neg P) = negb (has_quad_y P);
  ge_x_neg : forall P : point, ge_x (gej_neg P) = ge_x P;
  ge_x_range : forall P : point, 0 <= ge_x P < secp256k1_p;
  ge_set_xquad_x : forall P : point,
    has_quad_y P = true -> ge_set_xquad (ge_x P) = P;
}.

(** ** A model of the backend

    Points are represented by their discrete logarithm to the base G:
    the group is Z/nZ with its addition, G is 1 and infinity is 0. The
    X coordinate is the smaller of k and n - k, shared by a point and
    its negation, and Y counts as a quadratic residue on the lower half
    0 < k <= (n-1)/2. The hash and the generator are simple functions
    chosen for the examples. *)
Module DlogModel.

Definition dl_point : Type := Zmod secp256k1_n.

Definition dl_x (P : dl_point) : Fe.t :=
  Z.min (Zmod.to_Z P) (secp256k1_n - Zmod.to_Z P).

Definition dl_has_quad_y (P : dl_point) : bool :=
  (0 <? Zmod.to_Z P) && (2 * Zmod.to_Z P <? secp256k1_n).

(** The generator keeps the value of its seed and a counter; the i-th
    draw is i times the seed. *)
Definition dl_initialize (seed : list byte) : Z * Z := (be_value seed, 1).

Definition dl_generate (st : Z * Z) (len : nat) : list byte * (Z * Z) :=
  (be_bytes len (fst st * snd st), (fst st, snd st + 1)).

(** A checksum standing in for the hash: 32 bytes with value below
    2^128, so never an overflowing scalar. *)
Definition checksum (l : list byte) : list byte :=
  be_bytes 32
    (fold_left (fun acc b => (acc * 257 + byte_to_Z b + 1) mod 2 ^ 128) l 7).

(** A hash with one output, the 32 bytes of the number 1. *)
Definition constant_one (_ : list byte) : list byte := be_bytes 32 1.

(** A hash whose every output overflows the group order. *)
Definition all_ones (_ : list byte) : list byte := repeat Byte.xff 32.

Definition backend (hash : list byte -> list byte) : Backend :=
  {| point := dl_point;
     gej_add_var := Zmod.add;
     gej_neg := Zmod.opp;
     gej_infinity := Zmod.zero;
     generator := Zmod.one;
     ge_x := dl_x;
     has_quad_y := dl_has_quad_y;
     ge_y_is_odd := fun P => Z.odd (Zmod.to_Z P);
     ge_set_xquad := Zmod.of_Z secp256k1_n;
     sha256 := hash;
     rfc6979 := (Z * Z)%type;
     rfc6979_initialize := dl_initialize;
     rfc6979_generate := dl_generate |}.

Definition bytes32 (v : Z) : list byte := be_bytes 32 v.

End DlogModel.

(** ** Concrete inputs *)

Module Examples.

Import DlogModel.

(** The model with the checksum as hash, and with the hash whose output
    always overflows. *)
Definition model : Backend := backend checksum.
Definition overflowing : Backend := backend all_ones.

(** The model with the constant hash, in which every challenge is 1. *)
Definition constant : Backend := backend constant_one.

Definition half_order : Z := (secp256k1_n - 1) / 2.

Definition msg : list byte := bytes32 2.
Definition seckey : list byte := bytes32 5.
Definition seckeys2 : list (list byte) := [bytes32 5; bytes32 6].
Definition seckeys3 : list (list byte) := [bytes32 5; bytes32 6; bytes32 7].
Definition seed : list byte := bytes32 77.

(** A secret key and a secret nonce that overflow the group order. *)
Definition bytes_ff : list byte := repeat Byte.xff 32.

(** With two cosigners the draws are h and 2h = n - 1: the nonce sum
    h + 1 has no quadratic-residue Y. *)
Definition seed_flip : list byte := bytes32 half_order.

(** With three cosigners the draws are v, 2v and 3v for v = h/2, the
    third is negated, and the nonce sum is the point at infinity. *)
Definition seed_inf : list byte := bytes32 (half_order / 2).

(** The two-cosigner session after its nonce round. *)
Definition session_flip : @secp256k1_aggsig_context model :=
  let pks := map (@pubkey_of_seckey model) seckeys2 in
  match @aggsig_nonce_round model 3 seed_flip pks with
  | Some (a, _) => a
  | None => @secp256k1_aggsig_context_create model pks 2 seed_flip
  end.

(** A fresh two-cosigner session. *)
Definition session_fresh : @secp256k1_aggsig_context model :=
  @secp256k1_aggsig_context_create model
    (map (@pubkey_of_seckey model) seckeys2) 2 seed.

(** The two-cosigner session after both have signed. *)
Definition session_signed : @secp256k1_aggsig_context model :=
  fst (@partial_signs model session_flip msg seckeys2 0).

(** With the overflowing hash: the signature (e + 1, x(G)) for the key
    P = G, where e = (2^256 - 1) mod n is the reduced challenge. *)
Definition forged_sig : list byte :=
  bytes32 ((2 ^ 256 - 1) mod secp256k1_n + 1) ++ bytes32 1.

(** What a sequence of calls leaves of a session and returns. *)
Definition run (a : @secp256k1_aggsig_context model) (cs : list aggsig_call)
  : @secp256k1_aggsig_context model * list (option (list byte)) :=
  match @aggsig_exec_all model a cs with
  | Some r => r
  | None => (a, [])
  end.

(** The fresh session after a nonce for slot 0. *)
Definition session_one : @secp256k1_aggsig_context model :=
  fst (run session_fresh [CallGenerateNonce 3 0]).

(** Nonce generation out of order, repeated and out of range. *)
Definition nonce_calls : list (nat * N) :=
  [(3%nat, 1%N); (3%nat, 1%N); (3%nat, 5%N); (3%nat, 0%N)].

(** Calls of all three kinds, some of them refused. *)
Definition mixed_calls : list aggsig_call :=
  [CallPartialSign msg seckey 0; CallGenerateNonce 3 1;
   CallGenerateNonce 3 0; CallPartialSign msg bytes_ff 0;
   CallPartialSign msg seckey 0; CallCombine [] 2; CallGenerateNonce 3 0].

(** The partial signatures of the two cosigners of [session_flip]. *)
Definition partials2 : list (list byte) :=
  default [] (snd (@partial_signs model session_flip msg seckeys2 0)).

(** The first partial signature of that round, and the session after
    it. *)
Definition signed_one
  : @secp256k1_aggsig_context model * option (list byte) :=
  @secp256k1_aggsig_partial_sign model session_flip msg seckey 0.

(** The combined signature of the two cosigners, and the session after
    combining. *)
Definition combined2 : @secp256k1_aggsig_context model * option (list byte) :=
  @secp256k1_aggsig_combine_signatures model session_signed partials2 2.

(** The secret nonce exported for the seed of the examples. *)
Definition exported_nonce : list byte :=
  match @secp256k1_aggsig_export_secnonce_single model 3 seed with
  | Some (Some secnonce32) => secnonce32
  | _ => []
  end.

(** A public nonce that is not the signer's own. *)
Definition other_nonce : @secp256k1_pubkey model :=
  @pubkey_of_seckey model (bytes32 9).

End Examples.

(** * Properties *)


#[local] Unset Default Proof Using.

(** ** Buffers *)

Lemma byte_to_Z_of_N (v : N) : byte_to_Z (byte_of_N v) = Z.of_N (v mod 256)%N.
Proof.
  unfold byte_to_Z, byte_of_N.
  destruct (Byte.of_N (v mod 256)%N) as [b|] eqn:E.
  - now rewrite (Byte.to_of_N _ E).
  - apply Byte.of_N_None_iff in E.
    assert (v mod 256 < 256)%N by (apply N.mod_lt; lia). lia.
Qed.

Lemma byte_to_Z_of_Z (z : Z) : byte_to_Z (byte_of_Z z) = z mod 256.
Proof.
  unfold byte_of_Z. rewrite byte_to_Z_of_N.
  assert (0 <= z mod 256 < 256) by (apply Z.mod_pos_bound; lia).
  rewrite N.mod_small by lia. lia.
Qed.

Lemma byte_to_Z_range (b : byte) : 0 <= byte_to_Z b < 256.
Proof.
  unfold byte_to_Z. pose proof (Byte.to_N_bounded b). lia.
Qed.

Lemma be_value_snoc (l : list byte) (b : byte) :
  be_value (l ++ [b]) = be_value l * 256 + byte_to_Z b.
Proof. unfold be_value. now rewrite fold_left_app. Qed.

Lemma length_be_bytes (len : nat) (z : Z) : length (be_bytes len z) = len.
Proof.
  revert z. induction len as [|k IH]; intros z; cbn [be_bytes]; [reflexivity|].
  rewrite length_app, IH. simpl. lia.
Qed.

Lemma be_value_be_bytes (len : nat) (z : Z) :
  be_value (be_bytes len z) = z mod 256 ^ Z.of_nat len.
Proof.
  revert z. induction len as [|k IH]; intros z.
  - cbn [be_bytes]. now rewrite Z.mod_1_r.
  - cbn [be_bytes]. rewrite be_value_snoc, IH, byte_to_Z_of_Z.
    rewrite Nat2Z.inj_succ, Z.pow_succ_r by lia.
    rewrite (Z.rem_mul_r z 256 (256 ^ Z.of_nat k)) by lia. lia.
Qed.

Lemma be_value_range (l : list byte) :
  0 <= be_value l < 256 ^ Z.of_nat (length l).
Proof.
  induction l as [|b l IH] using rev_ind.
  - simpl. unfold be_value. simpl. lia.
  - rewrite be_value_snoc, length_app. simpl length.
    replace (Z.of_nat (length l + 1)) with (Z.succ (Z.of_nat (length l))) by lia.
    rewrite Z.pow_succ_r by lia.
    pose proof (byte_to_Z_range b). nia.
Qed.

Lemma be32_range (bs : list byte) : 0 <= be32 bs < 2 ^ 256.
Proof.
  unfold be32. pose proof (be_value_range (take 32 bs)) as H.
  assert (256 ^ Z.of_nat (length (take 32 bs)) <= 256 ^ 32).
  { apply Z.pow_le_mono_r; [lia|]. rewrite length_take. lia. }
  change (2 ^ 256) with (256 ^ 32). lia.
Qed.

Lemma be32_be_bytes_app (z : Z) (rest : list byte) :
  0 <= z < 2 ^ 256 -> be32 (be_bytes 32 z ++ rest) = z.
Proof.
  intros Hz. unfold be32.
  rewrite take_app_length' by (symmetry; apply length_be_bytes).
  rewrite be_value_be_bytes. change (256 ^ Z.of_nat 32) with (2 ^ 256).
  now apply Z.mod_small.
Qed.

Lemma be32_be_bytes (z : Z) : 0 <= z < 2 ^ 256 -> be32 (be_bytes 32 z) = z.
Proof.
  intros Hz. rewrite <- (app_nil_r (be_bytes 32 z)).
  now apply be32_be_bytes_app.
Qed.

Lemma drop_be_bytes_app (z : Z) (rest : list byte) :
  drop 32 (be_bytes 32 z ++ rest) = rest.
Proof. apply drop_app_length'. symmetry. apply length_be_bytes. Qed.

Lemma n_lt_2_256 : 0 < secp256k1_n < 2 ^ 256.
Proof. unfold secp256k1_n. lia. Qed.

Lemma p_lt_2_256 : 0 < secp256k1_p < 2 ^ 256.
Proof. unfold secp256k1_p. lia. Qed.

Example secp256k1_p_value : secp256k1_p = 2 ^ 256 - 2 ^ 32 - 977.
Proof. reflexivity. Qed.

Example secp256k1_p_mod_4 : secp256k1_p mod 4 = 3.
Proof. reflexivity. Qed.

Lemma scalar_set_get (a : Z) :
  0 <= a < secp256k1_n -> Scalar.set_b32 (Scalar.get_b32 a) = (a, false).
Proof.
  intros Ha. pose proof n_lt_2_256.
  unfold Scalar.set_b32, Scalar.get_b32.
  rewrite be32_be_bytes by lia. rewrite Z.mod_small by lia.
  f_equal. apply Z.leb_gt. lia.
Qed.

Lemma scalar_set_get_app (a : Z) (rest : list byte) :
  0 <= a < secp256k1_n ->
  Scalar.set_b32 (Scalar.get_b32 a ++ rest) = (a, false).
Proof.
  intros Ha. pose proof n_lt_2_256.
  unfold Scalar.set_b32, Scalar.get_b32.
  rewrite be32_be_bytes_app by lia. rewrite Z.mod_small by lia.
  f_equal. apply Z.leb_gt. lia.
Qed.

Lemma fe_set_get (x : Z) :
  0 <= x < secp256k1_p -> Fe.set_b32 (Fe.get_b32 x) = Some x.
Proof.
  intros Hx. pose proof p_lt_2_256.
  unfold Fe.set_b32, Fe.get_b32. rewrite be32_be_bytes by lia.
  destruct (Z.ltb_spec x secp256k1_p); [reflexivity | lia].
Qed.

Lemma scalar_mod_range (a : Z) : 0 <= a mod secp256k1_n < secp256k1_n.
Proof. apply Z.mod_pos_bound. apply n_lt_2_256. Qed.

#[global] Arguments Scalar.set_b32 : simpl never.
#[global] Arguments Scalar.get_b32 : simpl never.
#[global] Arguments Scalar.add : simpl never.
#[global] Arguments Scalar.mul : simpl never.
#[global] Arguments Scalar.negate : simpl never.
#[global] Arguments Fe.set_b32 : simpl never.
#[global] Arguments Fe.get_b32 : simpl never.
#[global] Arguments Fe.normalize : simpl never.
#[global] Arguments Fe.equal_var : simpl never.
#[global] Arguments be32 : simpl never.
#[global] Arguments be_bytes : simpl never.
#[global] Arguments secp256k1_ecmult_gen : simpl never.

(** ** The group of points *)

Section Group.

Context {B : Backend} {L : BackendLaws B}.

Local Infix "+'" := gej_add_var (at level 50, left associativity).
Local Notation "-' P" := (gej_neg P) (at level 35, right associativity).
Local Abbreviation inf := gej_infinity.

Lemma add_inf_r (P : point) : P +' inf = P.
Proof. rewrite add_comm. apply add_inf_l. Qed.

Lemma add_neg_l (P : point) : -' P +' P = inf.
Proof. rewrite add_comm. apply add_neg_r. Qed.

Lemma add_cancel_l (P Q R : point) : P +' Q = P +' R -> Q = R.
Proof.
  intros H.
  rewrite <- (add_inf_l Q), <- (add_inf_l R), <- (add_neg_l P).
  rewrite <- !add_assoc. now rewrite H.
Qed.

Lemma neg_unique (P Q : point) : P +' Q = inf -> Q = -' P.
Proof. intros H. apply (add_cancel_l P). now rewrite add_neg_r. Qed.

Lemma neg_inf : -' inf = inf.
Proof. symmetry. apply neg_unique. apply add_inf_l. Qed.

Lemma neg_neg (P : point) : -' -' P = P.
Proof. symmetry. apply neg_unique. apply add_neg_l. Qed.

Lemma neg_add (P Q : point) : -' (P +' Q) = -' P +' -' Q.
Proof.
  symmetry. apply neg_unique.
  rewrite (add_comm (-' P)), add_assoc, <- (add_assoc P Q).
  now rewrite add_neg_r, add_inf_r, add_neg_r.
Qed.

Lemma neg_eq_inf (P : point) : -' P = inf -> P = inf.
Proof. intros H. rewrite <- (neg_neg P), H. apply neg_inf. Qed.

Lemma iter_op_succ (q : positive) (P : point) :
  Pos.iter_op gej_add_var (Pos.succ q) P = Pos.iter_op gej_add_var q P +' P.
Proof.
  rewrite Pos.iter_op_succ by (intros; apply add_assoc).
  apply add_comm.
Qed.

Lemma ecmult_succ (a : Z) (P : point) :
  ecmult (Z.succ a) P = ecmult a P +' P.
Proof.
  destruct a as [|q|q].
  - simpl. now rewrite add_inf_l.
  - change (Z.succ (Z.pos q)) with (Z.pos q + 1).
    simpl. rewrite Pos.add_1_r. apply iter_op_succ.
  - destruct (Pos.eq_dec q 1%positive) as [->|Hq].
    + simpl. now rewrite add_neg_l.
    + destruct (Pos.succ_pred_or q) as [|Hs]; [contradiction|].
      rewrite <- Hs at 2.
      replace (Z.succ (Z.neg q)) with (Z.neg (Pos.pred q)) by lia.
      simpl. rewrite iter_op_succ, neg_add, <- add_assoc.
      now rewrite add_neg_l, add_inf_r.
Qed.

Lemma ecmult_pred (a : Z) (P : point) :
  ecmult (Z.pred a) P = ecmult a P +' -' P.
Proof.
  rewrite <- (Z.succ_pred a) at 2. rewrite ecmult_succ, <- add_assoc.
  now rewrite add_neg_r, add_inf_r.
Qed.

Lemma ecmult_add (a b : Z) (P : point) :
  ecmult (a + b) P = ecmult a P +' ecmult b P.
Proof.
  revert b. apply Z.peano_ind.
  - rewrite Z.add_0_r. simpl. now rewrite add_inf_r.
  - intros b IH. rewrite Z.add_succ_r, !ecmult_succ, IH. apply eq_sym, add_assoc.
  - intros b IH. rewrite Z.add_pred_r, !ecmult_pred, IH. apply eq_sym, add_assoc.
Qed.

Lemma ecmult_opp (a : Z) (P : point) : ecmult (- a) P = -' ecmult a P.
Proof.
  destruct a; simpl; [now rewrite neg_inf | reflexivity | now rewrite neg_neg].
Qed.

Lemma ecmult_inf (a : Z) : ecmult a inf = inf.
Proof.
  revert a. apply Z.peano_ind.
  - reflexivity.
  - intros a IH. now rewrite ecmult_succ, IH, add_inf_l.
  - intros a IH. now rewrite ecmult_pred, IH, neg_inf, add_inf_l.
Qed.

Lemma ecmult_mul (a b : Z) (P : point) :
  ecmult (a * b) P = ecmult a (ecmult b P).
Proof.
  revert a. apply Z.peano_ind.
  - reflexivity.
  - intros a IH. rewrite Z.mul_succ_l, ecmult_add, ecmult_succ, IH. reflexivity.
  - intros a IH. rewrite Z.mul_pred_l, ecmult_pred.
    replace (a * b - b) with (a * b + - b) by lia.
    now rewrite ecmult_add, ecmult_opp, IH.
Qed.

Lemma ecmult_neg_point (a : Z) (P : point) : ecmult a (-' P) = -' ecmult a P.
Proof.
  revert a. apply Z.peano_ind.
  - simpl. now rewrite neg_inf.
  - intros a IH. now rewrite !ecmult_succ, IH, neg_add.
  - intros a IH. now rewrite !ecmult_pred, IH, neg_add.
Qed.

(** Multiples of a point depend on the scalar mod n only. *)
Lemma ecmult_mod (k : Z) (P : point) :
  ecmult (k mod secp256k1_n) P = ecmult k P.
Proof.
  pose proof n_lt_2_256.
  rewrite (Z.div_mod k secp256k1_n) at 2 by lia.
  rewrite ecmult_add, (Z.mul_comm secp256k1_n), ecmult_mul.
  now rewrite group_order, ecmult_inf, add_inf_l.
Qed.

Lemma ecmult_gen_mod (k : Z) :
  ecmult (k mod secp256k1_n) generator = ecmult k generator.
Proof. apply ecmult_mod. Qed.

Lemma ecmult_negate (e : Scalar.t) (P : point) :
  ecmult (Scalar.negate e) P = -' ecmult e P.
Proof. unfold Scalar.negate. now rewrite ecmult_mod, ecmult_opp. Qed.

Lemma ecmult_gen_congr (a b : Z) :
  a mod secp256k1_n = b mod secp256k1_n ->
  ecmult a generator = ecmult b generator.
Proof.
  intros H. now rewrite <- (ecmult_gen_mod a), <- (ecmult_gen_mod b), H.
Qed.

Lemma ecmult_gen_nonzero (k : Z) :
  k mod secp256k1_n <> 0 -> secp256k1_ecmult_gen k <> inf.
Proof.
  intros Hk. unfold secp256k1_ecmult_gen. rewrite <- ecmult_gen_mod.
  apply generator_order_min. pose proof (scalar_mod_range k). lia.
Qed.

Lemma ecmult_gen_add (a b : Z) :
  secp256k1_ecmult_gen (Scalar.add a b)
  = secp256k1_ecmult_gen a +' secp256k1_ecmult_gen b.
Proof.
  unfold secp256k1_ecmult_gen, Scalar.add.
  now rewrite ecmult_gen_mod, ecmult_add.
Qed.

Lemma ecmult_gen_negate (a : Z) :
  secp256k1_ecmult_gen (Scalar.negate a) = -' secp256k1_ecmult_gen a.
Proof.
  unfold secp256k1_ecmult_gen, Scalar.negate.
  now rewrite ecmult_gen_mod, ecmult_opp.
Qed.

Lemma ecmult_gen_mul (e sk : Z) :
  ecmult e (secp256k1_ecmult_gen sk) = secp256k1_ecmult_gen (Scalar.mul e sk).
Proof.
  unfold secp256k1_ecmult_gen, Scalar.mul.
  now rewrite ecmult_gen_mod, ecmult_mul.
Qed.

(** A point other than infinity or its negation has a residue Y. *)
Lemma has_quad_y_flip (P : point) :
  P <> inf -> has_quad_y P = false -> has_quad_y (-' P) = true.
Proof. intros HP HQ. now rewrite has_quad_y_neg, HQ. Qed.

Lemma has_quad_y_not_inf (P : point) : has_quad_y P = true -> P <> inf.
Proof. intros HQ ->. rewrite has_quad_y_infinity in HQ. discriminate. Qed.

Lemma fe_equal_var_ge_x (P Q : point) :
  Fe.equal_var (ge_x P) (ge_x Q) = true <-> ge_x P = ge_x Q.
Proof.
  unfold Fe.equal_var.
  rewrite !Z.mod_small by apply ge_x_range. apply Z.eqb_eq.
Qed.

Lemma fe_normalize_ge_x (P : point) : Fe.normalize (ge_x P) = ge_x P.
Proof. unfold Fe.normalize. apply Z.mod_small, ge_x_range. Qed.

End Group.

(** ** The discrete-logarithm model satisfies the laws *)

Section DlogLaws.

Import DlogModel.

Variable hash : list byte -> list byte.

Lemma dl_to_Z_range (P : dl_point) : 0 <= Zmod.to_Z P < secp256k1_n.
Proof. apply Zmod.unsigned_pos_bound. apply n_lt_2_256. Qed.

Lemma dl_to_Z_opp (P : dl_point) :
  Zmod.to_Z (Zmod.opp P)
  = if Zmod.to_Z P =? 0 then 0 else secp256k1_n - Zmod.to_Z P.
Proof.
  rewrite Zmod.unsigned_opp. pose proof (dl_to_Z_range P).
  destruct (Z.eqb_spec (Zmod.to_Z P) 0) as [->|Hne].
  - reflexivity.
  - symmetry. apply (Z.mod_unique_pos _ _ (-1)); lia.
Qed.

Lemma dl_iter_op (q : positive) (P : dl_point) :
  Pos.iter_op Zmod.add q P = Zmod.of_Z secp256k1_n (Z.pos q * Zmod.to_Z P).
Proof.
  induction q as [|q IH] using Pos.peano_ind.
  - simpl Pos.iter_op. rewrite Z.mul_1_l. symmetry. apply Zmod.of_Z_to_Z.
  - rewrite Pos.iter_op_succ by (intros; apply Zmod.add_assoc).
    rewrite IH, Pos2Z.inj_succ, Z.mul_succ_l, Z.add_comm.
    now rewrite Zmod.of_Z_add, Zmod.of_Z_to_Z.
Qed.

Lemma dl_ecmult (k : Z) (P : dl_point) :
  @ecmult (backend hash) k P = Zmod.of_Z secp256k1_n (k * Zmod.to_Z P).
Proof.
  destruct k as [|q|q]; cbn [ecmult backend gej_add_var gej_neg gej_infinity].
  - symmetry. apply Zmod.of_Z_0.
  - apply dl_iter_op.
  - rewrite dl_iter_op, <- Zmod.of_Z_opp. f_equal. lia.
Qed.

Lemma dl_to_Z_one : Zmod.to_Z (@Zmod.one secp256k1_n) = 1.
Proof. reflexivity. Qed.

Lemma dlog_laws : BackendLaws (backend hash).
Proof.
  split; cbn [point gej_add_var gej_neg gej_infinity generator ge_x
              has_quad_y ge_set_xquad backend].
  - intros. apply Zmod.add_assoc.
  - intros. apply Zmod.add_comm.
  - intros. apply Zmod.add_0_l.
  - intros. apply Zmod.add_opp_same_r.
  - intros P. rewrite dl_ecmult.
    apply Zmod.to_Z_inj. rewrite Zmod.to_Z_of_Z, Z.mul_comm, Z.mod_mul;
      [reflexivity|].
    pose proof n_lt_2_256. lia.
  - intros k Hk. rewrite dl_ecmult, dl_to_Z_one, Z.mul_1_r.
    apply Zmod.of_Z_nz. rewrite Z.mod_small; lia.
  - reflexivity.
  - intros P HP. unfold dl_has_quad_y. rewrite dl_to_Z_opp.
    pose proof (dl_to_Z_range P).
    assert (Zmod.to_Z P <> 0).
    { intros H0. apply HP. apply Zmod.to_Z_inj. now rewrite H0. }
    destruct (Z.eqb_spec (Zmod.to_Z P) 0); [contradiction|].
    unfold secp256k1_n in *.
    repeat match goal with
           | |- context [?a <? ?b] => destruct (Z.ltb_spec a b)
           end; simpl; try reflexivity; lia.
  - intros P. unfold dl_x. rewrite dl_to_Z_opp.
    pose proof (dl_to_Z_range P).
    destruct (Z.eqb_spec (Zmod.to_Z P) 0) as [->|]; lia.
  - intros P. unfold dl_x. pose proof (dl_to_Z_range P).
    unfold secp256k1_n, secp256k1_p in *. lia.
  - intros P. unfold dl_has_quad_y, dl_x. intros HQ.
    apply andb_true_iff in HQ as [_ HQ]. apply Z.ltb_lt in HQ.
    rewrite Z.min_l by lia. apply Zmod.of_Z_to_Z.
Qed.

End DlogLaws.

(** ** The index encoding of the per-index challenge *)

Lemma varint7_limbs_0 : varint7_limbs 0%N = 0%nat.
Proof. reflexivity. Qed.

Lemma varint7_limbs_shiftr (i : N) :
  i <> 0%N -> varint7_limbs i = S (varint7_limbs (N.shiftr i 7%N)).
Proof.
  intros Hi. unfold varint7_limbs.
  rewrite (N.size_log2 i) by assumption.
  destruct (N.eq_dec (N.shiftr i 7) 0%N) as [E|E].
  - rewrite E. change (N.size 0%N) with 0%N.
    apply N.shiftr_eq_0_iff in E as [E|[_ E]]; [contradiction|].
    change (N.to_nat ((0 + 6) / 7)%N) with 0%nat.
    assert (H : ((N.succ (N.log2 i) + 6) / 7 = 1)%N).
    { symmetry. apply (N.div_unique _ 7%N 1%N (N.log2 i)); lia. }
    rewrite H. reflexivity.
  - rewrite (N.size_log2 _ E).
    assert (0 < N.shiftr i 7%N)%N by lia.
    assert (7 <= N.log2 i)%N.
    { destruct (N.le_gt_cases 7 (N.log2 i)) as [|Hlt]; [assumption|].
      exfalso. apply E. apply N.shiftr_eq_0_iff. right. split; lia. }
    rewrite N.log2_shiftr by lia.
    replace (N.succ (N.log2 i) + 6)%N
      with ((N.succ (N.log2 i - 7) + 6) + 1 * 7)%N by lia.
    rewrite N.div_add by lia. lia.
Qed.

Lemma varint7_step (i : N) :
  i <> 0%N ->
  varint7 i = byte_of_N (N.land i 0x7f%N) :: varint7 (N.shiftr i 7%N).
Proof.
  intros Hi. unfold varint7. rewrite (varint7_limbs_shiftr i Hi).
  cbn [seq map]. f_equal.
  - change 0x7f%N with (N.ones 7%N). rewrite N.land_ones.
    change (128 ^ N.of_nat 0)%N with 1%N. now rewrite N.div_1_r.
  - rewrite <- seq_shift, map_map. apply map_ext. intros j.
    rewrite N.shiftr_div_pow2. change (2 ^ 7)%N with 128%N.
    rewrite Nat2N.inj_succ, N.pow_succ_r', N.Div0.div_div. reflexivity.
Qed.

Lemma sighash_index_loop_varint7 (index : N) (hasher : secp256k1_sha256) :
  sighash_index_loop index hasher = hasher ++ varint7 index.
Proof.
  funelim (sighash_index_loop index hasher).
  - rewrite e. change (varint7 0%N) with (@nil byte). now rewrite app_nil_r.
  - rewrite H, (varint7_step index) by assumption.
    unfold secp256k1_sha256_write. simpl take.
    now rewrite <- app_assoc.
Qed.

Example varint7_300 : varint7 300%N = [Byte.x2c; Byte.x02].
Proof. reflexivity. Qed.

Example varint7_128 : varint7 128%N = [Byte.x00; Byte.x01].
Proof. reflexivity. Qed.

Example varint7_size_t_max : length (varint7 (2 ^ 64 - 1)%N) = 10%nat.
Proof. reflexivity. Qed.

(** C8. The per-index challenge is SHA256(varint7(i) || prehash) mod n
    for every index and every 32-byte prehash, where varint7 emits the
    7-bit limbs of the index, low limb first, and nothing for index 0:
    e_0 = SHA256(prehash) mod n. *)
Theorem compute_sighash_is_varint7_hash {B : Backend}
    (prehash : list byte) (index : N) :
  length prehash = 32%nat ->
  fst (secp256k1_compute_sighash prehash index)
    = be32 (sha256 (varint7 index ++ prehash)) mod secp256k1_n
  /\ varint7 0%N = []
  /\ fst (secp256k1_compute_sighash prehash 0%N)
     = be32 (sha256 prehash) mod secp256k1_n.
Proof.
  intros Hlen.
  assert (Hgen : forall i,
    fst (secp256k1_compute_sighash prehash i)
    = be32 (sha256 (varint7 i ++ prehash)) mod secp256k1_n).
  { intros i. unfold secp256k1_compute_sighash.
    rewrite sighash_index_loop_varint7.
    unfold secp256k1_sha256_initialize, secp256k1_sha256_write,
      secp256k1_sha256_finalize, Scalar.set_b32.
    rewrite take_ge by lia. reflexivity. }
  split; [apply Hgen|]. split; [reflexivity|].
  rewrite Hgen. reflexivity.
Qed.

(** ** Nonce generation *)

Section Nonce.

Context {B : Backend}.

Lemma scalar_set_b32_range (bs : list byte) :
  0 <= fst (Scalar.set_b32 bs) < secp256k1_n.
Proof. apply scalar_mod_range. Qed.

Lemma scalar_negate_range (a : Z) :
  0 <= Scalar.negate a < secp256k1_n.
Proof. apply scalar_mod_range. Qed.

Lemma scalar_negate_nonzero (a : Z) :
  0 < a < secp256k1_n -> 0 < Scalar.negate a < secp256k1_n.
Proof.
  intros Ha. unfold Scalar.negate.
  rewrite <- (Z.mod_unique_pos (- a) secp256k1_n (-1) (secp256k1_n - a)); lia.
Qed.

Lemma scalar_negate_zero : Scalar.negate 0 = 0.
Proof. reflexivity. Qed.

(** A draw that leaves the loop is a scalar in (0, n). *)
Lemma nonce_retry_loop_range (fuel : nat) (rng rng' : rfc6979) (k : Scalar.t) :
  nonce_retry_loop fuel rng = Some (k, rng') -> 0 < k < secp256k1_n.
Proof.
  revert rng.
  induction fuel as [|fuel IH]; intros rng; cbn [nonce_retry_loop];
    [discriminate|].
  destruct (rfc6979_generate rng 32) as [data rng1].
  pose proof (scalar_set_b32_range data) as Hr.
  destruct (Scalar.set_b32 data) as [secnonce retry]. cbn [fst] in Hr.
  destruct retry; cbn [orb]; [apply IH|].
  unfold Scalar.is_zero.
  destruct (Z.eqb_spec secnonce 0); [apply IH|].
  intros [= <- <-]. lia.
Qed.

(** The loop returns as soon as a draw is a valid scalar. *)
Lemma nonce_retry_loop_first (fuel : nat) (rng : rfc6979) :
  0 < be32 (fst (rfc6979_generate rng 32)) < secp256k1_n ->
  nonce_retry_loop (S fuel) rng
  = Some (be32 (fst (rfc6979_generate rng 32)), snd (rfc6979_generate rng 32)).
Proof.
  intros Hv. cbn [nonce_retry_loop].
  destruct (rfc6979_generate rng 32) as [data rng1].
  cbn [fst snd] in *. unfold Scalar.set_b32, Scalar.is_zero.
  rewrite Z.mod_small by lia.
  destruct (Z.leb_spec secp256k1_n (be32 data)); [lia|].
  destruct (Z.eqb_spec (be32 data) 0); [lia|]. reflexivity.
Qed.

(** More fuel does not change what the loop returns. *)
Lemma nonce_retry_loop_fuel (fuel extra : nat) (rng : rfc6979)
    (r : Scalar.t * rfc6979) :
  nonce_retry_loop fuel rng = Some r ->
  nonce_retry_loop (fuel + extra) rng = Some r.
Proof.
  revert rng. induction fuel as [|fuel IH]; intros rng; [discriminate|].
  cbn [nonce_retry_loop Nat.add].
  destruct (rfc6979_generate rng 32) as [data rng1].
  destruct (Scalar.set_b32 data) as [secnonce retry].
  destruct (retry || Scalar.is_zero secnonce); [apply IH | auto].
Qed.

(** [secp256k1_aggsig_generate_nonce_single] returns 1 as soon as a
    draw is a valid scalar. *)
Lemma generate_nonce_single_returns (fuel : nat) (rng : rfc6979) :
  0 < be32 (fst (rfc6979_generate rng 32)) < secp256k1_n ->
  exists k K rng',
    secp256k1_aggsig_generate_nonce_single (S fuel) rng
    = Some (true, k, K, rng').
Proof.
  intros Hv. unfold secp256k1_aggsig_generate_nonce_single.
  rewrite nonce_retry_loop_first by assumption.
  destruct (has_quad_y _); cbn [negb]; eauto.
Qed.

Context {L : BackendLaws B}.

Lemma generate_nonce_single_spec (fuel : nat) (rng rng' : rfc6979)
    (ret : bool) (k : Scalar.t) (K : point) :
  secp256k1_aggsig_generate_nonce_single fuel rng = Some (ret, k, K, rng') ->
  ret = true /\ K = secp256k1_ecmult_gen k /\ 0 < k < secp256k1_n
  /\ has_quad_y K = true.
Proof.
  unfold secp256k1_aggsig_generate_nonce_single.
  destruct (nonce_retry_loop fuel rng) as [[k0 rng0]|] eqn:E; [|discriminate].
  apply nonce_retry_loop_range in E.
  destruct (has_quad_y (secp256k1_ecmult_gen k0)) eqn:Q; simpl;
    intros [= <- <- <- <-].
  - auto.
  - split; [reflexivity|]. split; [now rewrite ecmult_gen_negate|].
    split; [now apply scalar_negate_nonzero|].
    apply has_quad_y_flip; [|assumption].
    apply ecmult_gen_nonzero. rewrite Z.mod_small; lia.
Qed.

End Nonce.

(** C6. Whenever [secp256k1_aggsig_generate_nonce_single] returns
    success, from whatever generator state, the pair (k, K) it returns
    has K = k.G, k not the zero scalar, and K.y a quadratic residue. *)
Theorem generate_nonce_single_contract {B : Backend} {L : BackendLaws B}
    (fuel : nat) (rng rng' : rfc6979) (k : Scalar.t) (K : point) :
  secp256k1_aggsig_generate_nonce_single fuel rng = Some (true, k, K, rng') ->
  K = secp256k1_ecmult_gen k /\ 0 < k < secp256k1_n /\ has_quad_y K = true.
Proof.
  intros H. now apply generate_nonce_single_spec in H as (_ & ? & ? & ?).
Qed.

(** ** The nonce state machine *)

Section Session.

Context {B : Backend}.

Lemma nonce_progress_eqb_eq (a b : nonce_progress) :
  nonce_progress_eqb a b = true <-> a = b.
Proof. destruct a, b; simpl; split; congruence. Qed.

Lemma nonce_progress_eqb_neq (a b : nonce_progress) :
  nonce_progress_eqb a b = false <-> a <> b.
Proof. destruct a, b; simpl; split; congruence. Qed.

Lemma some_nonce_unknown_true (l : list nonce_progress) (n j : nat) :
  (j < n)%nat -> l !! j = Some NONCE_PROGRESS_UNKNOWN ->
  some_nonce_unknown l n = true.
Proof.
  revert n j. induction l as [|st l IH]; intros n j Hj Hl.
  - discriminate.
  - destruct n as [|n]; [lia|]. simpl.
    destruct j as [|j]; simpl in Hl.
    + injection Hl as ->. reflexivity.
    + destruct (nonce_progress_eqb st NONCE_PROGRESS_UNKNOWN); [reflexivity|].
      apply (IH n j); [lia | assumption].
Qed.

Lemma some_nonce_unknown_false (l : list nonce_progress) (n : nat) :
  (forall j st, (j < n)%nat -> l !! j = Some st -> st <> NONCE_PROGRESS_UNKNOWN) ->
  some_nonce_unknown l n = false.
Proof.
  revert n. induction l as [|st l IH]; intros n H.
  - destruct n; reflexivity.
  - destruct n as [|n]; [reflexivity|]. simpl.
    assert (Hst : st <> NONCE_PROGRESS_UNKNOWN) by (apply (H 0%nat); [lia | reflexivity]).
    apply nonce_progress_eqb_neq in Hst. rewrite Hst.
    apply IH. intros j st' Hj Hl. apply (H (S j)); [lia | assumption].
Qed.

Lemma default_insert_ne {A} (d : A) (l : list A) (i j : nat) (v : A) :
  i <> j -> default d (<[i := v]> l !! j) = default d (l !! j).
Proof. intros Hne. now rewrite list_lookup_insert_ne. Qed.

Lemma default_insert_eq {A} (d : A) (l : list A) (i : nat) (v : A) :
  (i < length l)%nat -> default d (<[i := v]> l !! i) = v.
Proof. intros Hi. now rewrite list_lookup_insert_eq. Qed.

(** [generate_nonce] on a slot that is not Unknown returns 0 and leaves
    the session as it was. *)
Lemma generate_nonce_rejects (fuel : nat) (a : secp256k1_aggsig_context)
    (index : N) :
  progress_at a index <> NONCE_PROGRESS_UNKNOWN ->
  secp256k1_aggsig_generate_nonce fuel a index = Some (a, false).
Proof.
  intros Hp. unfold secp256k1_aggsig_generate_nonce.
  destruct (index <? n_sigs a)%N; [|reflexivity]. cbn [negb].
  apply nonce_progress_eqb_neq in Hp. now rewrite Hp.
Qed.

(** [partial_sign] while some slot is Unknown returns 0 and leaves the
    session as it was. *)
Lemma partial_sign_rejects_unknown (a : secp256k1_aggsig_context)
    (msghash32 seckey32 : list byte) (index j : N) :
  aggctx_wf a -> (j < n_sigs a)%N ->
  progress_at a j = NONCE_PROGRESS_UNKNOWN ->
  secp256k1_aggsig_partial_sign a msghash32 seckey32 index = (a, None).
Proof.
  intros (Hlen & _ & _) Hj Hp. unfold secp256k1_aggsig_partial_sign.
  destruct (index <? n_sigs a)%N; [|reflexivity]. cbn [negb].
  rewrite (some_nonce_unknown_true _ _ (N.to_nat j)); [reflexivity | lia |].
  unfold progress_at in Hp.
  destruct (progress a !! N.to_nat j) as [st|] eqn:E.
  - simpl in Hp. now subst.
  - apply lookup_ge_None in E. lia.
Qed.

(** [partial_sign] on a slot that is not in Ours returns 0 and leaves
    the session as it was. *)
Lemma partial_sign_rejects_not_ours (a : secp256k1_aggsig_context)
    (msghash32 seckey32 : list byte) (index : N) :
  progress_at a index <> NONCE_PROGRESS_OURS ->
  secp256k1_aggsig_partial_sign a msghash32 seckey32 index = (a, None).
Proof.
  intros Hp. unfold secp256k1_aggsig_partial_sign.
  destruct (index <? n_sigs a)%N; [|reflexivity]. cbn [negb].
  destruct (some_nonce_unknown _ _); [reflexivity|].
  apply nonce_progress_eqb_neq in Hp. now rewrite Hp.
Qed.

(** What [partial_sign] may change: the progress and the secret nonce
    of the slot it signs, nothing else. *)
Lemma partial_sign_frame (a a' : secp256k1_aggsig_context)
    (msghash32 seckey32 : list byte) (index i : N) (out : option (list byte)) :
  secp256k1_aggsig_partial_sign a msghash32 seckey32 index = (a', out) ->
  i <> index ->
  progress_at a' i = progress_at a i /\ secnonce_at a' i = secnonce_at a i.
Proof.
  intros H Hne. assert (Hn : N.to_nat index <> N.to_nat i) by lia.
  unfold secp256k1_aggsig_partial_sign in H.
  destruct (index <? n_sigs a)%N; cbn [negb] in H; [|now injection H as <- _].
  destruct (some_nonce_unknown _ _); [now injection H as <- _|].
  destruct (nonce_progress_eqb _ _); cbn [negb] in H; [|now injection H as <- _].
  destruct (has_quad_y (pubnonce_sum a)); cbn [negb] in H;
    destruct (secp256k1_compute_sighash _ _) as [sighash ok];
    destruct ok; cbn [negb] in H;
    destruct (Scalar.set_b32 seckey32) as [sec overflow];
    destruct overflow;
    injection H as <- _;
    unfold progress_at, secnonce_at; cbn [progress secnonce with_progress with_secnonce];
    rewrite ?default_insert_ne by assumption; auto.
Qed.

(** What [generate_nonce] may change besides the generator and the
    nonce sum: the progress and the secret nonce of its own slot, and
    only when that slot was Unknown. *)
Lemma generate_nonce_frame (fuel : nat) (a a' : secp256k1_aggsig_context)
    (index i : N) (ret : bool) :
  secp256k1_aggsig_generate_nonce fuel a index = Some (a', ret) ->
  progress_at a i <> NONCE_PROGRESS_UNKNOWN ->
  progress_at a' i = progress_at a i /\ secnonce_at a' i = secnonce_at a i.
Proof.
  intros H Hp. unfold secp256k1_aggsig_generate_nonce in H.
  destruct (index <? n_sigs a)%N; cbn [negb] in H; [|now injection H as <- _].
  destruct (nonce_progress_eqb (progress_at a index) NONCE_PROGRESS_UNKNOWN) eqn:E;
    cbn [negb] in H; [|now injection H as <- _].
  apply nonce_progress_eqb_eq in E.
  assert (Hn : N.to_nat index <> N.to_nat i).
  { intros Heq. apply N2Nat.inj in Heq. subst. contradiction. }
  destruct (secp256k1_aggsig_generate_nonce_single _ _) as [[[[r k] pubnon] rng']|];
    [|discriminate].
  destruct r; cbn [negb] in H; injection H as <- _;
    unfold progress_at, secnonce_at;
    cbn [progress secnonce with_progress with_secnonce with_rng with_pubnonce_sum];
    rewrite ?default_insert_ne by assumption; auto.
Qed.

Lemma combine_frame (a a' : secp256k1_aggsig_context)
    (partial : list (list byte)) (n : N) (out : option (list byte)) :
  secp256k1_aggsig_combine_signatures a partial n = (a', out) ->
  progress a' = progress a /\ secnonce a' = secnonce a.
Proof.
  unfold secp256k1_aggsig_combine_signatures. intros H.
  destruct (n =? n_sigs a)%N; cbn [negb] in H; [|now injection H as <- _].
  destruct (combine_loop _ _); [|now injection H as <- _].
  destruct (has_quad_y (pubnonce_sum a)); cbn [negb] in H;
    now injection H as <- _.
Qed.

(** The sessions that [context_create] makes and the calls keep have
    arrays of [n_sigs] elements. *)
Lemma aggctx_wf_create (pks : list secp256k1_pubkey) (n_pubkeys : N)
    (seed : list byte) :
  (N.to_nat n_pubkeys <= length pks)%nat ->
  aggctx_wf (secp256k1_aggsig_context_create pks n_pubkeys seed).
Proof.
  intros Hn. unfold aggctx_wf, secp256k1_aggsig_context_create.
  cbn [progress pubkeys secnonce n_sigs].
  rewrite !length_replicate, length_take. repeat split. lia.
Qed.

Lemma aggctx_wf_exec (a a' : secp256k1_aggsig_context) (c : aggsig_call)
    (out : option (list byte)) :
  aggctx_wf a -> aggsig_exec a c = Some (a', out) -> aggctx_wf a'.
Proof.
  intros (Hp & Hk & Hs) H.
  destruct c as [fuel index|m sk index|partial n]; cbn [aggsig_exec] in H.
  - unfold secp256k1_aggsig_generate_nonce in H.
    destruct (index <? n_sigs a)%N; cbn [negb] in H;
      [|injection H as <- _; now repeat split].
    destruct (nonce_progress_eqb _ _); cbn [negb] in H;
      [|injection H as <- _; now repeat split].
    destruct (secp256k1_aggsig_generate_nonce_single _ _)
      as [[[[r k] pubnon] rng']|]; [|discriminate].
    destruct r; cbn [negb] in H; injection H as <- _;
      unfold aggctx_wf;
      cbn [progress pubkeys secnonce n_sigs
           with_progress with_secnonce with_rng with_pubnonce_sum];
      rewrite ?length_insert; auto.
  - unfold secp256k1_aggsig_partial_sign in H.
    destruct (index <? n_sigs a)%N; cbn [negb] in H;
      [|injection H as <- _; now repeat split].
    destruct (some_nonce_unknown _ _); [injection H as <- _; now repeat split|].
    destruct (nonce_progress_eqb _ _); cbn [negb] in H;
      [|injection H as <- _; now repeat split].
    destruct (has_quad_y (pubnonce_sum a)); cbn [negb] in H;
      destruct (secp256k1_compute_sighash _ index) as [sighash ok];
      destruct ok; cbn [negb] in H;
      destruct (Scalar.set_b32 sk) as [sec overflow];
      destruct overflow;
      injection H as <- _;
      unfold aggctx_wf;
      cbn [progress pubkeys secnonce n_sigs with_progress with_secnonce];
      rewrite ?length_insert; auto.
  - unfold secp256k1_aggsig_combine_signatures in H.
    destruct (n =? n_sigs a)%N; cbn [negb] in H;
      [|injection H as <- _; now repeat split].
    destruct (combine_loop _ _); [|injection H as <- _; now repeat split].
    destruct (has_quad_y (pubnonce_sum a)); cbn [negb] in H;
      injection H as <- _; now repeat split.
Qed.

(** [generate_nonce] does not return when the retry loop does not. *)
Lemma generate_nonce_diverges (fuel : nat) (a : secp256k1_aggsig_context)
    (index : N) :
  (index < n_sigs a)%N -> progress_at a index = NONCE_PROGRESS_UNKNOWN ->
  nonce_retry_loop fuel (rng a) = None ->
  secp256k1_aggsig_generate_nonce fuel a index = None.
Proof.
  intros Hi Hp Hloop. unfold secp256k1_aggsig_generate_nonce.
  destruct (N.ltb_spec index (n_sigs a)); [|lia]. cbn [negb].
  rewrite Hp. cbn [nonce_progress_eqb negb].
  unfold secp256k1_aggsig_generate_nonce_single. now rewrite Hloop.
Qed.

(** One call keeps a Signed slot Signed, keeps its secret nonce, and if
    it is a [partial_sign] for that slot it returns 0. *)
Lemma exec_keeps_signed (a a' : secp256k1_aggsig_context) (c : aggsig_call)
    (out : option (list byte)) (i : N) :
  progress_at a i = NONCE_PROGRESS_SIGNED ->
  aggsig_exec a c = Some (a', out) ->
  progress_at a' i = NONCE_PROGRESS_SIGNED
  /\ secnonce_at a' i = secnonce_at a i
  /\ (forall m sk, c = CallPartialSign m sk i -> out = None).
Proof.
  intros Hs H. destruct c as [fuel index|m sk index|partial n]; cbn [aggsig_exec] in H.
  - destruct (secp256k1_aggsig_generate_nonce fuel a index) as [[a1 ret]|] eqn:E;
      [|discriminate].
    injection H as <- _.
    apply (generate_nonce_frame _ _ _ _ i) in E as [Hp Hk]; [|congruence].
    repeat split; [congruence | assumption | discriminate].
  - injection H as H.
    destruct (N.eq_dec i index) as [<-|Hne].
    + rewrite partial_sign_rejects_not_ours in H by congruence.
      injection H as <- <-. repeat split; auto.
    + apply (partial_sign_frame _ _ _ _ _ i) in H as [Hp Hk]; [|assumption].
      repeat split; [congruence | assumption |].
      intros m' sk' [= _ _ Heq]. congruence.
  - injection H as H. apply combine_frame in H as [Hp Hk].
    unfold progress_at, secnonce_at in *. rewrite Hp, Hk.
    repeat split; [assumption | discriminate].
Qed.

Lemma exec_all_keeps_signed (cs : list aggsig_call)
    (a a' : secp256k1_aggsig_context) (outs : list (option (list byte)))
    (i : N) :
  progress_at a i = NONCE_PROGRESS_SIGNED ->
  aggsig_exec_all a cs = Some (a', outs) ->
  progress_at a' i = NONCE_PROGRESS_SIGNED
  /\ secnonce_at a' i = secnonce_at a i
  /\ (forall k m sk, cs !! k = Some (CallPartialSign m sk i) ->
      outs !! k = Some None).
Proof.
  revert a outs. induction cs as [|c cs IH]; intros a outs Hs H.
  - injection H as <- <-. repeat split; [assumption|]. intros k m sk Hk.
    rewrite lookup_nil in Hk. discriminate.
  - cbn [aggsig_exec_all] in H.
    destruct (aggsig_exec a c) as [[a1 out]|] eqn:E1; [|discriminate].
    destruct (aggsig_exec_all a1 cs) as [[a2 outs']|] eqn:E2; [|discriminate].
    injection H as <- <-.
    destruct (exec_keeps_signed _ _ _ _ i Hs E1) as (Hp1 & Hk1 & Ho1).
    destruct (IH _ _ Hp1 E2) as (Hp2 & Hk2 & Ho2).
    split; [assumption|]. split; [congruence|].
    intros [|k] m sk Hk; simpl in Hk |- *.
    + injection Hk as ->. f_equal. eapply Ho1. reflexivity.
    + eapply Ho2. eassumption.
Qed.

(** The secret nonce stored for a slot is read by [generate_nonce] and
    [partial_sign] only for that slot, and by [combine_signatures] not
    at all: replacing it changes nothing else. *)
Lemma with_secnonce_at_other (a : secp256k1_aggsig_context) (i j : N)
    (v : Scalar.t) :
  j <> i -> secnonce_at (with_secnonce_at a i v) j = secnonce_at a j.
Proof.
  intros Hne. unfold secnonce_at, with_secnonce_at. cbn [secnonce with_secnonce].
  apply default_insert_ne. lia.
Qed.

Lemma generate_nonce_nonce_irrelevant (fuel : nat)
    (a a' : secp256k1_aggsig_context) (index i : N) (ret : bool)
    (v : Scalar.t) :
  progress_at a i <> NONCE_PROGRESS_UNKNOWN ->
  secp256k1_aggsig_generate_nonce fuel a index = Some (a', ret) ->
  secp256k1_aggsig_generate_nonce fuel (with_secnonce_at a i v) index
  = Some (with_secnonce_at a' i v, ret).
Proof.
  intros Hp. unfold secp256k1_aggsig_generate_nonce, with_secnonce_at.
  cbn [n_sigs rng secnonce with_secnonce].
  change (progress_at (with_secnonce a _) index) with (progress_at a index).
  destruct (index <? n_sigs a)%N; cbn [negb]; [|now intros [= <- <-]].
  destruct (nonce_progress_eqb (progress_at a index) NONCE_PROGRESS_UNKNOWN)
    eqn:E; cbn [negb]; [|now intros [= <- <-]].
  apply nonce_progress_eqb_eq in E.
  assert (Hne : N.to_nat index <> N.to_nat i).
  { intros Heq. apply N2Nat.inj in Heq. subst. contradiction. }
  destruct (secp256k1_aggsig_generate_nonce_single fuel (rng a))
    as [[[[r k] K] rng']|]; [|discriminate].
  destruct r; cbn [negb]; intros [= <- <-];
    unfold with_rng, with_secnonce, with_pubnonce_sum, with_progress;
    cbn [progress pubkeys secnonce pubnonce_sum n_sigs rng];
    now rewrite (list_insert_insert_ne _ _ _ k v Hne).
Qed.

Lemma partial_sign_nonce_irrelevant (a : secp256k1_aggsig_context)
    (msghash32 seckey32 : list byte) (index i : N) (v : Scalar.t) :
  index <> i ->
  secp256k1_aggsig_partial_sign (with_secnonce_at a i v) msghash32 seckey32
    index
  = (with_secnonce_at
       (fst (secp256k1_aggsig_partial_sign a msghash32 seckey32 index)) i v,
     snd (secp256k1_aggsig_partial_sign a msghash32 seckey32 index)).
Proof.
  intros Hne. assert (Hn : N.to_nat index <> N.to_nat i) by lia.
  unfold secp256k1_aggsig_partial_sign.
  rewrite (with_secnonce_at_other a i index v Hne).
  unfold with_secnonce_at.
  cbn [n_sigs progress pubkeys pubnonce_sum secnonce with_secnonce].
  change (progress_at (with_secnonce a _) index) with (progress_at a index).
  destruct (index <? n_sigs a)%N; cbn [negb]; [|reflexivity].
  destruct (some_nonce_unknown _ _); [reflexivity|].
  destruct (nonce_progress_eqb _ _); cbn [negb]; [|reflexivity].
  assert (Hat : forall w,
    secnonce_at (with_secnonce
                   (with_secnonce a (<[N.to_nat i := v]> (secnonce a)))
                   (<[N.to_nat index := w]> (<[N.to_nat i := v]> (secnonce a))))
      index
    = secnonce_at (with_secnonce a (<[N.to_nat index := w]> (secnonce a)))
        index).
  { intros w. unfold secnonce_at. cbn [secnonce with_secnonce].
    rewrite (list_insert_insert_ne _ _ _ w v Hn).
    now rewrite list_lookup_insert_ne by lia. }
  pose proof (with_secnonce_at_other a i index v Hne) as Hat0.
  unfold with_secnonce_at in Hat0.
  destruct (has_quad_y (pubnonce_sum a)); cbn [negb];
    cbn [n_sigs progress pubkeys pubnonce_sum secnonce with_secnonce];
    destruct (secp256k1_compute_sighash _ index) as [sighash ok];
    destruct ok; cbn [negb fst snd];
    destruct (Scalar.set_b32 seckey32) as [sec overflow];
    destruct overflow; cbn [fst snd];
    try rewrite Hat; try rewrite Hat0;
    unfold with_progress, with_secnonce;
    cbn [progress pubkeys secnonce pubnonce_sum n_sigs rng];
    try rewrite (list_insert_insert_ne _ (N.to_nat index) (N.to_nat i) _ v Hn);
    reflexivity.
Qed.

Lemma combine_nonce_irrelevant (a : secp256k1_aggsig_context)
    (partial : list (list byte)) (n : N) (i : N) (v : Scalar.t) :
  secp256k1_aggsig_combine_signatures (with_secnonce_at a i v) partial n
  = (with_secnonce_at (fst (secp256k1_aggsig_combine_signatures a partial n))
       i v,
     snd (secp256k1_aggsig_combine_signatures a partial n)).
Proof.
  unfold secp256k1_aggsig_combine_signatures, with_secnonce_at.
  cbn [n_sigs pubnonce_sum with_secnonce].
  destruct (n =? n_sigs a)%N; cbn [negb]; [|reflexivity].
  destruct (combine_loop _ _); [|reflexivity].
  destruct (has_quad_y (pubnonce_sum a)); reflexivity.
Qed.

Lemma exec_nonce_irrelevant (a a' : secp256k1_aggsig_context)
    (c : aggsig_call) (out : option (list byte)) (i : N) (v : Scalar.t) :
  progress_at a i = NONCE_PROGRESS_SIGNED ->
  aggsig_exec a c = Some (a', out) ->
  aggsig_exec (with_secnonce_at a i v) c = Some (with_secnonce_at a' i v, out).
Proof.
  intros Hs H. destruct c as [fuel index|m sk index|partial n];
    cbn [aggsig_exec] in *.
  - destruct (secp256k1_aggsig_generate_nonce fuel a index) as [[a1 ret]|] eqn:E;
      [|discriminate].
    injection H as <- <-.
    assert (Hu : progress_at a i <> NONCE_PROGRESS_UNKNOWN) by congruence.
    now rewrite (generate_nonce_nonce_irrelevant _ _ _ _ i _ v Hu E).
  - injection H as H. destruct (N.eq_dec index i) as [->|Hne].
    + rewrite partial_sign_rejects_not_ours in H by congruence.
      injection H as <- <-.
      rewrite partial_sign_rejects_not_ours; [reflexivity|].
      change (progress_at (with_secnonce_at a i v) i) with (progress_at a i).
      congruence.
    + rewrite partial_sign_nonce_irrelevant by assumption. now rewrite H.
  - injection H as H. rewrite combine_nonce_irrelevant. now rewrite H.
Qed.

Lemma exec_all_nonce_irrelevant (cs : list aggsig_call)
    (a a' : secp256k1_aggsig_context) (outs : list (option (list byte)))
    (i : N) (v : Scalar.t) :
  progress_at a i = NONCE_PROGRESS_SIGNED ->
  aggsig_exec_all a cs = Some (a', outs) ->
  aggsig_exec_all (with_secnonce_at a i v) cs
  = Some (with_secnonce_at a' i v, outs).
Proof.
  revert a outs. induction cs as [|c cs IH]; intros a outs Hs H.
  - now injection H as <- <-.
  - cbn [aggsig_exec_all] in *.
    destruct (aggsig_exec a c) as [[a1 out]|] eqn:E1; [|discriminate].
    destruct (aggsig_exec_all a1 cs) as [[a2 outs']|] eqn:E2; [|discriminate].
    injection H as <- <-.
    rewrite (exec_nonce_irrelevant _ _ _ _ i v Hs E1).
    destruct (exec_keeps_signed _ _ _ _ i Hs E1) as (Hs1 & _ & _).
    now rewrite (IH _ _ Hs1 E2).
Qed.

(** A partial signature is made with the secret nonce of its own slot:
    s = sk.e + k, for k that nonce, negated when the nonce sum has no
    quadratic-residue Y. *)
Lemma partial_sign_own_nonce (a a' : secp256k1_aggsig_context)
    (msghash32 seckey32 partial : list byte) (index : N) :
  aggctx_wf a ->
  secp256k1_aggsig_partial_sign a msghash32 seckey32 index
  = (a', Some partial) ->
  partial
  = Scalar.get_b32
      (Scalar.add
         (Scalar.mul (be32 seckey32) (partial_sign_challenge a msghash32 index))
         (signing_nonce (pubnonce_sum a) (secnonce_at a index))).
Proof.
  intros (_ & _ & Hls). unfold secp256k1_aggsig_partial_sign.
  destruct (N.ltb_spec index (n_sigs a)); cbn [negb]; [|discriminate].
  destruct (some_nonce_unknown _ _); [discriminate|].
  destruct (nonce_progress_eqb _ _); cbn [negb]; [|discriminate].
  unfold partial_sign_challenge, signing_nonce.
  destruct (has_quad_y (pubnonce_sum a)); cbn [negb];
    cbn [pubkeys n_sigs with_secnonce];
    destruct (secp256k1_compute_sighash _ index) as [e ok]; cbn [fst];
    (destruct ok; cbn [negb]; [|discriminate]);
    unfold Scalar.set_b32;
    (destruct (Z.leb_spec secp256k1_n (be32 seckey32)); [discriminate|]);
    pose proof (be32_range seckey32); rewrite Z.mod_small by lia;
    intros [= _ <-]; try reflexivity.
  unfold secnonce_at at 1. cbn [secnonce with_secnonce].
  rewrite default_insert_eq by (unfold Scalar.t in *; lia). reflexivity.
Qed.

End Session.

(** ** The aggregate protocol *)

Section Protocol.

Context {B : Backend} {L : BackendLaws B}.

Local Infix "+'" := gej_add_var (at level 50, left associativity).

Lemma point_sum_app (l1 l2 : list point) :
  point_sum (l1 ++ l2) = point_sum l1 +' point_sum l2.
Proof.
  induction l1 as [|P l1 IH]; simpl.
  - now rewrite add_inf_l.
  - now rewrite IH, add_assoc.
Qed.

Lemma point_sum_snoc (l : list point) (P : point) :
  point_sum (l ++ [P]) = point_sum l +' P.
Proof. rewrite point_sum_app. simpl. now rewrite add_inf_r. Qed.

Lemma point_sum_neg (l : list point) :
  gej_neg (point_sum l) = point_sum (map gej_neg l).
Proof.
  induction l as [|P l IH]; simpl.
  - apply neg_inf.
  - now rewrite neg_add, IH.
Qed.

Lemma point_sum_add_map {A} (F G : A -> point) (l : list A) :
  point_sum (map (fun i => F i +' G i) l)
  = point_sum (map F l) +' point_sum (map G l).
Proof.
  induction l as [|x l IH]; simpl.
  - now rewrite add_inf_l.
  - rewrite IH. rewrite <- !add_assoc. f_equal.
    rewrite !add_assoc. f_equal. apply add_comm.
Qed.

Lemma context_create_inv (pks : list secp256k1_pubkey) (seed : list byte) :
  nonce_round_inv pks
    (secp256k1_aggsig_context_create pks (N.of_nat (length pks)) seed) 0.
Proof.
  unfold nonce_round_inv, secp256k1_aggsig_context_create.
  cbn [n_sigs pubkeys progress secnonce pubnonce_sum].
  rewrite Nat2N.id. repeat split.
  - apply take_ge. lia.
  - apply length_replicate.
  - apply length_replicate.
  - intros i Hi. now apply lookup_replicate_2.
Qed.

Lemma generate_nonce_step (fuel : nat) (pks : list secp256k1_pubkey)
    (a a' : secp256k1_aggsig_context) (j : nat) (ret : bool) :
  nonce_round_inv pks a j -> (j < length pks)%nat ->
  secp256k1_aggsig_generate_nonce fuel a (N.of_nat j) = Some (a', ret) ->
  ret = true /\ nonce_round_inv pks a' (S j).
Proof.
  intros (Hn & Hpk & Hlp & Hls & Hprog & Hsum) Hj.
  unfold secp256k1_aggsig_generate_nonce.
  rewrite Hn. destruct (N.ltb_spec (N.of_nat j) (N.of_nat (length pks))); [|lia].
  cbn [negb]. unfold progress_at. rewrite Nat2N.id, (Hprog j Hj), Nat.ltb_irrefl.
  cbn [default nonce_progress_eqb negb].
  destruct (secp256k1_aggsig_generate_nonce_single fuel (rng a))
    as [[[[r k] K] rng']|] eqn:E; [|discriminate].
  apply generate_nonce_single_spec in E as (-> & -> & Hk & _).
  cbn [negb]. intros [= <- <-]. split; [reflexivity|].
  unfold nonce_round_inv.
  cbn [n_sigs pubkeys progress secnonce pubnonce_sum
       with_progress with_secnonce with_rng with_pubnonce_sum].
  rewrite !length_insert. repeat split; try assumption.
  - intros i Hi. destruct (Nat.eq_dec j i) as [<-|Hne].
    + rewrite list_lookup_insert_eq by lia.
      now destruct (Nat.ltb_spec j (S j)); [|lia].
    + rewrite list_lookup_insert_ne by assumption. rewrite (Hprog i Hi).
      destruct (Nat.ltb_spec i j), (Nat.ltb_spec i (S j)); (reflexivity || lia).
  - rewrite (take_S_r _ _ k) by (apply list_lookup_insert_eq; lia).
    rewrite take_insert_ge by lia.
    rewrite map_app. cbn [map]. rewrite point_sum_snoc. now rewrite Hsum.
Qed.

Lemma generate_nonces_inv (fuel : nat) (pks : list secp256k1_pubkey)
    (m j : nat) (a a' : secp256k1_aggsig_context) (ret : bool) :
  (j + m = length pks)%nat -> nonce_round_inv pks a j ->
  generate_nonces fuel a (map N.of_nat (seq j m)) = Some (a', ret) ->
  ret = true /\ nonce_round_inv pks a' (length pks).
Proof.
  revert j a. induction m as [|m IH]; intros j a Hjm Hinv; simpl.
  - intros [= <- <-]. split; [reflexivity|]. now replace (length pks) with j by lia.
  - destruct (secp256k1_aggsig_generate_nonce fuel a (N.of_nat j))
      as [[a1 r]|] eqn:E; [|discriminate].
    apply (generate_nonce_step _ pks) in E as [-> Hinv1]; [|assumption|lia].
    apply IH; [lia | assumption].
Qed.

Lemma sighash_overflows_false (prehash : list byte) (n : nat) :
  sighash_overflows prehash n = false ->
  forall i, (i < n)%nat ->
    snd (secp256k1_compute_sighash prehash (N.of_nat i)) = true.
Proof.
  unfold sighash_overflows. intros H i Hi.
  destruct (snd (secp256k1_compute_sighash prehash (N.of_nat i))) eqn:E;
    [reflexivity|].
  assert (Ht : existsb
    (fun i => negb (snd (secp256k1_compute_sighash prehash (N.of_nat i))))
    (seq 0 n) = true).
  { apply existsb_exists. exists i. split; [apply in_seq; lia | now rewrite E]. }
  congruence.
Qed.

Section Signing.

(** The session [a1] after the nonce round, the keys and the message. *)
Variables (pks : list secp256k1_pubkey) (sks : list (list byte))
          (msg32 : list byte) (a1 : secp256k1_aggsig_context).

Lemma signing_round_start :
  nonce_round_inv pks a1 (length pks) -> signing_round_inv pks a1 a1 0.
Proof.
  intros (Hn & Hpk & Hlp & Hls & Hprog & _). unfold signing_round_inv.
  repeat split; try assumption.
  intros i Hi. rewrite (Hprog i Hi).
  now destruct (Nat.ltb_spec i (length pks)); [|lia].
Qed.

Lemma tmp_ge_x (R : point) :
  Fe.normalize
    (ge_x (if negb (has_quad_y R) then secp256k1_ge_neg (secp256k1_ge_set_gej R)
           else secp256k1_ge_set_gej R))
  = ge_x R.
Proof.
  rewrite fe_normalize_ge_x. unfold secp256k1_ge_neg, secp256k1_ge_set_gej.
  destruct (has_quad_y R); simpl; [reflexivity | apply ge_x_neg].
Qed.

Lemma partial_sign_step (a : secp256k1_aggsig_context) (j : nat)
    (seckey32 : list byte) :
  signing_round_inv pks a1 a j -> (j < length pks)%nat ->
  sks !! j = Some seckey32 -> be32 seckey32 < secp256k1_n ->
  snd (secp256k1_compute_sighash (round_prehash pks msg32 a1) (N.of_nat j)) = true ->
  exists a',
    secp256k1_aggsig_partial_sign a msg32 seckey32 (N.of_nat j)
    = (a', Some (Scalar.get_b32 (round_partial pks sks msg32 a1 j)))
    /\ signing_round_inv pks a1 a' (S j).
Proof.
  intros (Hn & Hpk & Hsum & Hlp & Hls & Hprog & Hsec) Hj Hsk Hvalid Hok.
  unfold secp256k1_aggsig_partial_sign.
  rewrite Hn. destruct (N.ltb_spec (N.of_nat j) (N.of_nat (length pks))); [|lia].
  cbn [negb]. rewrite Nat2N.id.
  rewrite some_nonce_unknown_false.
  2:{ intros i st Hi Hst. rewrite (Hprog i Hi) in Hst.
      destruct (i <? j)%nat; injection Hst as <-; discriminate. }
  unfold progress_at. rewrite Nat2N.id, (Hprog j Hj), Nat.ltb_irrefl.
  cbn [default nonce_progress_eqb negb].
  assert (Hpre : forall tmp_ge (a0 : secp256k1_aggsig_context),
    tmp_ge = (if negb (has_quad_y (pubnonce_sum a))
              then secp256k1_ge_neg (secp256k1_ge_set_gej (pubnonce_sum a))
              else secp256k1_ge_set_gej (pubnonce_sum a)) ->
    pubkeys a0 = pks -> n_sigs a0 = N.of_nat (length pks) ->
    secp256k1_compute_sighash
      (secp256k1_compute_prehash (pubkeys a0) (n_sigs a0)
         (Fe.normalize (ge_x tmp_ge)) msg32) (N.of_nat j)
    = (round_challenge pks msg32 a1 j, true)).
  { intros tmp_ge a0 -> -> ->. rewrite tmp_ge_x, Hsum.
    fold (round_prehash pks msg32 a1). unfold round_challenge.
    destruct (secp256k1_compute_sighash (round_prehash pks msg32 a1) (N.of_nat j)).
    simpl in *. now subst. }
  assert (Hkey : Scalar.set_b32 seckey32 = (round_seckey sks j, false)).
  { unfold round_seckey. rewrite Hsk. cbn [default]. unfold Scalar.set_b32.
    cbn [fst]. f_equal. apply Z.leb_gt. assumption. }
  assert (Hk : default 0 (secnonce a !! j) = default 0 (secnonce a1 !! j)).
  { now rewrite Hsec by lia. }
  assert (Hinv : forall sn, length sn = length pks ->
    (forall i, (S j <= i)%nat -> sn !! i = secnonce a1 !! i) ->
    signing_round_inv pks a1
      (with_progress (with_secnonce a sn)
         (<[j := NONCE_PROGRESS_SIGNED]> (progress a))) (S j)).
  { intros sn Hlen Hsn. unfold signing_round_inv.
    cbn [n_sigs pubkeys progress secnonce pubnonce_sum with_progress with_secnonce].
    rewrite length_insert. repeat split; try assumption.
    intros i Hi. destruct (Nat.eq_dec j i) as [<-|Hne].
    - rewrite list_lookup_insert_eq by lia.
      now destruct (Nat.ltb_spec j (S j)); [|lia].
    - rewrite list_lookup_insert_ne by assumption. rewrite (Hprog i Hi).
      destruct (Nat.ltb_spec i j), (Nat.ltb_spec i (S j)); (reflexivity || lia). }
  destruct (has_quad_y (pubnonce_sum a)) eqn:Q; cbn [negb].
  - rewrite (Hpre (secp256k1_ge_set_gej (pubnonce_sum a)) a)
      by (rewrite ?Q; auto).
    cbn [negb]. rewrite Hkey.
    eexists. split.
    + f_equal. f_equal. f_equal. unfold round_partial, round_nonce, signing_nonce.
      rewrite <- Hsum, Q. cbn [negb]. unfold secnonce_at. rewrite Nat2N.id.
      now rewrite Hk.
    + specialize (Hinv (secnonce a) Hls).
      destruct a; apply Hinv. intros i Hi. apply Hsec. lia.
  - rewrite (Hpre (secp256k1_ge_neg (secp256k1_ge_set_gej (pubnonce_sum a))) _)
      by (rewrite ?Q; auto).
    cbn [negb]. rewrite Hkey.
    eexists. split.
    + f_equal. f_equal. f_equal. unfold round_partial, round_nonce, signing_nonce.
      rewrite <- Hsum, Q. cbn [negb]. unfold secnonce_at.
      cbn [secnonce with_secnonce]. rewrite Nat2N.id.
      rewrite default_insert_eq by (unfold Scalar.t in *; lia). now rewrite Hk.
    + apply Hinv.
      * now rewrite length_insert.
      * intros i Hi. rewrite list_lookup_insert_ne by lia. apply Hsec. lia.
Qed.

Lemma partial_signs_all (rest : list (list byte)) :
  forall (j : nat) (a : secp256k1_aggsig_context),
  drop j sks = rest -> signing_round_inv pks a1 a j ->
  length sks = length pks ->
  (forall i sk, sks !! i = Some sk -> be32 sk < secp256k1_n) ->
  (forall i, (i < length pks)%nat ->
     snd (secp256k1_compute_sighash (round_prehash pks msg32 a1) (N.of_nat i)) = true) ->
  exists a',
    partial_signs a msg32 rest (N.of_nat j)
    = (a', Some (map (fun i => Scalar.get_b32 (round_partial pks sks msg32 a1 i))
                   (seq j (length rest))))
    /\ pubnonce_sum a' = pubnonce_sum a1
    /\ n_sigs a' = N.of_nat (length pks).
Proof.
  induction rest as [|sk rest IH]; intros j a Hdrop Hinv Hlen Hvalid Hok.
  - exists a. simpl. destruct Hinv as (Hn & _ & Hsum & _). auto.
  - assert (Hsk : sks !! j = Some sk).
    { rewrite <- (Nat.add_0_r j), <- lookup_drop, Hdrop. reflexivity. }
    assert (Hj : (j < length pks)%nat).
    { rewrite <- Hlen. eapply lookup_lt_Some. eassumption. }
    destruct (partial_sign_step a j sk Hinv Hj Hsk (Hvalid _ _ Hsk) (Hok _ Hj))
      as (a' & Hps & Hinv').
    assert (Hdrop' : drop (S j) sks = rest).
    { rewrite (drop_S _ _ _ Hsk) in Hdrop. congruence. }
    destruct (IH (S j) a' Hdrop' Hinv' Hlen Hvalid Hok) as (a'' & Hrest & Hs & Hn).
    exists a''. cbn [partial_signs]. rewrite Hps.
    replace (N.of_nat j + 1)%N with (N.of_nat (S j)) by lia.
    rewrite Hrest. auto.
Qed.

Lemma partial_sign_step_overflow (a : secp256k1_aggsig_context) (j : nat)
    (seckey32 : list byte) :
  signing_round_inv pks a1 a j -> (j < length pks)%nat ->
  snd (secp256k1_compute_sighash (round_prehash pks msg32 a1) (N.of_nat j))
  = false ->
  snd (secp256k1_aggsig_partial_sign a msg32 seckey32 (N.of_nat j)) = None.
Proof.
  intros (Hn & Hpk & Hsum & Hlp & Hls & Hprog & Hsec) Hj Hov.
  unfold secp256k1_aggsig_partial_sign.
  rewrite Hn. destruct (N.ltb_spec (N.of_nat j) (N.of_nat (length pks))); [|lia].
  cbn [negb]. destruct (some_nonce_unknown _ _); [reflexivity|].
  destruct (nonce_progress_eqb _ _); cbn [negb]; [|reflexivity].
  assert (Hpre : forall tmp_ge (a0 : secp256k1_aggsig_context),
    tmp_ge = (if negb (has_quad_y (pubnonce_sum a))
              then secp256k1_ge_neg (secp256k1_ge_set_gej (pubnonce_sum a))
              else secp256k1_ge_set_gej (pubnonce_sum a)) ->
    pubkeys a0 = pks -> n_sigs a0 = N.of_nat (length pks) ->
    secp256k1_compute_prehash (pubkeys a0) (n_sigs a0)
      (Fe.normalize (ge_x tmp_ge)) msg32
    = round_prehash pks msg32 a1).
  { intros tmp_ge a0 -> -> ->. now rewrite tmp_ge_x, Hsum. }
  destruct (has_quad_y (pubnonce_sum a)) eqn:Q; cbn [negb].
  - rewrite (Hpre (secp256k1_ge_set_gej (pubnonce_sum a)) a)
      by (rewrite ?Q; auto).
    destruct (secp256k1_compute_sighash _ _) as [e ok]. cbn [snd] in Hov.
    now subst ok.
  - rewrite (Hpre (secp256k1_ge_neg (secp256k1_ge_set_gej (pubnonce_sum a))) _)
      by (rewrite ?Q; auto).
    destruct (secp256k1_compute_sighash _ _) as [e ok]. cbn [snd] in Hov.
    now subst ok.
Qed.

Lemma partial_signs_overflow (rest : list (list byte)) :
  forall (j : nat) (a : secp256k1_aggsig_context),
  drop j sks = rest -> signing_round_inv pks a1 a j ->
  length sks = length pks ->
  (forall i sk, sks !! i = Some sk -> be32 sk < secp256k1_n) ->
  (exists i, (j <= i < length pks)%nat
             /\ snd (secp256k1_compute_sighash (round_prehash pks msg32 a1)
                       (N.of_nat i)) = false) ->
  snd (partial_signs a msg32 rest (N.of_nat j)) = None.
Proof.
  induction rest as [|sk rest IH]; intros j a Hdrop Hinv Hlen Hvalid (i & Hi & Hov).
  - exfalso. apply (f_equal length) in Hdrop. rewrite length_drop in Hdrop.
    simpl in Hdrop. lia.
  - assert (Hsk : sks !! j = Some sk).
    { rewrite <- (Nat.add_0_r j), <- lookup_drop, Hdrop. reflexivity. }
    assert (Hj : (j < length pks)%nat).
    { rewrite <- Hlen. eapply lookup_lt_Some. eassumption. }
    cbn [partial_signs].
    destruct (snd (secp256k1_compute_sighash (round_prehash pks msg32 a1)
                     (N.of_nat j))) eqn:Hokj.
    + destruct (partial_sign_step a j sk Hinv Hj Hsk (Hvalid _ _ Hsk) Hokj)
        as (a' & Hps & Hinv').
      rewrite Hps. replace (N.of_nat j + 1)%N with (N.of_nat (S j)) by lia.
      assert (Hdrop' : drop (S j) sks = rest).
      { rewrite (drop_S _ _ _ Hsk) in Hdrop. congruence. }
      assert (Hne : i <> j) by (intros ->; congruence).
      assert (Hi' : (S j <= i < length pks)%nat) by lia.
      specialize (IH (S j) a' Hdrop' Hinv' Hlen Hvalid
                    (ex_intro _ i (conj Hi' Hov))).
      now destruct (partial_signs a' msg32 rest (N.of_nat (S j))) as [a'' [ps|]].
    + pose proof (partial_sign_step_overflow a j sk Hinv Hj Hokj) as Hfail.
      now destruct (secp256k1_aggsig_partial_sign a msg32 sk (N.of_nat j))
        as [a' [p|]].
Qed.

End Signing.

(** *** Combining and verifying *)

Lemma combine_loop_partials (l : list Scalar.t) (acc : Scalar.t) :
  Forall (fun x => 0 <= x < secp256k1_n) l ->
  combine_loop acc (map Scalar.get_b32 l) = Some (fold_left Scalar.add l acc).
Proof.
  intros H. revert acc.
  induction H as [|x l Hx _ IH]; intros acc; cbn [map combine_loop fold_left].
  - reflexivity.
  - rewrite scalar_set_get by assumption. apply IH.
Qed.

Lemma ecmult_gen_fold_add (l : list Scalar.t) (acc : Scalar.t) :
  secp256k1_ecmult_gen (fold_left Scalar.add l acc)
  = secp256k1_ecmult_gen acc +' point_sum (map secp256k1_ecmult_gen l).
Proof.
  revert acc.
  induction l as [|x l IH]; intros acc; cbn [map fold_left point_sum foldr].
  - now rewrite add_inf_r.
  - fold (point_sum (map secp256k1_ecmult_gen l)).
    now rewrite IH, ecmult_gen_add, add_assoc.
Qed.

Lemma fold_add_range (l : list Scalar.t) (acc : Scalar.t) :
  0 <= acc < secp256k1_n -> 0 <= fold_left Scalar.add l acc < secp256k1_n.
Proof.
  revert acc.
  induction l as [|x l IH]; intros acc Hacc; cbn [fold_left]; [assumption|].
  apply IH. apply scalar_mod_range.
Qed.

Lemma map_by_index {A C} (d : A) (F : A -> C) (l : list A) :
  map F l = map (fun i => F (default d (l !! i))) (seq 0 (length l)).
Proof.
  induction l as [|x l IH]; [reflexivity|].
  cbn [length seq map]. f_equal. rewrite <- seq_shift, map_map. apply IH.
Qed.

(** The final nonce point is the sum of the cosigners' nonce points
    after their sign flips. *)
Lemma final_nonce_sum (ks : list Scalar.t) (R : point) :
  R = point_sum (map secp256k1_ecmult_gen ks) ->
  final_nonce R
  = point_sum (map (fun k => secp256k1_ecmult_gen (signing_nonce R k)) ks).
Proof.
  intros HR. unfold final_nonce, signing_nonce.
  destruct (has_quad_y R); cbn [negb]; [assumption|].
  rewrite HR at 1. rewrite point_sum_neg, map_map.
  f_equal. apply map_ext. intros k. now rewrite ecmult_gen_negate.
Qed.

Lemma final_nonce_x (R : point) : ge_x (final_nonce R) = ge_x R.
Proof.
  unfold final_nonce. destruct (has_quad_y R); simpl; [reflexivity|apply ge_x_neg].
Qed.


(** sk.e.G + k.G - e.(sk.G) = k.G *)
Lemma share_cancels (sk e k : Scalar.t) :
  secp256k1_ecmult_gen (Scalar.add (Scalar.mul sk e) k)
    +' ecmult (Scalar.negate e) (secp256k1_ecmult_gen sk)
  = secp256k1_ecmult_gen k.
Proof.
  rewrite ecmult_gen_add, ecmult_gen_mul.
  assert (H : secp256k1_ecmult_gen (Scalar.mul (Scalar.negate e) sk)
              = gej_neg (secp256k1_ecmult_gen (Scalar.mul sk e))).
  { rewrite <- ecmult_gen_negate. unfold secp256k1_ecmult_gen.
    apply ecmult_gen_congr. unfold Scalar.mul, Scalar.negate.
    rewrite !Z.mod_mod by (pose proof n_lt_2_256; lia).
    rewrite Zmult_mod_idemp_l.
    rewrite <- (Z.sub_0_l (_ mod _)), Zminus_mod_idemp_r.
    f_equal. lia. }
  rewrite H, <- add_assoc, (add_comm (secp256k1_ecmult_gen k)), add_assoc.
  now rewrite add_neg_r, add_inf_l.
Qed.

(** [secp256k1_aggsig_verify] past its three input checks. *)
Lemma aggsig_verify_unfold (sig64 msg32 : list byte)
    (pks : list secp256k1_pubkey) (n_pubkeys : N) :
  n_pubkeys <> 0%N -> be32 sig64 < secp256k1_n ->
  be32 (drop 32 sig64) < secp256k1_p ->
  secp256k1_aggsig_verify sig64 msg32 pks n_pubkeys
  = match secp256k1_ecmult_multi_var (be32 sig64)
            (secp256k1_aggsig_verify_callback
               {| cb_prehash :=
                    secp256k1_compute_prehash pks n_pubkeys
                      (be32 (drop 32 sig64)) msg32;
                  cb_single_hash := 0;
                  cb_pubkeys := pks |}) n_pubkeys with
    | None => false
    | Some Q => Fe.equal_var (be32 (drop 32 sig64)) (ge_x Q) && has_quad_y Q
    end.
Proof.
  intros Hn Hs Hx. unfold secp256k1_aggsig_verify.
  destruct (N.eqb_spec n_pubkeys 0); [contradiction|].
  unfold Scalar.set_b32, Fe.set_b32, secp256k1_ge_set_gej.
  destruct (Z.leb_spec secp256k1_n (be32 sig64)); [lia|].
  destruct (Z.ltb_spec (be32 (drop 32 sig64)) secp256k1_p); [|lia].
  pose proof (be32_range sig64). now rewrite Z.mod_small by lia.
Qed.

Lemma verify_callback_ok (prehash : list byte) (pks : list secp256k1_pubkey)
    (i : nat) :
  snd (secp256k1_compute_sighash prehash (N.of_nat i)) = true ->
  secp256k1_aggsig_verify_callback (mk_cbdata prehash 0 pks) (N.of_nat i)
  = Some (Scalar.negate (fst (secp256k1_compute_sighash prehash (N.of_nat i))),
          secp256k1_pubkey_load (pubkey_at pks (N.of_nat i))).
Proof.
  unfold secp256k1_aggsig_verify_callback. cbn [cb_prehash cb_pubkeys].
  destruct (secp256k1_compute_sighash prehash (N.of_nat i)) as [sc ok].
  cbn [fst snd]. now intros ->.
Qed.

Lemma verify_callback_overflow (prehash : list byte)
    (pks : list secp256k1_pubkey) (i : nat) :
  snd (secp256k1_compute_sighash prehash (N.of_nat i)) = false ->
  secp256k1_aggsig_verify_callback (mk_cbdata prehash 0 pks) (N.of_nat i) = None.
Proof.
  unfold secp256k1_aggsig_verify_callback. cbn [cb_prehash cb_pubkeys].
  destruct (secp256k1_compute_sighash prehash (N.of_nat i)) as [sc ok].
  cbn [fst snd]. now intros ->.
Qed.

Lemma verify_multi_sum_ok (prehash : list byte) (pks : list secp256k1_pubkey)
    (m : nat) :
  sighash_overflows prehash m = false ->
  ecmult_multi_sum (secp256k1_aggsig_verify_callback (mk_cbdata prehash 0 pks)) m
  = Some (point_sum (map (verify_term prehash pks) (seq 0 m))).
Proof.
  intros H. pose proof (sighash_overflows_false _ _ H) as Hok. clear H.
  induction m as [|m IH]; [reflexivity|].
  cbn [ecmult_multi_sum]. rewrite IH by (intros; apply Hok; lia).
  rewrite verify_callback_ok by (apply Hok; lia).
  rewrite seq_S, map_app. cbn [map]. now rewrite point_sum_snoc.
Qed.

Lemma verify_multi_sum_overflow (prehash : list byte)
    (pks : list secp256k1_pubkey) (m : nat) :
  sighash_overflows prehash m = true ->
  ecmult_multi_sum (secp256k1_aggsig_verify_callback (mk_cbdata prehash 0 pks)) m
  = None.
Proof.
  unfold sighash_overflows. intros H.
  apply existsb_exists in H as (i & Hi & Hov). apply in_seq in Hi.
  apply negb_true_iff in Hov.
  induction m as [|m IH]; [lia|].
  cbn [ecmult_multi_sum].
  destruct (Nat.eq_dec i m) as [->|Hne].
  - rewrite verify_callback_overflow by assumption.
    now destruct (ecmult_multi_sum _ m).
  - now rewrite IH by lia.
Qed.

Lemma pubkey_at_of_seckeys (sks : list (list byte)) (i : nat) :
  (i < length sks)%nat ->
  pubkey_at (map pubkey_of_seckey sks) (N.of_nat i)
  = secp256k1_ecmult_gen (round_seckey sks i).
Proof.
  intros Hi. unfold pubkey_at, round_seckey. rewrite Nat2N.id.
  change (map pubkey_of_seckey sks) with (pubkey_of_seckey <$> sks).
  rewrite list_lookup_fmap.
  destruct (sks !! i) as [sk|] eqn:E; [reflexivity|].
  apply lookup_ge_None in E. lia.
Qed.

(** The whole run, from the session [a1] left by the nonce round, when
    no sighash overflows: there is a signature, and the verifier
    accepts it exactly when the final nonce point has a
    quadratic-residue Y. *)
Lemma protocol_outcome (fuel : nat) (seed msg32 : list byte)
    (sks : list (list byte)) (a1 : secp256k1_aggsig_context) :
  let pks := map pubkey_of_seckey sks in
  (1 <= length sks)%nat ->
  Forall seckey_valid sks ->
  aggsig_nonce_round fuel seed pks = Some (a1, true) ->
  sighash_overflows
    (secp256k1_compute_prehash pks (N.of_nat (length pks))
       (ge_x (pubnonce_sum a1)) msg32) (length sks) = false ->
  exists sig64,
    aggsig_protocol fuel seed msg32 sks pks = Some (Some sig64)
    /\ length sig64 = 64%nat
    /\ secp256k1_aggsig_verify sig64 msg32 pks (N.of_nat (length pks))
       = has_quad_y (final_nonce (pubnonce_sum a1)).
Proof.
  intros pks Hlen Hvalid Hround Hov.
  assert (Hlp : length pks = length sks) by apply length_map.
  (* nonce round *)
  assert (Hinv1 : nonce_round_inv pks a1 (length pks)).
  { unfold aggsig_nonce_round, indices in Hround.
    eapply (generate_nonces_inv fuel pks (length pks) 0); [lia | | eassumption].
    apply context_create_inv. }
  (* signing round *)
  destruct (partial_signs_all pks sks msg32 a1 sks 0 a1) as (a2 & Hps & Hsum2 & Hn2).
  { reflexivity. }
  { now apply signing_round_start. }
  { now symmetry. }
  { intros i sk Hsk. rewrite Forall_forall in Hvalid.
    apply list_elem_of_lookup_2, Hvalid in Hsk. apply Hsk. }
  { apply sighash_overflows_false. now rewrite Hlp. }
  set (R := pubnonce_sum a1) in *.
  set (partials := map (round_partial pks sks msg32 a1) (seq 0 (length sks))).
  set (s := fold_left Scalar.add partials (Scalar.set_int 0)).
  assert (Hs : 0 <= s < secp256k1_n).
  { apply fold_add_range. pose proof n_lt_2_256. unfold Scalar.set_int. lia. }
  (* combine *)
  exists (Scalar.get_b32 s ++ Fe.get_b32 (ge_x (final_nonce R))).
  split; [|split].
  - unfold aggsig_protocol. fold pks. rewrite Hround.
    change (0%N) with (N.of_nat 0). rewrite Hps.
    unfold secp256k1_aggsig_combine_signatures.
    rewrite Hn2, N.eqb_refl. cbn [negb].
    rewrite Nat2N.id, Hlp, take_ge by (rewrite length_map, length_seq; lia).
    rewrite <- (map_map (round_partial pks sks msg32 a1) Scalar.get_b32).
    fold partials. rewrite combine_loop_partials.
    2:{ apply Forall_forall. intros x Hx.
        apply list_elem_of_In, in_map_iff in Hx as (i & <- & _).
        apply scalar_mod_range. }
    fold s. cbn [snd]. rewrite fe_normalize_ge_x. do 4 f_equal.
    unfold final_nonce, secp256k1_ge_set_gej. rewrite Hsum2.
    destruct (has_quad_y R); cbn [negb pubnonce_sum with_pubnonce_sum];
      now rewrite ?Hsum2.
  - rewrite length_app. unfold Scalar.get_b32, Fe.get_b32.
    now rewrite !length_be_bytes.
  - pose proof (ge_x_range (final_nonce R)) as Hx.
    pose proof n_lt_2_256. pose proof p_lt_2_256.
    rewrite aggsig_verify_unfold.
    2:{ lia. }
    2:{ unfold Scalar.get_b32. rewrite be32_be_bytes_app; lia. }
    2:{ unfold Scalar.get_b32, Fe.get_b32.
        rewrite drop_be_bytes_app, be32_be_bytes; lia. }
    unfold Scalar.get_b32, Fe.get_b32.
    rewrite drop_be_bytes_app, be32_be_bytes, be32_be_bytes_app by lia.
    rewrite final_nonce_x.
    unfold secp256k1_ecmult_multi_var. rewrite Nat2N.id.
    rewrite Hlp in Hov |- *. rewrite verify_multi_sum_ok by assumption.
    assert (HQ : secp256k1_ecmult_gen s
                 +' point_sum (map (verify_term
                      (secp256k1_compute_prehash pks (N.of_nat (length sks))
                         (ge_x R) msg32) pks) (seq 0 (length sks)))
                 = final_nonce R).
    { unfold s. rewrite ecmult_gen_fold_add. unfold Scalar.set_int.
      change (secp256k1_ecmult_gen 0) with gej_infinity. rewrite add_inf_l.
      unfold partials. rewrite map_map, <- point_sum_add_map.
      destruct Hinv1 as (_ & _ & _ & Hls & _ & HR).
      rewrite take_ge in HR by lia. fold R in HR.
      rewrite (final_nonce_sum _ _ HR), (map_by_index 0 _ (secnonce a1)).
      unfold Scalar.t in *. rewrite Hls, Hlp.
      f_equal. apply map_ext_in. intros i Hi. apply in_seq in Hi.
      unfold round_partial, verify_term, round_challenge, round_prehash,
        round_nonce.
      rewrite Hlp. unfold pks. rewrite pubkey_at_of_seckeys by lia.
      unfold secp256k1_pubkey_load. apply share_cancels. }
    rewrite HQ. rewrite <- (final_nonce_x R) at 1.
    rewrite (proj2 (fe_equal_var_ge_x _ _) eq_refl). reflexivity.
Qed.


(** X13. When the nonces of the cosigners sum to the point at infinity
    the protocol still returns a signature, and
    [secp256k1_aggsig_verify] rejects it. *)
Lemma protocol_infinity_rejected (fuel : nat) (seed msg32 : list byte)
    (sks : list (list byte)) (a1 : secp256k1_aggsig_context) :
  let pks := map pubkey_of_seckey sks in
  (1 <= length sks)%nat ->
  Forall seckey_valid sks ->
  aggsig_nonce_round fuel seed pks = Some (a1, true) ->
  pubnonce_sum a1 = gej_infinity ->
  sighash_overflows
    (secp256k1_compute_prehash pks (N.of_nat (length pks))
       (ge_x (pubnonce_sum a1)) msg32) (length sks) = false ->
  exists sig64,
    aggsig_protocol fuel seed msg32 sks pks = Some (Some sig64)
    /\ secp256k1_aggsig_verify sig64 msg32 pks (N.of_nat (length pks)) = false.
Proof.
  intros pks Hlen Hvalid Hround Hinf Hov.
  destruct (protocol_outcome fuel seed msg32 sks a1 Hlen Hvalid Hround Hov)
    as (sig64 & Hrun & _ & Hver).
  exists sig64. split; [assumption|]. fold pks in Hver. rewrite Hver, Hinf.
  unfold final_nonce. rewrite has_quad_y_infinity. cbn [negb].
  now rewrite neg_inf, has_quad_y_infinity.
Qed.

(** X14. When the sighash of some index overflows n, a call of the
    signing round returns 0 and the protocol yields no signature. *)
Lemma protocol_overflow_fails (fuel : nat) (seed msg32 : list byte)
    (sks : list (list byte)) (a1 : secp256k1_aggsig_context) :
  let pks := map pubkey_of_seckey sks in
  Forall seckey_valid sks ->
  aggsig_nonce_round fuel seed pks = Some (a1, true) ->
  sighash_overflows
    (secp256k1_compute_prehash pks (N.of_nat (length pks))
       (ge_x (pubnonce_sum a1)) msg32) (length sks) = true ->
  aggsig_protocol fuel seed msg32 sks pks = Some None.
Proof.
  intros pks Hvalid Hround Hov.
  assert (Hlp : length pks = length sks) by apply length_map.
  assert (Hinv1 : nonce_round_inv pks a1 (length pks)).
  { unfold aggsig_nonce_round, indices in Hround.
    eapply (generate_nonces_inv fuel pks (length pks) 0); [lia | | eassumption].
    apply context_create_inv. }
  unfold sighash_overflows in Hov.
  apply existsb_exists in Hov as (i & Hi & Hovi). apply in_seq in Hi.
  apply negb_true_iff in Hovi.
  pose proof (partial_signs_overflow pks sks msg32 a1 sks 0 a1 eq_refl
                (signing_round_start pks a1 Hinv1) (eq_sym Hlp)) as Hfail.
  unfold aggsig_protocol. fold pks. rewrite Hround.
  change 0%N with (N.of_nat 0).
  destruct (partial_signs a1 msg32 sks (N.of_nat 0)) as [a2 [ps|]];
    [|reflexivity].
  exfalso. cbn [snd] in Hfail. enough (Some ps = None) by discriminate.
  apply Hfail.
  - intros j sk Hsk. rewrite Forall_forall in Hvalid.
    apply list_elem_of_lookup_2, Hvalid in Hsk. apply Hsk.
  - exists i. split; [lia|]. exact Hovi.
Qed.


End Protocol.

(** ** The aggregate verifier *)

Section Verify.

Context {B : Backend} {L : BackendLaws B}.

Local Infix "+'" := gej_add_var (at level 50, left associativity).

Lemma verify_terms_sum (prehash : list byte) (pks : list secp256k1_pubkey)
    (m : nat) :
  point_sum (map (verify_term prehash pks) (seq 0 m))
  = gej_neg
      (point_sum
         (map (fun i =>
                 ecmult (fst (secp256k1_compute_sighash prehash (N.of_nat i)))
                        (secp256k1_pubkey_load (pubkey_at pks (N.of_nat i))))
              (seq 0 m))).
Proof.
  rewrite point_sum_neg, map_map. f_equal. apply map_ext. intros i.
  unfold verify_term. apply ecmult_negate.
Qed.

Lemma aggsig_verify_no_keys (sig64 msg32 : list byte)
    (pks : list secp256k1_pubkey) :
  secp256k1_aggsig_verify sig64 msg32 pks 0 = false.
Proof. reflexivity. Qed.

Lemma aggsig_verify_scalar_overflow (sig64 msg32 : list byte)
    (pks : list secp256k1_pubkey) (n_pubkeys : N) :
  secp256k1_n <= be32 sig64 ->
  secp256k1_aggsig_verify sig64 msg32 pks n_pubkeys = false.
Proof.
  intros H. unfold secp256k1_aggsig_verify, Scalar.set_b32.
  destruct (n_pubkeys =? 0)%N; [reflexivity|].
  now destruct (Z.leb_spec secp256k1_n (be32 sig64)); [|lia].
Qed.

Lemma aggsig_verify_field_overflow (sig64 msg32 : list byte)
    (pks : list secp256k1_pubkey) (n_pubkeys : N) :
  secp256k1_p <= be32 (drop 32 sig64) ->
  secp256k1_aggsig_verify sig64 msg32 pks n_pubkeys = false.
Proof.
  intros H. unfold secp256k1_aggsig_verify, Scalar.set_b32, Fe.set_b32.
  destruct (n_pubkeys =? 0)%N; [reflexivity|].
  destruct (secp256k1_n <=? be32 sig64); [reflexivity|].
  now destruct (Z.ltb_spec (be32 (drop 32 sig64)) secp256k1_p); [lia|].
Qed.

Lemma aggsig_verify_sighash_overflow (sig64 msg32 : list byte)
    (pks : list secp256k1_pubkey) :
  sighash_overflows
    (secp256k1_compute_prehash pks (N.of_nat (length pks))
       (be32 (drop 32 sig64)) msg32) (length pks) = true ->
  secp256k1_aggsig_verify sig64 msg32 pks (N.of_nat (length pks)) = false.
Proof.
  intros H. unfold secp256k1_aggsig_verify, Scalar.set_b32, Fe.set_b32.
  destruct (N.of_nat (length pks) =? 0)%N; [reflexivity|].
  destruct (secp256k1_n <=? be32 sig64); [reflexivity|].
  destruct (be32 (drop 32 sig64) <? secp256k1_p); [|reflexivity].
  unfold secp256k1_ecmult_multi_var. rewrite Nat2N.id.
  now rewrite verify_multi_sum_overflow.
Qed.

Lemma aggsig_verify_accepts_iff (sig64 msg32 : list byte)
    (pks : list secp256k1_pubkey) :
  pks <> [] -> be32 sig64 < secp256k1_n ->
  be32 (drop 32 sig64) < secp256k1_p ->
  sighash_overflows
    (secp256k1_compute_prehash pks (N.of_nat (length pks))
       (be32 (drop 32 sig64)) msg32) (length pks) = false ->
  secp256k1_aggsig_verify sig64 msg32 pks (N.of_nat (length pks)) = true
  <-> ge_x (verify_point (be32 sig64) (be32 (drop 32 sig64)) msg32 pks)
      = be32 (drop 32 sig64)
      /\ has_quad_y
           (verify_point (be32 sig64) (be32 (drop 32 sig64)) msg32 pks) = true.
Proof.
  intros Hne Hs Hx Hov.
  rewrite aggsig_verify_unfold; [|destruct pks; simpl; [congruence|lia]|lia|lia].
  unfold secp256k1_ecmult_multi_var. rewrite Nat2N.id.
  rewrite verify_multi_sum_ok, verify_terms_sum by assumption.
  fold (verify_point (be32 sig64) (be32 (drop 32 sig64)) msg32 pks).
  rewrite andb_true_iff. unfold Fe.equal_var.
  pose proof (be32_range (drop 32 sig64)).
  rewrite (Z.mod_small (be32 _)) by lia.
  rewrite (Z.mod_small (ge_x _)) by apply ge_x_range.
  rewrite Z.eqb_eq.
  split; intros [H1 H2]; (split; [symmetry; exact H1 | exact H2]).
Qed.

End Verify.

(** C2. [secp256k1_aggsig_verify] returns invalid when N = 0, when
    the first 32 bytes of the signature are a value >= n, or when the
    last 32 bytes are >= p; it returns invalid as well when the
    derivation of some per-index sighash e_i overflows n, where no e_i
    is derived; otherwise it accepts (s, R_x) if and only if
    Q = s.G - sum_i e_i.P_i has Q.x = R_x and Q.y a quadratic
    residue. *)
Theorem aggsig_verify_characterised {B : Backend} {L : BackendLaws B}
    (sig64 msg32 : list byte) (pks : list secp256k1_pubkey) :
  let s := be32 sig64 in
  let r_x := be32 (drop 32 sig64) in
  let n_pubkeys := N.of_nat (length pks) in
  let overflow :=
    sighash_overflows (secp256k1_compute_prehash pks n_pubkeys r_x msg32)
      (length pks) in
  secp256k1_aggsig_verify sig64 msg32 pks 0 = false
  /\ (secp256k1_n <= s ->
      secp256k1_aggsig_verify sig64 msg32 pks n_pubkeys = false)
  /\ (secp256k1_p <= r_x ->
      secp256k1_aggsig_verify sig64 msg32 pks n_pubkeys = false)
  /\ (overflow = true ->
      secp256k1_aggsig_verify sig64 msg32 pks n_pubkeys = false)
  /\ (pks <> [] -> s < secp256k1_n -> r_x < secp256k1_p -> overflow = false ->
      (secp256k1_aggsig_verify sig64 msg32 pks n_pubkeys = true
       <-> ge_x (verify_point s r_x msg32 pks) = r_x
           /\ has_quad_y (verify_point s r_x msg32 pks) = true)).
Proof.
  cbv zeta. split; [apply aggsig_verify_no_keys|].
  split; [apply aggsig_verify_scalar_overflow|].
  split; [apply aggsig_verify_field_overflow|].
  split; [apply aggsig_verify_sighash_overflow|].
  apply aggsig_verify_accepts_iff.
Qed.

(** ** Single-party signing and verification *)

Section Single.

Context {B : Backend}.

Lemma sign_single_recheck_quad (k : Scalar.t) (R : point) :
  has_quad_y R = true -> sign_single_recheck k R = (k, R).
Proof. unfold sign_single_recheck. now intros ->. Qed.


Lemma sign_single_nonce_external (fuel : nat) (nonce seed : list byte) :
  exists k R, sign_single_nonce fuel (Some nonce) seed = Some (true, k, R).
Proof.
  unfold sign_single_nonce.
  destruct (Scalar.set_b32 nonce) as [k retry].
  destruct (has_quad_y (secp256k1_ecmult_gen k)); cbn [negb]; eauto.
Qed.

(** The single-signer sighash is not derived exactly when the stored
    X coordinate of the key is zero. *)
Lemma compute_sighash_single_abort_iff (pubkey : secp256k1_pubkey)
    (msghash32 : list byte) :
  secp256k1_compute_sighash_single pubkey msghash32 = None
  <-> ge_x (secp256k1_pubkey_load pubkey) = 0.
Proof.
  unfold secp256k1_compute_sighash_single, secp256k1_ec_pubkey_serialize_ok.
  destruct (Z.eqb_spec (ge_x (secp256k1_pubkey_load pubkey)) 0) as [E|E];
    cbn [negb].
  - tauto.
  - destruct (Scalar.set_b32 _). split; [discriminate|contradiction].
Qed.

(** The sighash derivation of the signer, on the explicit public nonce
    or on the nonce point. *)
Lemma sign_single_finish_sighash (msg32 seckey32 : list byte)
    (pubnonce : option secp256k1_pubkey) (k : Scalar.t) (R T : point) :
  sign_single_finish msg32 seckey32 pubnonce k R T
  = match secp256k1_compute_sighash_single
            (match pubnonce with
             | Some pn => pn
             | None => secp256k1_pubkey_save T
             end) msg32 with
    | None => None
    | Some (sighash, _) =>
        let '(sec, overflow) := Scalar.set_b32 seckey32 in
        if overflow then Some None
        else
          Some (Some (Scalar.get_b32 (Scalar.add (Scalar.mul sec sighash) k)
                      ++ Fe.get_b32 (Fe.normalize (ge_x R))))
    end.
Proof. unfold sign_single_finish. now destruct pubnonce. Qed.

(** When the key to hash does not serialize, the process is aborted. *)
Lemma sign_single_finish_abort (msg32 seckey32 : list byte)
    (pubnonce : option secp256k1_pubkey) (k : Scalar.t) (R T : point) :
  secp256k1_compute_sighash_single
    (match pubnonce with
     | Some pn => pn
     | None => secp256k1_pubkey_save T
     end) msg32 = None ->
  sign_single_finish msg32 seckey32 pubnonce k R T = None.
Proof. intros H. now rewrite sign_single_finish_sighash, H. Qed.


(** The signature does not depend on whether the sighash overflowed. *)
Lemma sign_single_finish_ok (msg32 seckey32 : list byte)
    (pubnonce : option secp256k1_pubkey) (k : Scalar.t) (R T : point)
    (e : Scalar.t) (ok : bool) :
  secp256k1_compute_sighash_single
    (match pubnonce with
     | Some pn => pn
     | None => secp256k1_pubkey_save T
     end) msg32 = Some (e, ok) ->
  be32 seckey32 < secp256k1_n ->
  sign_single_finish msg32 seckey32 pubnonce k R T
  = Some (Some (Scalar.get_b32
                  (Scalar.add (Scalar.mul (fst (Scalar.set_b32 seckey32)) e) k)
                ++ Fe.get_b32 (Fe.normalize (ge_x R)))).
Proof.
  intros He H. rewrite sign_single_finish_sighash, He.
  unfold Scalar.set_b32. cbn [fst].
  now destruct (Z.leb_spec secp256k1_n (be32 seckey32)); [lia|].
Qed.

(** A signature comes with a sighash and a secret key below n. *)
Lemma sign_single_finish_inv (msg32 seckey32 : list byte)
    (pubnonce : option secp256k1_pubkey) (k : Scalar.t) (R T : point)
    (sig64 : list byte) :
  sign_single_finish msg32 seckey32 pubnonce k R T = Some (Some sig64) ->
  exists e ok,
    secp256k1_compute_sighash_single
      (match pubnonce with
       | Some pn => pn
       | None => secp256k1_pubkey_save T
       end) msg32 = Some (e, ok)
    /\ be32 seckey32 < secp256k1_n
    /\ sig64 = Scalar.get_b32
                 (Scalar.add (Scalar.mul (fst (Scalar.set_b32 seckey32)) e) k)
               ++ Fe.get_b32 (Fe.normalize (ge_x R)).
Proof.
  rewrite sign_single_finish_sighash.
  destruct (secp256k1_compute_sighash_single _ msg32) as [[e ok]|];
    [|discriminate].
  unfold Scalar.set_b32. cbn [fst].
  destruct (Z.leb_spec secp256k1_n (be32 seckey32)); [discriminate|].
  intros Hs. do 2 apply (inj Some) in Hs. subst sig64. eauto.
Qed.

Context {L : BackendLaws B}.

Local Infix "+'" := gej_add_var (at level 50, left associativity).

(** After "generate nonce if needed": the nonce point is k.G and has a
    quadratic-residue Y, unless an external nonce was zero mod n, when
    it is the point at infinity. *)
Lemma sign_single_nonce_spec (fuel : nat) (secnonce32 : option (list byte))
    (seed : list byte) (ret : bool) (k : Scalar.t) (R : point) :
  sign_single_nonce fuel secnonce32 seed = Some (ret, k, R) ->
  ret = true /\ R = secp256k1_ecmult_gen k /\ 0 <= k < secp256k1_n
  /\ (has_quad_y R = true
      \/ (k = 0 /\ R = gej_infinity
          /\ exists nonce, secnonce32 = Some nonce
                           /\ be32 nonce mod secp256k1_n = 0)).
Proof.
  unfold sign_single_nonce. destruct secnonce32 as [nonce|].
  - pose proof (scalar_set_b32_range nonce) as Hr.
    unfold Scalar.set_b32 in *. cbn [fst] in Hr.
    set (k0 := be32 nonce mod secp256k1_n) in *.
    destruct (has_quad_y (secp256k1_ecmult_gen k0)) eqn:Q; cbn [negb];
      intros [= <- <- <-].
    + auto.
    + split; [reflexivity|]. split; [now rewrite ecmult_gen_negate|].
      split; [apply scalar_negate_range|].
      destruct (Z.eq_dec k0 0) as [E|E].
      * right. rewrite E. split; [reflexivity|].
        split; [apply neg_inf|]. exists nonce. auto.
      * left. apply has_quad_y_flip; [|assumption].
        apply ecmult_gen_nonzero. unfold k0 in *.
        rewrite Z.mod_mod; [assumption | pose proof n_lt_2_256; lia].
  - destruct (secp256k1_aggsig_generate_nonce_single _ _)
      as [[[[r k1] K] rng']|] eqn:E; [|discriminate].
    apply generate_nonce_single_spec in E as (-> & -> & Hk & HQ).
    intros [= <- <- <-]. repeat split; try lia. now left.
Qed.

Lemma sign_single_recheck_noop (fuel : nat) (secnonce32 : option (list byte))
    (seed : list byte) (ret : bool) (k : Scalar.t) (R : point) :
  sign_single_nonce fuel secnonce32 seed = Some (ret, k, R) ->
  sign_single_recheck k R = (k, R).
Proof.
  intros H. apply sign_single_nonce_spec in H as (_ & _ & _ & [HQ|(-> & -> & _)]).
  - now apply sign_single_recheck_quad.
  - unfold sign_single_recheck, secp256k1_ge_neg, secp256k1_ge_set_gej.
    rewrite has_quad_y_infinity. cbn [negb].
    now rewrite neg_inf, scalar_negate_zero.
Qed.

(** [secp256k1_aggsig_verify_single] on the 64 bytes [s || x(R)] with
    no explicit public nonce, for a nonce point R with residue Y. *)
Lemma verify_single_unfold (s : Scalar.t) (R : point) (msg32 : list byte)
    (pubkey : secp256k1_pubkey) (e : Scalar.t) (ok : bool) :
  0 <= s < secp256k1_n -> has_quad_y R = true ->
  secp256k1_compute_sighash_single (secp256k1_pubkey_save R) msg32
  = Some (e, ok) ->
  secp256k1_aggsig_verify_single
    (Scalar.get_b32 s ++ Fe.get_b32 (Fe.normalize (ge_x R))) msg32 None pubkey
  = let Q := secp256k1_ecmult_gen s
             +' (gej_infinity +' ecmult (Scalar.negate e) pubkey) in
    Some (Fe.equal_var (ge_x R) (ge_x Q) && has_quad_y Q).
Proof.
  intros Hs HQ He. unfold secp256k1_aggsig_verify_single.
  rewrite scalar_set_get_app by assumption.
  unfold Scalar.get_b32, Fe.get_b32.
  rewrite drop_be_bytes_app, fe_normalize_ge_x.
  fold (Fe.get_b32 (ge_x R)). rewrite fe_set_get by apply ge_x_range.
  rewrite ge_set_xquad_x by assumption. rewrite He.
  reflexivity.
Qed.

Lemma sign_single_then_verify_single (fuel : nat)
    (msg32 seckey32 : list byte) (secnonce32 : option (list byte))
    (seed sig64 : list byte) :
  be32 seckey32 < secp256k1_n ->
  (forall nonce, secnonce32 = Some nonce -> be32 nonce mod secp256k1_n <> 0) ->
  secp256k1_aggsig_sign_single fuel msg32 seckey32 secnonce32 None seed
  = Some (Some sig64) ->
  secp256k1_aggsig_verify_single sig64 msg32 None (pubkey_of_seckey seckey32)
  = Some true.
Proof.
  intros Hsk Hnz. unfold secp256k1_aggsig_sign_single.
  destruct (sign_single_nonce fuel secnonce32 seed) as [[[ret k] R]|] eqn:E;
    [|discriminate].
  rewrite (sign_single_recheck_noop _ _ _ _ _ _ E).
  apply sign_single_nonce_spec in E as (-> & HR & Hk & [HQ|(_ & _ & nonce & -> & Hz)]).
  2:{ exfalso. now apply (Hnz nonce). }
  cbn [negb]. intros H.
  apply sign_single_finish_inv in H as (e & ok & He & _ & ->).
  unfold secp256k1_ge_set_gej in *.
  rewrite (verify_single_unfold _ _ _ _ e ok);
    [|apply scalar_mod_range|assumption|assumption].
  cbv zeta. unfold pubkey_of_seckey, secp256k1_pubkey_save.
  rewrite add_inf_l, share_cancels, <- HR, HQ, andb_true_r.
  f_equal. now apply fe_equal_var_ge_x.
Qed.

End Single.

(** The two verifiers agree on a one-key list when their challenges
    agree. *)
Lemma verify_agrees_when_challenges_agree {B : Backend}
    (sig64 msg32 : list byte) (pubkey : secp256k1_pubkey)
    (e : Scalar.t) (ok : bool) :
  secp256k1_compute_sighash_single
    (secp256k1_pubkey_save (ge_set_xquad (be32 (drop 32 sig64)))) msg32
  = Some (e, ok) ->
  secp256k1_compute_sighash
    (secp256k1_compute_prehash [pubkey] 1 (be32 (drop 32 sig64)) msg32) 0
  = (e, true) ->
  secp256k1_aggsig_verify_single sig64 msg32 None pubkey
  = Some (secp256k1_aggsig_verify sig64 msg32 [pubkey] 1).
Proof.
  intros He H. unfold secp256k1_aggsig_verify, secp256k1_aggsig_verify_single.
  cbn [N.eqb]. destruct (Scalar.set_b32 sig64) as [g_sc overflow].
  destruct overflow; [reflexivity|].
  unfold Fe.set_b32.
  destruct (be32 (drop 32 sig64) <? secp256k1_p); [|reflexivity].
  rewrite He.
  unfold secp256k1_ecmult_multi_var. change (N.to_nat 1) with 1%nat.
  cbn [ecmult_multi_sum]. change (N.of_nat 0) with 0%N.
  unfold secp256k1_aggsig_verify_callback,
    secp256k1_aggsig_verify_callback_single.
  cbn [cb_prehash cb_pubkeys cb_single_hash]. rewrite H. cbn [negb].
  reflexivity.
Qed.

(** C3, amended. A signature made by [secp256k1_aggsig_sign_single]
    with no external public nonce (and no external secret nonce that is
    zero mod n) is accepted by the single-party verifier
    [secp256k1_aggsig_verify_single] used without an explicit public
    nonce. The aggregate verifier derives another challenge,
    SHA256(SHA256(ser(P) || R_x || m)) in place of SHA256(ser(R) || m);
    on a one-key list the two verifiers return the same verdict on
    every signature for which the two challenges are the same scalar
    and the aggregate one does not overflow. *)
Theorem single_sign_verify_agreement {B : Backend} {L : BackendLaws B} :
  (forall (fuel : nat) (msg32 seckey32 : list byte)
          (secnonce32 : option (list byte)) (seed sig64 : list byte),
     be32 seckey32 < secp256k1_n ->
     (forall nonce, secnonce32 = Some nonce ->
        be32 nonce mod secp256k1_n <> 0) ->
     secp256k1_aggsig_sign_single fuel msg32 seckey32 secnonce32 None seed
     = Some (Some sig64) ->
     secp256k1_aggsig_verify_single sig64 msg32 None
       (pubkey_of_seckey seckey32) = Some true)
  /\ (forall (sig64 msg32 : list byte) (pubkey : secp256k1_pubkey)
             (e : Scalar.t) (ok : bool),
        secp256k1_compute_sighash_single
          (secp256k1_pubkey_save (ge_set_xquad (be32 (drop 32 sig64)))) msg32
        = Some (e, ok) ->
        secp256k1_compute_sighash
          (secp256k1_compute_prehash [pubkey] 1 (be32 (drop 32 sig64)) msg32) 0
        = (e, true) ->
        secp256k1_aggsig_verify_single sig64 msg32 None pubkey
        = Some (secp256k1_aggsig_verify sig64 msg32 [pubkey] 1)).
Proof.
  split.
  - intros fuel msg32 seckey32 secnonce32 seed sig64 Hsk Hnz Hsign.
    eapply sign_single_then_verify_single; eassumption.
  - intros sig64 msg32 pubkey e ok He Hagg.
    now apply (verify_agrees_when_challenges_agree _ _ _ e ok).
Qed.

(** C4. What [secp256k1_aggsig_partial_sign] does when it fails after
    its state checks in a session whose combined nonce has no
    quadratic-residue Y: the stored secret nonce of the slot has been
    replaced by its negation, so the session is not as it was. *)
Theorem partial_sign_failure_negates_nonce {B : Backend}
    (a : secp256k1_aggsig_context) (msghash32 seckey32 : list byte)
    (index : N) :
  aggctx_wf a -> (index < n_sigs a)%N ->
  some_nonce_unknown (progress a) (N.to_nat (n_sigs a)) = false ->
  progress_at a index = NONCE_PROGRESS_OURS ->
  has_quad_y (pubnonce_sum a) = false ->
  0 < secnonce_at a index < secp256k1_n ->
  snd (secp256k1_aggsig_partial_sign a msghash32 seckey32 index) = None ->
  let a' := fst (secp256k1_aggsig_partial_sign a msghash32 seckey32 index) in
  secnonce_at a' index = secp256k1_n - secnonce_at a index
  /\ secnonce_at a' index <> secnonce_at a index
  /\ progress a' = progress a.
Proof.
  intros (_ & _ & Hls) Hidx Hunk Hours Hquad Hk.
  unfold secp256k1_aggsig_partial_sign.
  destruct (N.ltb_spec index (n_sigs a)); [|lia]. cbn [negb].
  rewrite Hunk, Hours, Hquad. cbn [nonce_progress_eqb negb].
  assert (Hneg : Scalar.negate (secnonce_at a index)
                 = secp256k1_n - secnonce_at a index).
  { unfold Scalar.negate. symmetry.
    apply (Z.mod_unique_pos _ _ (-1)); lia. }
  assert (Hat : secnonce_at
                  (with_secnonce a
                     (<[N.to_nat index := Scalar.negate (secnonce_at a index)]>
                        (secnonce a))) index
                = secp256k1_n - secnonce_at a index).
  { unfold secnonce_at at 1. cbn [secnonce with_secnonce].
    rewrite default_insert_eq by (unfold Scalar.t in *; lia). exact Hneg. }
  destruct (secp256k1_compute_sighash _ index) as [sighash ok].
  destruct ok; cbn [negb].
  - destruct (Scalar.set_b32 seckey32) as [sec overflow].
    destruct overflow; cbn [fst snd]; [|discriminate].
    intros _. rewrite Hat. split; [reflexivity|]. split; [|reflexivity].
    unfold secp256k1_n in *. lia.
  - cbn [fst snd]. intros _. rewrite Hat. split; [reflexivity|].
    split; [|reflexivity]. unfold secp256k1_n in *. lia.
Qed.

(** C5. The nonce lifecycle: [generate_nonce] on a slot that is not
    Unknown fails; [partial_sign] fails while some slot is Unknown and
    fails when its slot is not in Ours; a successful [partial_sign]
    takes its slot from Ours to Signed and makes its partial signature
    with the secret nonce of that slot; through any sequence of calls
    on the session a Signed slot stays Signed, keeps its secret nonce,
    and every later [partial_sign] for it fails; and the secret nonce
    of a Signed slot takes part in nothing that follows: with any other
    scalar stored in its place, every call of the sequence returns the
    same and leaves the same session. *)
Theorem nonce_lifecycle_enforced {B : Backend} :
  (forall fuel (a : secp256k1_aggsig_context) index,
     progress_at a index <> NONCE_PROGRESS_UNKNOWN ->
     secp256k1_aggsig_generate_nonce fuel a index = Some (a, false))
  /\ (forall (a : secp256k1_aggsig_context) m sk index j,
        aggctx_wf a -> (j < n_sigs a)%N ->
        progress_at a j = NONCE_PROGRESS_UNKNOWN ->
        secp256k1_aggsig_partial_sign a m sk index = (a, None))
  /\ (forall (a : secp256k1_aggsig_context) m sk index,
        progress_at a index <> NONCE_PROGRESS_OURS ->
        secp256k1_aggsig_partial_sign a m sk index = (a, None))
  /\ (forall (a a' : secp256k1_aggsig_context) m sk index partial,
        aggctx_wf a ->
        secp256k1_aggsig_partial_sign a m sk index = (a', Some partial) ->
        progress_at a index = NONCE_PROGRESS_OURS
        /\ progress_at a' index = NONCE_PROGRESS_SIGNED
        /\ partial
           = Scalar.get_b32
               (Scalar.add
                  (Scalar.mul (be32 sk) (partial_sign_challenge a m index))
                  (signing_nonce (pubnonce_sum a) (secnonce_at a index))))
  /\ (forall (a a' : secp256k1_aggsig_context) cs outs i,
        progress_at a i = NONCE_PROGRESS_SIGNED ->
        aggsig_exec_all a cs = Some (a', outs) ->
        progress_at a' i = NONCE_PROGRESS_SIGNED
        /\ secnonce_at a' i = secnonce_at a i
        /\ (forall k m sk, cs !! k = Some (CallPartialSign m sk i) ->
            outs !! k = Some None)
        /\ (forall v,
              aggsig_exec_all (with_secnonce_at a i v) cs
              = Some (with_secnonce_at a' i v, outs))).
Proof.
  split; [intros; now apply generate_nonce_rejects|].
  split; [intros a m sk index j; apply partial_sign_rejects_unknown|].
  split; [intros; now apply partial_sign_rejects_not_ours|].
  split.
  2:{ intros a a' cs outs i Hs Hrun.
      destruct (exec_all_keeps_signed cs a a' outs i Hs Hrun) as (Hp & Hk & Ho).
      repeat split; try assumption.
      intros v. now apply exec_all_nonce_irrelevant. }
  intros a a' m sk index partial Hwf H.
  pose proof (partial_sign_own_nonce _ _ _ _ _ _ Hwf H) as Hown.
  destruct Hwf as (Hlp & _ & _).
  destruct (nonce_progress_eqb (progress_at a index) NONCE_PROGRESS_OURS) eqn:E.
  2:{ apply nonce_progress_eqb_neq in E.
      rewrite partial_sign_rejects_not_ours in H by assumption. discriminate. }
  apply nonce_progress_eqb_eq in E. split; [assumption|].
  split; [|assumption].
  unfold secp256k1_aggsig_partial_sign in H.
  destruct (N.ltb_spec index (n_sigs a)); cbn [negb] in H; [|discriminate].
  destruct (some_nonce_unknown _ _); [discriminate|].
  rewrite E in H. cbn [nonce_progress_eqb negb] in H.
  destruct (has_quad_y (pubnonce_sum a)); cbn [negb] in H;
    destruct (secp256k1_compute_sighash _ index) as [sighash ok];
    (destruct ok; cbn [negb] in H; [|discriminate]);
    destruct (Scalar.set_b32 sk) as [sec overflow];
    (destruct overflow; [discriminate|]);
    apply (f_equal fst) in H; cbn [fst] in H; subst a';
    unfold progress_at; cbn [progress with_progress with_secnonce];
    apply default_insert_eq; lia.
Qed.

(** C7. What [secp256k1_aggsig_sign_single] does when the single-signer
    sighash overflows n: it does not fail; the return value of
    [secp256k1_compute_sighash_single] is dropped and the signature is
    made with the sighash reduced mod n. *)
Theorem sign_single_ignores_sighash_overflow {B : Backend}
    (fuel : nat) (msg32 seckey32 : list byte)
    (secnonce32 : option (list byte)) (pubnonce : option secp256k1_pubkey)
    (seed : list byte) (k : Scalar.t) (R : point) (e : Scalar.t) :
  sign_single_nonce fuel secnonce32 seed = Some (true, k, R) ->
  be32 seckey32 < secp256k1_n ->
  secp256k1_compute_sighash_single
    (match pubnonce with
     | Some pn => pn
     | None => secp256k1_pubkey_save (snd (sign_single_recheck k R))
     end) msg32 = Some (e, false) ->
  secp256k1_aggsig_sign_single fuel msg32 seckey32 secnonce32 pubnonce seed
  = Some (Some (Scalar.get_b32
                  (Scalar.add (Scalar.mul (be32 seckey32) e)
                     (fst (sign_single_recheck k R)))
                ++ Fe.get_b32 (Fe.normalize (ge_x R)))).
Proof.
  intros Hn Hsk He. unfold secp256k1_aggsig_sign_single. rewrite Hn.
  cbn [negb]. destruct (sign_single_recheck k R) as [k' T]. cbn [fst snd] in *.
  rewrite (sign_single_finish_ok _ _ _ _ _ _ e false) by assumption.
  unfold Scalar.set_b32. cbn [fst].
  pose proof (be32_range seckey32). now rewrite Z.mod_small by lia.
Qed.

(** C9, amended. In [secp256k1_aggsig_sign_single] the nonce point
    reaching the second quadratic-residue check already has a
    quadratic-residue Y, and the negation inside the check is not
    executed, when the nonce was generated internally or was supplied
    externally and is not zero mod n; for every input, taking the check
    out leaves the result of the function unchanged. *)
Theorem sign_single_recheck_redundant {B : Backend} {L : BackendLaws B}
    (fuel : nat) (msg32 seckey32 : list byte)
    (secnonce32 : option (list byte)) (pubnonce : option secp256k1_pubkey)
    (seed : list byte) :
  (forall ret k R,
     sign_single_nonce fuel secnonce32 seed = Some (ret, k, R) ->
     (forall nonce, secnonce32 = Some nonce ->
        be32 nonce mod secp256k1_n <> 0) ->
     has_quad_y R = true /\ sign_single_recheck k R = (k, R))
  /\ secp256k1_aggsig_sign_single fuel msg32 seckey32 secnonce32 pubnonce seed
     = sign_single_without_recheck fuel msg32 seckey32 secnonce32 pubnonce seed.
Proof.
  split.
  - intros ret k R H Hnz.
    apply sign_single_nonce_spec in H
      as (_ & _ & _ & [HQ|(_ & _ & nonce & -> & Hz)]).
    + split; [assumption | now apply sign_single_recheck_quad].
    + exfalso. now apply (Hnz nonce).
  - unfold secp256k1_aggsig_sign_single, sign_single_without_recheck.
    destruct (sign_single_nonce fuel secnonce32 seed) as [[[ret k] R]|] eqn:E;
      [|reflexivity].
    now rewrite (sign_single_recheck_noop _ _ _ _ _ _ E).
Qed.



(** * Further properties of the module *)

(** ** The hashed messages *)

Lemma length_pubkey_serialize {B : Backend} (pk : secp256k1_pubkey) :
  length (secp256k1_ec_pubkey_serialize pk) = 33%nat.
Proof.
  unfold secp256k1_ec_pubkey_serialize, Fe.get_b32. cbn [length].
  now rewrite length_be_bytes.
Qed.

Lemma prehash_pubkeys_concat {B : Backend} (hasher : secp256k1_sha256)
    (pks : list secp256k1_pubkey) :
  prehash_pubkeys hasher pks
  = hasher ++ concat (map secp256k1_ec_pubkey_serialize pks).
Proof.
  revert hasher. induction pks as [|pk pks IH]; intros hasher;
    cbn [prehash_pubkeys map concat].
  - now rewrite app_nil_r.
  - rewrite IH. unfold secp256k1_sha256_write.
    rewrite take_ge by (rewrite length_pubkey_serialize; lia).
    now rewrite <- app_assoc.
Qed.

(** X1. The prehash is one SHA-256 over the compressed keys in list
    order, then the 32 bytes of the nonce X coordinate, then the 32
    message bytes: 33.N + 64 bytes in all. *)
Theorem compute_prehash_message {B : Backend}
    (pks : list secp256k1_pubkey) (n_pubkeys : N) (nonce_ge_x : Fe.t)
    (msghash32 : list byte) :
  let message :=
    concat (map secp256k1_ec_pubkey_serialize (take (N.to_nat n_pubkeys) pks))
    ++ Fe.get_b32 nonce_ge_x ++ take 32 msghash32 in
  secp256k1_compute_prehash pks n_pubkeys nonce_ge_x msghash32 = sha256 message
  /\ ((N.to_nat n_pubkeys <= length pks)%nat -> (32 <= length msghash32)%nat ->
      length message = (33 * N.to_nat n_pubkeys + 64)%nat).
Proof.
  cbv zeta. split.
  - unfold secp256k1_compute_prehash, secp256k1_sha256_finalize,
      secp256k1_sha256_write, secp256k1_sha256_initialize.
    rewrite prehash_pubkeys_concat. cbn [app].
    rewrite (take_ge (Fe.get_b32 _))
      by (unfold Fe.get_b32; rewrite length_be_bytes; lia).
    now rewrite <- app_assoc.
  - intros Hn Hm. rewrite !length_app. unfold Fe.get_b32.
    rewrite length_be_bytes, length_take.
    assert (Hc : forall l : list secp256k1_pubkey,
      length (concat (map secp256k1_ec_pubkey_serialize l))
      = (33 * length l)%nat).
    { induction l as [|pk l IH]; cbn [map concat]; [reflexivity|].
      rewrite length_app, IH, length_pubkey_serialize. simpl length. lia. }
    rewrite Hc, length_take. lia.
Qed.

Lemma byte_to_N_of_N (v : N) : Byte.to_N (byte_of_N v) = (v mod 256)%N.
Proof.
  apply N2Z.inj. change (Z.of_N (Byte.to_N (byte_of_N v)))
    with (byte_to_Z (byte_of_N v)).
  apply byte_to_Z_of_N.
Qed.

(** The limbs written for an index give the index back. *)
Lemma varint7_decode_varint7 (i : N) : varint7_decode (varint7 i) = i.
Proof.
  induction i as [i IH] using (well_founded_induction N.lt_wf_0).
  destruct (N.eq_dec i 0%N) as [->|Hi]; [reflexivity|].
  rewrite varint7_step by assumption. cbn [varint7_decode foldr].
  fold (varint7_decode (varint7 (N.shiftr i 7))).
  rewrite IH.
  2:{ rewrite N.shiftr_div_pow2. apply N.div_lt; lia. }
  rewrite byte_to_N_of_N.
  change 0x7f%N with (N.ones 7). rewrite N.land_ones, N.shiftr_div_pow2.
  change (2 ^ 7)%N with 128%N.
  assert (i mod 128 < 128)%N by (apply N.mod_lt; lia).
  rewrite N.mod_small by lia.
  rewrite (N.div_mod i 128) at 3 by lia. lia.
Qed.

(** X2. The message hashed for a per-index challenge determines the
    index and the prehash: two calls of [secp256k1_compute_sighash]
    hash the same bytes only for the same index and the same 32 bytes
    of prehash. *)
Theorem sighash_message_injective {B : Backend} (prehash prehash' : list byte)
    (index index' : N) :
  (32 <= length prehash)%nat -> (32 <= length prehash')%nat ->
  secp256k1_sha256_write
    (sighash_index_loop index secp256k1_sha256_initialize) prehash 32
  = secp256k1_sha256_write
      (sighash_index_loop index' secp256k1_sha256_initialize) prehash' 32 ->
  index = index' /\ take 32 prehash = take 32 prehash'.
Proof.
  intros Hp Hp'. rewrite !sighash_index_loop_varint7.
  unfold secp256k1_sha256_write, secp256k1_sha256_initialize. cbn [app].
  intros H. apply app_inj_2 in H as [Hv Ht].
  2:{ rewrite !length_take. lia. }
  split; [|assumption].
  rewrite <- (varint7_decode_varint7 index), <- (varint7_decode_varint7 index').
  now rewrite Hv.
Qed.

(** ** Sessions under arbitrary call sequences *)

Section SessionMore.

Context {B : Backend}.

(** What one call may do to the arrays of a session: the keys and the
    number of slots stay, and the progress array is untouched or has
    one slot set to Ours or to Signed. *)
Lemma exec_shape (a a' : secp256k1_aggsig_context) (c : aggsig_call)
    (out : option (list byte)) :
  aggsig_exec a c = Some (a', out) ->
  pubkeys a' = pubkeys a /\ n_sigs a' = n_sigs a
  /\ (progress a' = progress a
      \/ exists i st,
           (st = NONCE_PROGRESS_OURS \/ st = NONCE_PROGRESS_SIGNED)
           /\ progress a' = <[i := st]> (progress a)).
Proof.
  intros H.
  destruct c as [fuel index|m sk index|partial n]; cbn [aggsig_exec] in H.
  - unfold secp256k1_aggsig_generate_nonce in H.
    destruct (index <? n_sigs a)%N; cbn [negb] in H;
      [|injection H as <- _; auto].
    destruct (nonce_progress_eqb _ _); cbn [negb] in H;
      [|injection H as <- _; auto].
    destruct (secp256k1_aggsig_generate_nonce_single _ _)
      as [[[[r k] pubnon] rng']|]; [|discriminate].
    destruct r; cbn [negb] in H; injection H as <- _;
      cbn [progress pubkeys n_sigs
           with_progress with_secnonce with_rng with_pubnonce_sum]; eauto 8.
  - unfold secp256k1_aggsig_partial_sign in H.
    destruct (index <? n_sigs a)%N; cbn [negb] in H;
      [|injection H as <- _; auto].
    destruct (some_nonce_unknown _ _); [injection H as <- _; auto|].
    destruct (nonce_progress_eqb _ _); cbn [negb] in H;
      [|injection H as <- _; auto].
    destruct (has_quad_y (pubnonce_sum a)); cbn [negb] in H;
      destruct (secp256k1_compute_sighash _ index) as [sighash ok];
      destruct ok; cbn [negb] in H;
      destruct (Scalar.set_b32 sk) as [sec overflow];
      destruct overflow;
      injection H as <- _;
      cbn [progress pubkeys n_sigs with_progress with_secnonce]; eauto 8.
  - unfold secp256k1_aggsig_combine_signatures in H.
    destruct (n =? n_sigs a)%N; cbn [negb] in H;
      [|injection H as <- _; auto].
    destruct (combine_loop _ _); [|injection H as <- _; auto].
    destruct (has_quad_y (pubnonce_sum a)); cbn [negb] in H;
      injection H as <- _; auto.
Qed.

Lemma some_nonce_unknown_replicate (n : nat) :
  (0 < n)%nat ->
  some_nonce_unknown (replicate n NONCE_PROGRESS_UNKNOWN) n = true.
Proof.
  intros Hn. apply (some_nonce_unknown_true _ _ 0%nat); [assumption|].
  now apply lookup_replicate_2.
Qed.

(** X3. A session fresh from [secp256k1_aggsig_context_create] signs
    nothing: [partial_sign] returns 0 for every index, message and key,
    and leaves the session as created. *)
Theorem partial_sign_on_fresh_session (pks : list secp256k1_pubkey)
    (n_pubkeys : N) (seed msghash32 seckey32 : list byte) (index : N) :
  secp256k1_aggsig_partial_sign
    (secp256k1_aggsig_context_create pks n_pubkeys seed)
    msghash32 seckey32 index
  = (secp256k1_aggsig_context_create pks n_pubkeys seed, None).
Proof.
  unfold secp256k1_aggsig_partial_sign.
  cbn [n_sigs progress secp256k1_aggsig_context_create].
  destruct (N.ltb_spec index n_pubkeys); cbn [negb]; [|reflexivity].
  rewrite some_nonce_unknown_replicate by lia. reflexivity.
Qed.

(** X6. No call writes NONCE_PROGRESS_OTHER: after any sequence of
    [generate_nonce], [partial_sign] and [combine_signatures] calls on a
    created session, no slot is in that state. *)
Theorem progress_never_other (pks : list secp256k1_pubkey) (n_pubkeys : N)
    (seed : list byte) (cs : list aggsig_call)
    (a' : secp256k1_aggsig_context) (outs : list (option (list byte))) :
  aggsig_exec_all (secp256k1_aggsig_context_create pks n_pubkeys seed) cs
  = Some (a', outs) ->
  forall i, progress_at a' i <> NONCE_PROGRESS_OTHER.
Proof.
  intros Hrun.
  assert (Hall : Forall (fun st => st <> NONCE_PROGRESS_OTHER) (progress a')).
  { assert (H0 : Forall (fun st => st <> NONCE_PROGRESS_OTHER)
                   (progress (secp256k1_aggsig_context_create pks n_pubkeys seed))).
    { cbn [progress secp256k1_aggsig_context_create].
      apply Forall_replicate. discriminate. }
    revert Hrun H0.
    generalize (secp256k1_aggsig_context_create pks n_pubkeys seed).
    revert outs. induction cs as [|c cs IH]; intros outs a Hrun H0.
    - injection Hrun as <- _. assumption.
    - cbn [aggsig_exec_all] in Hrun.
      destruct (aggsig_exec a c) as [[a1 out]|] eqn:E1; [|discriminate].
      destruct (aggsig_exec_all a1 cs) as [[a2 outs']|] eqn:E2; [|discriminate].
      injection Hrun as <- _. apply (IH _ _ E2).
      apply exec_shape in E1 as (_ & _ & [->|(i & st & Hst & ->)]);
        [assumption|].
      apply Forall_insert; [assumption|]. destruct Hst as [->| ->]; discriminate. }
  intros i. unfold progress_at.
  destruct (progress a' !! N.to_nat i) as [st|] eqn:E; cbn [default];
    [|discriminate].
  rewrite Forall_forall in Hall. apply Hall.
  eapply list_elem_of_lookup_2. eassumption.
Qed.

(** X7. The key list and the number of slots of a session are never
    written: any sequence of calls leaves them as they were, keeps the
    three arrays at [n_sigs] elements, and returns one result per
    call. *)
Theorem session_keys_immutable (a a' : secp256k1_aggsig_context)
    (cs : list aggsig_call) (outs : list (option (list byte))) :
  aggctx_wf a ->
  aggsig_exec_all a cs = Some (a', outs) ->
  pubkeys a' = pubkeys a /\ n_sigs a' = n_sigs a /\ aggctx_wf a'
  /\ length outs = length cs.
Proof.
  revert a outs. induction cs as [|c cs IH]; intros a outs Hwf Hrun.
  - injection Hrun as <- <-. auto.
  - cbn [aggsig_exec_all] in Hrun.
    destruct (aggsig_exec a c) as [[a1 out]|] eqn:E1; [|discriminate].
    destruct (aggsig_exec_all a1 cs) as [[a2 outs']|] eqn:E2; [|discriminate].
    injection Hrun as <- <-.
    pose proof (aggctx_wf_exec _ _ _ _ Hwf E1) as Hwf1.
    apply exec_shape in E1 as (Hk & Hn & _).
    destruct (IH _ _ Hwf1 E2) as (Hk2 & Hn2 & Hwf2 & Hlen).
    repeat split; try congruence; try apply Hwf2. simpl. now rewrite Hlen.
Qed.

Lemma scalar_negate_involutive (k : Z) :
  0 <= k < secp256k1_n -> Scalar.negate (Scalar.negate k) = k.
Proof.
  intros Hk. unfold Scalar.negate.
  rewrite <- (Z.sub_0_l (_ mod _)), Zminus_mod_idemp_r.
  replace (0 - - k) with k by lia. now apply Z.mod_small.
Qed.

(** One call on a session leaves the secret nonce of a slot that has
    one as it is, or negates it. *)
Lemma exec_keeps_nonce (a a' : secp256k1_aggsig_context) (c : aggsig_call)
    (out : option (list byte)) (i : N) :
  progress_at a i <> NONCE_PROGRESS_UNKNOWN ->
  aggsig_exec a c = Some (a', out) ->
  progress_at a' i <> NONCE_PROGRESS_UNKNOWN
  /\ (secnonce_at a' i = secnonce_at a i
      \/ secnonce_at a' i = Scalar.negate (secnonce_at a i)).
Proof.
  intros Hp H.
  destruct c as [fuel index|m sk index|partial n]; cbn [aggsig_exec] in H.
  - destruct (secp256k1_aggsig_generate_nonce fuel a index) as [[a1 ret]|] eqn:E;
      [|discriminate].
    injection H as <- _.
    apply (generate_nonce_frame _ _ _ _ i) in E as [Hp' Hk]; [|assumption].
    split; [congruence | now left].
  - injection H as H.
    destruct (N.eq_dec i index) as [<-|Hne].
    2:{ apply (partial_sign_frame _ _ _ _ _ i) in H as [Hp' Hk]; [|assumption].
        split; [congruence | now left]. }
    assert (Hlt : (N.to_nat i < length (progress a))%nat).
    { unfold progress_at in Hp.
      destruct (progress a !! N.to_nat i) as [st|] eqn:E.
      - eapply lookup_lt_Some. eassumption.
      - now contradiction Hp. }
    assert (Hins : forall l : list Scalar.t,
      default 0 (<[N.to_nat i := Scalar.negate (secnonce_at a i)]> l !! N.to_nat i)
      = default 0 (l !! N.to_nat i)
      \/ default 0 (<[N.to_nat i := Scalar.negate (secnonce_at a i)]> l
                      !! N.to_nat i)
         = Scalar.negate (secnonce_at a i)).
    { intros l. destruct (Nat.lt_ge_cases (N.to_nat i) (length l)).
      - right. now rewrite list_lookup_insert_eq.
      - left. now rewrite list_insert_ge. }
    unfold secp256k1_aggsig_partial_sign in H.
    destruct (i <? n_sigs a)%N; cbn [negb] in H;
      [|injection H as <- _; auto].
    destruct (some_nonce_unknown _ _); [injection H as <- _; auto|].
    destruct (nonce_progress_eqb _ _); cbn [negb] in H;
      [|injection H as <- _; auto].
    destruct (has_quad_y (pubnonce_sum a)); cbn [negb] in H;
      destruct (secp256k1_compute_sighash _ i) as [sighash ok];
      destruct ok; cbn [negb] in H;
      destruct (Scalar.set_b32 sk) as [sec overflow];
      destruct overflow;
      injection H as <- _;
      unfold progress_at, secnonce_at in *;
      cbn [progress secnonce with_progress with_secnonce];
      rewrite ?list_lookup_insert_eq by assumption; cbn [default];
      (split; [first [assumption | discriminate]|]);
      first [now left | apply Hins].
  - injection H as H. apply combine_frame in H as [Hp' Hk].
    unfold progress_at, secnonce_at in *. rewrite Hp', Hk.
    split; [assumption | now left].
Qed.

(** X8. A nonce is drawn once per slot: for a slot that has left
    Unknown, any sequence of calls keeps it out of Unknown, and its
    stored secret nonce is afterwards the same scalar or its negation
    (the sign flip of [partial_sign]), never a new draw. *)
Theorem nonce_never_regenerated (a a' : secp256k1_aggsig_context)
    (cs : list aggsig_call) (outs : list (option (list byte))) (i : N) :
  progress_at a i <> NONCE_PROGRESS_UNKNOWN ->
  0 <= secnonce_at a i < secp256k1_n ->
  aggsig_exec_all a cs = Some (a', outs) ->
  progress_at a' i <> NONCE_PROGRESS_UNKNOWN
  /\ (secnonce_at a' i = secnonce_at a i
      \/ secnonce_at a' i = Scalar.negate (secnonce_at a i)).
Proof.
  intros Hp Hk. set (k := secnonce_at a i) in *.
  assert (Hor : secnonce_at a i = k \/ secnonce_at a i = Scalar.negate k)
    by now left.
  clearbody k. revert a outs Hp Hor.
  induction cs as [|c cs IH]; intros a outs Hp Hor Hrun.
  - injection Hrun as <- _. auto.
  - cbn [aggsig_exec_all] in Hrun.
    destruct (aggsig_exec a c) as [[a1 out]|] eqn:E1; [|discriminate].
    destruct (aggsig_exec_all a1 cs) as [[a2 outs']|] eqn:E2; [|discriminate].
    injection Hrun as <- _.
    destruct (exec_keeps_nonce _ _ _ _ i Hp E1) as [Hp1 Hk1].
    apply (IH a1 outs'); [assumption| |assumption].
    destruct Hk1 as [-> | ->]; [assumption|].
    destruct Hor as [-> | ->]; [now right|].
    left. now apply scalar_negate_involutive.
Qed.

End SessionMore.

(** ** Nonce generation in a session *)

Section NonceRound.

Context {B : Backend} {L : BackendLaws B}.

Local Infix "+'" := gej_add_var (at level 50, left associativity).

(** What a call of [secp256k1_aggsig_generate_nonce] returns and does
    to the session. *)
Lemma generate_nonce_spec (fuel : nat)
    (a a' : secp256k1_aggsig_context) (index : N) (ret : bool) :
  aggctx_wf a ->
  secp256k1_aggsig_generate_nonce fuel a index = Some (a', ret) ->
  if ret then
    (index < n_sigs a)%N
    /\ progress_at a index = NONCE_PROGRESS_UNKNOWN
    /\ progress_at a' index = NONCE_PROGRESS_OURS
    /\ 0 < secnonce_at a' index < secp256k1_n
    /\ has_quad_y (secp256k1_ecmult_gen (secnonce_at a' index)) = true
    /\ pubnonce_sum a'
       = pubnonce_sum a +' secp256k1_ecmult_gen (secnonce_at a' index)
    /\ (forall i, i <> index ->
          progress_at a' i = progress_at a i
          /\ secnonce_at a' i = secnonce_at a i)
  else
    a' = a
    /\ (~ (index < n_sigs a)%N
        \/ progress_at a index <> NONCE_PROGRESS_UNKNOWN).
Proof.
  intros (Hlp & _ & Hls). unfold secp256k1_aggsig_generate_nonce.
  destruct (N.ltb_spec index (n_sigs a)) as [Hidx|Hidx]; cbn [negb].
  2:{ intros [= <- <-]. split; [reflexivity|]. left. lia. }
  destruct (nonce_progress_eqb (progress_at a index) NONCE_PROGRESS_UNKNOWN)
    eqn:E; cbn [negb].
  2:{ intros [= <- <-]. split; [reflexivity|]. right.
      now apply nonce_progress_eqb_neq. }
  apply nonce_progress_eqb_eq in E.
  destruct (secp256k1_aggsig_generate_nonce_single fuel (rng a))
    as [[[[r k] K] rng']|] eqn:Es; [|discriminate].
  apply generate_nonce_single_spec in Es as (-> & -> & Hk & HQ).
  cbn [negb]. intros [= <- <-].
  unfold progress_at, secnonce_at in *.
  cbn [progress secnonce pubnonce_sum
       with_progress with_secnonce with_rng with_pubnonce_sum].
  rewrite !default_insert_eq by (unfold Scalar.t in *; lia).
  split; [assumption|]. split; [assumption|]. split; [reflexivity|].
  split; [lia|]. split; [assumption|]. split; [reflexivity|].
  intros i Hne. now rewrite !default_insert_ne by lia.
Qed.

(** X4. [secp256k1_aggsig_generate_nonce] returns 0 only for an index
    out of range or a slot that is not Unknown, and then the session is
    as before; when it returns 1 the slot was Unknown and is now Ours,
    its secret nonce k is in (0, n), k.G has a quadratic-residue Y and
    has been added to the nonce sum, and no other slot has changed. *)
Theorem generate_nonce_contract (fuel : nat)
    (a a' : secp256k1_aggsig_context) (index : N) (ret : bool) :
  aggctx_wf a ->
  secp256k1_aggsig_generate_nonce fuel a index = Some (a', ret) ->
  if ret then
    (index < n_sigs a)%N
    /\ progress_at a index = NONCE_PROGRESS_UNKNOWN
    /\ progress_at a' index = NONCE_PROGRESS_OURS
    /\ 0 < secnonce_at a' index < secp256k1_n
    /\ has_quad_y (secp256k1_ecmult_gen (secnonce_at a' index)) = true
    /\ pubnonce_sum a'
       = pubnonce_sum a +' secp256k1_ecmult_gen (secnonce_at a' index)
    /\ (forall i, i <> index ->
          progress_at a' i = progress_at a i
          /\ secnonce_at a' i = secnonce_at a i)
  else
    a' = a
    /\ (~ (index < n_sigs a)%N
        \/ progress_at a index <> NONCE_PROGRESS_UNKNOWN).
Proof. apply generate_nonce_spec. Qed.

Lemma point_sum_map_update (F F' : N -> point) (idx : N) (P : point) (n : nat) :
  (forall i, i <> idx -> F' i = F i) -> F idx = gej_infinity -> F' idx = P ->
  point_sum (map F' (indices n))
  = point_sum (map F (indices n))
    +' (if (idx <? N.of_nat n)%N then P else gej_infinity).
Proof.
  intros Hne Hinf HP. unfold indices.
  induction n as [|n IH].
  - cbn [seq map point_sum foldr]. destruct (N.ltb_spec idx (N.of_nat 0)); [lia|].
    now rewrite add_inf_l.
  - rewrite seq_S, !map_app. cbn [map Nat.add]. rewrite !point_sum_snoc, IH.
    destruct (N.eq_dec (N.of_nat n) idx) as [E|E].
    + subst idx. rewrite Hinf, HP.
      destruct (N.ltb_spec (N.of_nat n) (N.of_nat n)); [lia|].
      destruct (N.ltb_spec (N.of_nat n) (N.of_nat (S n))); [|lia].
      now rewrite !add_inf_r.
    + rewrite (Hne _ E).
      assert (Hb : (idx <? N.of_nat (S n))%N = (idx <? N.of_nat n)%N).
      { destruct (N.ltb_spec idx (N.of_nat (S n))),
          (N.ltb_spec idx (N.of_nat n)); (reflexivity || lia). }
      rewrite Hb. rewrite <- !add_assoc. f_equal. apply add_comm.
Qed.

(** The state of a session in which only nonces have been generated. *)
Lemma generate_nonce_keeps_sum (fuel : nat)
    (a a' : secp256k1_aggsig_context) (index : N) (ret : bool) :
  aggctx_wf a ->
  pubnonce_sum a = session_nonce_sum a ->
  secp256k1_aggsig_generate_nonce fuel a index = Some (a', ret) ->
  pubnonce_sum a' = session_nonce_sum a'.
Proof.
  intros Hwf Hsum H.
  pose proof (aggctx_wf_exec a a' (CallGenerateNonce fuel index)
                (if ret then Some [] else None) Hwf) as Hwf'.
  cbn [aggsig_exec] in Hwf'. rewrite H in Hwf'. specialize (Hwf' eq_refl).
  pose proof (exec_shape a a' (CallGenerateNonce fuel index)
                (if ret then Some [] else None)) as Hsh.
  cbn [aggsig_exec] in Hsh. rewrite H in Hsh.
  destruct (Hsh eq_refl) as (_ & Hn & _).
  apply generate_nonce_spec in H; [|assumption].
  destruct ret.
  - destruct H as (Hidx & Hu & Ho & Hk & HQ & Hs & Hfr).
    rewrite Hs, Hsum. unfold session_nonce_sum. rewrite Hn.
    symmetry.
    rewrite (point_sum_map_update (slot_nonce_point a) (slot_nonce_point a')
               index (secp256k1_ecmult_gen (secnonce_at a' index))).
    + destruct (N.ltb_spec index (N.of_nat (N.to_nat (n_sigs a))));
        [reflexivity | lia].
    + intros i Hne. unfold slot_nonce_point.
      destruct (Hfr i Hne) as [-> ->]. reflexivity.
    + unfold slot_nonce_point. now rewrite Hu.
    + unfold slot_nonce_point. now rewrite Ho.
  - destruct H as [-> _]. assumption.
Qed.

(** X5. While only nonces are generated, the nonce sum of a session is
    the sum of k_i.G over the slots that have a nonce, whatever the
    order of the calls and however many of them were refused; and each
    such k_i is in (0, n) with a quadratic-residue Y on k_i.G. *)
Theorem nonce_sum_invariant (pks : list secp256k1_pubkey) (n_pubkeys : N)
    (seed : list byte) (calls : list (nat * N))
    (a' : secp256k1_aggsig_context) (outs : list (option (list byte))) :
  (N.to_nat n_pubkeys <= length pks)%nat ->
  aggsig_exec_all (secp256k1_aggsig_context_create pks n_pubkeys seed)
    (generate_nonce_calls calls) = Some (a', outs) ->
  pubnonce_sum a' = session_nonce_sum a'
  /\ forall i, progress_at a' i <> NONCE_PROGRESS_UNKNOWN ->
       progress_at a' i = NONCE_PROGRESS_OURS
       /\ 0 < secnonce_at a' i < secp256k1_n
       /\ has_quad_y (secp256k1_ecmult_gen (secnonce_at a' i)) = true.
Proof.
  intros Hn Hrun.
  set (inv := fun a : secp256k1_aggsig_context =>
    aggctx_wf a /\ pubnonce_sum a = session_nonce_sum a
    /\ forall i, progress_at a i <> NONCE_PROGRESS_UNKNOWN ->
         progress_at a i = NONCE_PROGRESS_OURS
         /\ 0 < secnonce_at a i < secp256k1_n
         /\ has_quad_y (secp256k1_ecmult_gen (secnonce_at a i)) = true).
  enough (Hinv : inv a') by (destruct Hinv as (_ & ? & ?); auto).
  assert (H0 : inv (secp256k1_aggsig_context_create pks n_pubkeys seed)).
  { split; [now apply aggctx_wf_create|]. split.
    - unfold session_nonce_sum.
      cbn [pubnonce_sum n_sigs secp256k1_aggsig_context_create].
      generalize (indices (N.to_nat n_pubkeys)). intros l.
      induction l as [|i l IH]; [reflexivity|].
      cbn [map point_sum foldr]. fold (point_sum (map
        (slot_nonce_point (secp256k1_aggsig_context_create pks n_pubkeys seed)) l)).
      rewrite <- IH.
      assert (Hs : slot_nonce_point
                     (secp256k1_aggsig_context_create pks n_pubkeys seed) i
                   = gej_infinity).
      { unfold slot_nonce_point, progress_at.
        cbn [progress secp256k1_aggsig_context_create].
        destruct (replicate (N.to_nat n_pubkeys) NONCE_PROGRESS_UNKNOWN
                    !! N.to_nat i) as [st|] eqn:E; [|reflexivity].
        apply lookup_replicate in E as [-> _]. reflexivity. }
      rewrite Hs. now rewrite add_inf_l.
    - intros i Hp. exfalso. apply Hp. unfold progress_at.
      cbn [progress secp256k1_aggsig_context_create].
      destruct (replicate (N.to_nat n_pubkeys) NONCE_PROGRESS_UNKNOWN
                  !! N.to_nat i) as [st|] eqn:E; [|reflexivity].
      apply lookup_replicate in E as [-> _]. reflexivity. }
  revert Hrun H0. generalize (secp256k1_aggsig_context_create pks n_pubkeys seed).
  revert outs. induction calls as [|[fuel index] calls IH]; intros outs a Hrun H0.
  - injection Hrun as <- _. assumption.
  - cbn [generate_nonce_calls map aggsig_exec_all aggsig_exec fst snd] in Hrun.
    destruct (secp256k1_aggsig_generate_nonce fuel a index) as [[a1 ret]|] eqn:E;
      [|discriminate].
    fold (generate_nonce_calls calls) in Hrun.
    destruct (aggsig_exec_all a1 (generate_nonce_calls calls))
      as [[a2 outs']|] eqn:E2; [|discriminate].
    injection Hrun as <- _. apply (IH _ _ E2).
    destruct H0 as (Hwf & Hsum & Hsl).
    split.
    { apply (aggctx_wf_exec a a1 (CallGenerateNonce fuel index)
               (if ret then Some [] else None) Hwf).
      cbn [aggsig_exec]. now rewrite E. }
    split; [eapply generate_nonce_keeps_sum; eassumption|].
    apply generate_nonce_spec in E; [|assumption].
    destruct ret.
    + destruct E as (Hidx & Hu & Ho & Hk & HQ & Hs & Hfr).
      intros i Hp. destruct (N.eq_dec i index) as [->|Hne]; [auto|].
      destruct (Hfr i Hne) as [Hpi Hki]. rewrite Hpi, Hki in *. now apply Hsl.
    + destruct E as [-> _]. assumption.
Qed.

End NonceRound.

(** ** Combining partial signatures *)

Section Combine.

Context {B : Backend}.

(** The summation loop: it fails on the first overflowing partial
    signature, and otherwise adds the values up mod n. *)
Lemma combine_loop_spec (partial : list (list byte)) (acc : Scalar.t) :
  combine_loop acc partial
  = if forallb (fun d => be32 d <? secp256k1_n) partial
    then Some (fold_left Scalar.add (map be32 partial) acc)
    else None.
Proof.
  revert acc. induction partial as [|d partial IH]; intros acc;
    cbn [combine_loop forallb map fold_left]; [reflexivity|].
  unfold Scalar.set_b32.
  destruct (Z.ltb_spec (be32 d) secp256k1_n) as [Hd|Hd]; cbn [andb].
  - destruct (Z.leb_spec secp256k1_n (be32 d)); [lia|].
    pose proof (be32_range d). rewrite Z.mod_small by lia. apply IH.
  - now destruct (Z.leb_spec secp256k1_n (be32 d)); [|lia].
Qed.

Lemma fold_add_sum (l : list Z) (acc : Scalar.t) :
  fold_left Scalar.add l acc mod secp256k1_n
  = (acc + foldr Z.add 0 l) mod secp256k1_n.
Proof.
  revert acc. induction l as [|x l IH]; intros acc; cbn [fold_left foldr].
  - now rewrite Z.add_0_r.
  - rewrite IH. unfold Scalar.add. rewrite Zplus_mod_idemp_l. f_equal. lia.
Qed.

Lemma fold_add_zero (l : list Z) :
  fold_left Scalar.add l (Scalar.set_int 0) = foldr Z.add 0 l mod secp256k1_n.
Proof.
  pose proof n_lt_2_256.
  rewrite <- (Z.mod_small (fold_left _ _ _) secp256k1_n).
  - rewrite fold_add_sum. reflexivity.
  - apply fold_add_range. unfold Scalar.set_int. lia.
Qed.

Lemma sum_Permutation (l l' : list Z) :
  Permutation l l' -> foldr Z.add 0 l = foldr Z.add 0 l'.
Proof.
  induction 1; cbn [foldr]; lia.
Qed.

Lemma forallb_Permutation {A} (f : A -> bool) (l l' : list A) :
  Permutation l l' -> forallb f l = forallb f l'.
Proof.
  induction 1; cbn [forallb]; try congruence.
  now rewrite !andb_assoc, (andb_comm (f y)).
Qed.

(** X11. The combined signature does not depend on the order in which
    the partial signatures are handed over. *)
Theorem combine_signatures_order (a : secp256k1_aggsig_context)
    (partial partial' : list (list byte)) (n_sigs' : N) :
  Permutation (take (N.to_nat n_sigs') partial)
              (take (N.to_nat n_sigs') partial') ->
  secp256k1_aggsig_combine_signatures a partial n_sigs'
  = secp256k1_aggsig_combine_signatures a partial' n_sigs'.
Proof.
  intros Hperm. unfold secp256k1_aggsig_combine_signatures.
  destruct (n_sigs' =? n_sigs a)%N; cbn [negb]; [|reflexivity].
  rewrite !combine_loop_spec.
  rewrite (forallb_Permutation _ _ _ Hperm).
  destruct (forallb _ (take (N.to_nat n_sigs') partial')); [|reflexivity].
  rewrite !fold_add_zero.
  now rewrite (sum_Permutation _ _ (Permutation_map be32 Hperm)).
Qed.

Context {L : BackendLaws B}.

(** X10. [secp256k1_aggsig_combine_signatures] returns 0, with the
    session as before, when the number of signatures is not that of
    the session or when one of the partial signatures is a value >= n.
    Otherwise it returns 1 whatever the progress of the slots: the
    signature is 64 bytes, its first half the sum of the partial
    signatures mod n, its second half the X coordinate of the nonce
    sum, and the nonce sum is left negated when its Y was not a
    quadratic residue. *)
Theorem combine_signatures_contract (a : secp256k1_aggsig_context)
    (partial : list (list byte)) (n_sigs' : N) :
  let used := take (N.to_nat n_sigs') partial in
  (n_sigs' <> n_sigs a ->
   secp256k1_aggsig_combine_signatures a partial n_sigs' = (a, None))
  /\ (Exists (fun d => secp256k1_n <= be32 d) used ->
      secp256k1_aggsig_combine_signatures a partial n_sigs' = (a, None))
  /\ (n_sigs' = n_sigs a -> Forall (fun d => be32 d < secp256k1_n) used ->
      exists sig64,
        secp256k1_aggsig_combine_signatures a partial n_sigs'
        = (with_pubnonce_sum a (final_nonce (pubnonce_sum a)), Some sig64)
        /\ length sig64 = 64%nat
        /\ be32 sig64 = foldr Z.add 0 (map be32 used) mod secp256k1_n
        /\ be32 (drop 32 sig64) = ge_x (pubnonce_sum a)).
Proof.
  cbv zeta. unfold secp256k1_aggsig_combine_signatures.
  split; [|split].
  - intros Hn. now destruct (N.eqb_spec n_sigs' (n_sigs a)).
  - intros Hex. destruct (n_sigs' =? n_sigs a)%N; cbn [negb]; [|reflexivity].
    rewrite combine_loop_spec.
    destruct (forallb _ _) eqn:E; [|reflexivity].
    exfalso. rewrite forallb_forall in E.
    apply Exists_exists in Hex as (d & Hin & Hd).
    apply list_elem_of_In in Hin. apply E in Hin. apply Z.ltb_lt in Hin. lia.
  - intros -> Hall. rewrite N.eqb_refl. cbn [negb].
    rewrite combine_loop_spec.
    assert (E : forallb (fun d => be32 d <? secp256k1_n)
                  (take (N.to_nat (n_sigs a)) partial) = true).
    { apply forallb_forall. intros d Hin. apply Z.ltb_lt.
      rewrite Forall_forall in Hall. apply Hall. now apply list_elem_of_In. }
    rewrite E, fold_add_zero.
    set (s := foldr Z.add 0 _ mod secp256k1_n).
    assert (Hs : 0 <= s < secp256k1_n) by apply scalar_mod_range.
    pose proof n_lt_2_256. pose proof p_lt_2_256.
    exists (Scalar.get_b32 s
            ++ Fe.get_b32 (Fe.normalize (ge_x (final_nonce (pubnonce_sum a))))).
    split.
    { unfold final_nonce, secp256k1_ge_set_gej.
      destruct (has_quad_y (pubnonce_sum a)); cbn [negb]; [|reflexivity].
      now destruct a. }
    unfold Scalar.get_b32, Fe.get_b32.
    rewrite length_app, !length_be_bytes, drop_be_bytes_app.
    rewrite be32_be_bytes_app by lia.
    rewrite fe_normalize_ge_x, final_nonce_x.
    rewrite be32_be_bytes by (pose proof (ge_x_range (pubnonce_sum a)); lia).
    auto.
Qed.

(** X12. Combining can be repeated: after a successful
    [combine_signatures], the same call on the session it left returns
    the same signature again, although the first call may have negated
    the nonce sum of the session. *)
Theorem combine_signatures_repeatable (a a' : secp256k1_aggsig_context)
    (partial : list (list byte)) (n_sigs' : N) (sig64 : list byte) :
  secp256k1_aggsig_combine_signatures a partial n_sigs' = (a', Some sig64) ->
  snd (secp256k1_aggsig_combine_signatures a' partial n_sigs') = Some sig64.
Proof.
  unfold secp256k1_aggsig_combine_signatures.
  destruct (n_sigs' =? n_sigs a)%N eqn:En; cbn [negb]; [|discriminate].
  destruct (combine_loop _ _) as [s|] eqn:Es; [|discriminate].
  unfold secp256k1_ge_set_gej.
  intros H.
  assert (Ha' : n_sigs a' = n_sigs a
                /\ ge_x (pubnonce_sum a') = ge_x (pubnonce_sum a)
                /\ sig64 = Scalar.get_b32 s
                           ++ Fe.get_b32 (Fe.normalize (ge_x (pubnonce_sum a)))).
  { destruct (has_quad_y (pubnonce_sum a)); cbn [negb] in H;
      injection H as <- <-; cbn [n_sigs pubnonce_sum with_pubnonce_sum];
      rewrite ?ge_x_neg; auto. }
  destruct Ha' as (Hn & Hxa & ->). rewrite Hn, En. cbn [negb].
  destruct (has_quad_y (pubnonce_sum a')); cbn [negb snd pubnonce_sum with_pubnonce_sum];
    rewrite ?ge_x_neg, Hxa; reflexivity.
Qed.

End Combine.

(** ** More on single-party signatures *)

Section SingleMore.

Context {B : Backend} {L : BackendLaws B}.

Local Infix "+'" := gej_add_var (at level 50, left associativity).

(** [secp256k1_aggsig_verify_single] past its two input checks. *)
Lemma verify_single_eval (sig64 msg32 : list byte)
    (pubnonce : option secp256k1_pubkey) (pubkey : secp256k1_pubkey) :
  be32 sig64 < secp256k1_n -> be32 (drop 32 sig64) < secp256k1_p ->
  secp256k1_aggsig_verify_single sig64 msg32 pubnonce pubkey
  = match secp256k1_compute_sighash_single
            (verify_single_nonce_key (be32 (drop 32 sig64)) pubnonce) msg32
    with
    | None => None
    | Some (e, _) =>
        let Q := verify_single_point (be32 sig64) e pubkey in
        Some (Fe.equal_var (be32 (drop 32 sig64)) (ge_x Q) && has_quad_y Q)
    end.
Proof.
  intros Hs Hx. unfold secp256k1_aggsig_verify_single.
  unfold Scalar.set_b32, Fe.set_b32.
  destruct (Z.leb_spec secp256k1_n (be32 sig64)); [lia|].
  destruct (Z.ltb_spec (be32 (drop 32 sig64)) secp256k1_p); [|lia].
  pose proof (be32_range sig64). rewrite Z.mod_small by lia.
  cbv zeta. unfold verify_single_nonce_key.
  destruct pubnonce as [pn|];
    (destruct (secp256k1_compute_sighash_single _ msg32) as [[e ok]|];
     [|reflexivity]);
    unfold verify_single_point, secp256k1_ecmult_multi_var;
    change (N.to_nat 1) with 1%nat;
    cbn [ecmult_multi_sum]; change (N.of_nat 0) with 0%N;
    unfold secp256k1_aggsig_verify_callback_single, pubkey_at;
    cbn [cb_single_hash cb_pubkeys]; change (N.to_nat 0) with 0%nat;
    change ([pubkey] !! 0%nat) with (Some pubkey); cbn [default];
    unfold secp256k1_ge_set_gej, secp256k1_ecmult_gen;
    now rewrite add_inf_l, ecmult_negate.
Qed.

(** X20. [secp256k1_aggsig_verify_single] returns invalid when the
    first 32 bytes of the signature are a value >= n or the last 32
    bytes a value >= p. Otherwise it hashes the explicit public nonce,
    or without one the point that R_x and a quadratic-residue Y
    determine: when that key does not serialize, which is when its X
    coordinate is zero, the process is aborted; when it does, the call
    returns, and accepts exactly when Q = s.G - e.P has Q.x = R_x and
    Q.y a quadratic residue, where e is the single-signer sighash
    reduced mod n (an overflow of the sighash does not reject). *)
Theorem verify_single_characterised (sig64 msg32 : list byte)
    (pubnonce : option secp256k1_pubkey) (pubkey : secp256k1_pubkey) :
  let s := be32 sig64 in
  let r_x := be32 (drop 32 sig64) in
  let hashed := verify_single_nonce_key r_x pubnonce in
  let verified :=
    secp256k1_aggsig_verify_single sig64 msg32 pubnonce pubkey in
  (secp256k1_n <= s -> verified = Some false)
  /\ (secp256k1_p <= r_x -> verified = Some false)
  /\ (secp256k1_compute_sighash_single hashed msg32 = None
      <-> ge_x (secp256k1_pubkey_load hashed) = 0)
  /\ (s < secp256k1_n -> r_x < secp256k1_p ->
      secp256k1_compute_sighash_single hashed msg32 = None ->
      verified = None)
  /\ (forall e ok,
        s < secp256k1_n -> r_x < secp256k1_p ->
        secp256k1_compute_sighash_single hashed msg32 = Some (e, ok) ->
        let Q := verify_single_point s e pubkey in
        (verified = Some true \/ verified = Some false)
        /\ (verified = Some true <-> ge_x Q = r_x /\ has_quad_y Q = true)).
Proof.
  cbv zeta. split; [|split; [|split; [|split]]].
  - intros Hs. unfold secp256k1_aggsig_verify_single, Scalar.set_b32.
    now destruct (Z.leb_spec secp256k1_n (be32 sig64)); [|lia].
  - intros Hx. unfold secp256k1_aggsig_verify_single, Scalar.set_b32, Fe.set_b32.
    destruct (secp256k1_n <=? be32 sig64); [reflexivity|].
    now destruct (Z.ltb_spec (be32 (drop 32 sig64)) secp256k1_p); [lia|].
  - apply compute_sighash_single_abort_iff.
  - intros Hs Hx He. rewrite verify_single_eval by assumption.
    now rewrite He.
  - intros e ok Hs Hx He. rewrite verify_single_eval by assumption.
    rewrite He. cbv zeta.
    set (Q := verify_single_point (be32 sig64) e pubkey).
    split; [destruct (_ && _); auto|].
    assert (Hb : forall b : bool, Some b = Some true <-> b = true).
    { intros b. split; [now intros [= ->]|now intros ->]. }
    rewrite Hb, andb_true_iff. unfold Fe.equal_var.
    pose proof (be32_range (drop 32 sig64)).
    rewrite (Z.mod_small (be32 _)) by lia.
    rewrite (Z.mod_small (ge_x _)) by apply ge_x_range.
    rewrite Z.eqb_eq.
    split; intros [H1 H2]; (split; [symmetry; exact H1 | exact H2]).
Qed.

(** X19. A signature that [secp256k1_aggsig_sign_single] makes with an
    explicit public nonce (the point hashed into the challenge in
    place of the signer's own nonce point) is accepted by
    [secp256k1_aggsig_verify_single] given the same public nonce, for
    the public key of the signing key. *)
Theorem sign_verify_single_with_pubnonce (fuel : nat)
    (msg32 seckey32 : list byte) (secnonce32 : option (list byte))
    (pubnonce : secp256k1_pubkey) (seed sig64 : list byte) :
  be32 seckey32 < secp256k1_n ->
  (forall nonce, secnonce32 = Some nonce -> be32 nonce mod secp256k1_n <> 0) ->
  secp256k1_aggsig_sign_single fuel msg32 seckey32 secnonce32 (Some pubnonce)
    seed = Some (Some sig64) ->
  secp256k1_aggsig_verify_single sig64 msg32 (Some pubnonce)
    (pubkey_of_seckey seckey32) = Some true.
Proof.
  intros Hsk Hnz. unfold secp256k1_aggsig_sign_single.
  destruct (sign_single_nonce fuel secnonce32 seed) as [[[ret k] R]|] eqn:E;
    [|discriminate].
  rewrite (sign_single_recheck_noop _ _ _ _ _ _ E).
  apply sign_single_nonce_spec in E
    as (-> & HR & Hk & [HQ|(_ & _ & nonce & -> & Hz)]).
  2:{ exfalso. now apply (Hnz nonce). }
  cbn [negb]. intros H.
  apply sign_single_finish_inv in H as (e & ok & He & _ & ->).
  pose proof n_lt_2_256. pose proof p_lt_2_256.
  pose proof (ge_x_range R) as HxR.
  set (s := Scalar.add (Scalar.mul (fst (Scalar.set_b32 seckey32)) e) k).
  assert (Hs : 0 <= s < secp256k1_n) by apply scalar_mod_range.
  unfold secp256k1_ge_set_gej. rewrite fe_normalize_ge_x.
  assert (Hbs : be32 (Scalar.get_b32 s ++ Fe.get_b32 (ge_x R)) = s).
  { unfold Scalar.get_b32. apply be32_be_bytes_app. lia. }
  assert (Hbx : be32 (drop 32 (Scalar.get_b32 s ++ Fe.get_b32 (ge_x R)))
                = ge_x R).
  { unfold Scalar.get_b32, Fe.get_b32. rewrite drop_be_bytes_app.
    apply be32_be_bytes. lia. }
  rewrite verify_single_eval by (rewrite ?Hbs, ?Hbx; lia).
  unfold verify_single_nonce_key. rewrite He. cbv zeta. rewrite Hbs, Hbx.
  unfold verify_single_point.
  unfold pubkey_of_seckey, secp256k1_pubkey_save, secp256k1_pubkey_load.
  rewrite <- ecmult_negate. fold (secp256k1_ecmult_gen s).
  unfold s. rewrite share_cancels, <- HR, HQ, andb_true_r.
  f_equal. now apply fe_equal_var_ge_x.
Qed.

(** X15. [secp256k1_aggsig_export_secnonce_single], when its nonce loop
    returns, returns 1 with 32 bytes that are a scalar k in (0, n)
    whose point k.G has a quadratic-residue Y. *)
Theorem export_secnonce_single_contract (fuel : nat) (seed : list byte)
    (out : option (list byte)) :
  secp256k1_aggsig_export_secnonce_single fuel seed = Some out ->
  exists secnonce32,
    out = Some secnonce32 /\ length secnonce32 = 32%nat
    /\ 0 < be32 secnonce32 < secp256k1_n
    /\ has_quad_y (secp256k1_ecmult_gen (be32 secnonce32)) = true.
Proof.
  unfold secp256k1_aggsig_export_secnonce_single.
  destruct (secp256k1_aggsig_generate_nonce_single _ _)
    as [[[[r k] K] rng']|] eqn:E; [|discriminate].
  apply generate_nonce_single_spec in E as (-> & -> & Hk & HQ).
  cbn [negb]. intros [= <-]. exists (Scalar.get_b32 k).
  pose proof n_lt_2_256. unfold Scalar.get_b32.
  rewrite length_be_bytes, be32_be_bytes by lia. auto.
Qed.

(** X16. The exported nonce is the nonce the signer draws: signing with
    no secret nonce from a seed gives the same result as signing with
    the secret nonce that [secp256k1_aggsig_export_secnonce_single]
    returns for that seed. *)
Theorem sign_single_with_exported_nonce (fuel fuel' : nat)
    (msg32 seckey32 seed seed' secnonce32 : list byte)
    (pubnonce : option secp256k1_pubkey) :
  secp256k1_aggsig_export_secnonce_single fuel seed = Some (Some secnonce32) ->
  secp256k1_aggsig_sign_single fuel msg32 seckey32 None pubnonce seed
  = secp256k1_aggsig_sign_single fuel' msg32 seckey32 (Some secnonce32)
      pubnonce seed'.
Proof.
  unfold secp256k1_aggsig_export_secnonce_single,
    secp256k1_aggsig_sign_single, sign_single_nonce.
  destruct (secp256k1_aggsig_generate_nonce_single _ _)
    as [[[[r k] K] rng']|] eqn:E; [|discriminate].
  apply generate_nonce_single_spec in E as (-> & -> & Hk & HQ).
  cbn [negb]. intros [= <-].
  rewrite scalar_set_get by lia. rewrite HQ. reflexivity.
Qed.

Lemma sign_single_nonce_negated (fuel fuel' : nat)
    (nonce nonce' seed seed' : list byte) :
  (be32 nonce + be32 nonce') mod secp256k1_n = 0 ->
  sign_single_nonce fuel (Some nonce) seed
  = sign_single_nonce fuel' (Some nonce') seed'.
Proof.
  intros Hsum. pose proof n_lt_2_256. unfold sign_single_nonce, Scalar.set_b32.
  set (k := be32 nonce mod secp256k1_n).
  assert (Hk : 0 <= k < secp256k1_n) by apply scalar_mod_range.
  assert (Hk' : be32 nonce' mod secp256k1_n = Scalar.negate k).
  { unfold Scalar.negate, k.
    rewrite <- (Z.sub_0_l (_ mod _)), Zminus_mod_idemp_r.
    replace (be32 nonce') with ((be32 nonce + be32 nonce') + (0 - be32 nonce))
      at 1 by lia.
    rewrite <- Zplus_mod_idemp_l, Hsum. reflexivity. }
  rewrite Hk', ecmult_gen_negate, scalar_negate_involutive, neg_neg by assumption.
  destruct (Z.eq_dec k 0) as [Hz|Hz].
  - rewrite Hz. change (secp256k1_ecmult_gen 0) with gej_infinity.
    now rewrite neg_inf, has_quad_y_infinity, scalar_negate_zero.
  - assert (HR : secp256k1_ecmult_gen k <> gej_infinity).
    { apply ecmult_gen_nonzero. now rewrite Z.mod_small. }
    rewrite (has_quad_y_neg _ HR).
    destruct (has_quad_y (secp256k1_ecmult_gen k)); reflexivity.
Qed.

(** X17. An external secret nonce and its negation mod n sign alike:
    [secp256k1_aggsig_sign_single] returns the same result for both,
    since it keeps of k and n - k the one whose point has a
    quadratic-residue Y. *)
Theorem sign_single_nonce_sign_irrelevant (fuel fuel' : nat)
    (msg32 seckey32 nonce nonce' seed seed' : list byte)
    (pubnonce : option secp256k1_pubkey) :
  (be32 nonce + be32 nonce') mod secp256k1_n = 0 ->
  secp256k1_aggsig_sign_single fuel msg32 seckey32 (Some nonce) pubnonce seed
  = secp256k1_aggsig_sign_single fuel' msg32 seckey32 (Some nonce') pubnonce
      seed'.
Proof.
  intros Hsum. unfold secp256k1_aggsig_sign_single.
  now rewrite (sign_single_nonce_negated fuel fuel' nonce nonce' seed seed').
Qed.

(** X18. A secret key that is zero is not refused by
    [secp256k1_aggsig_sign_single]: where the key to hash serializes,
    it returns 1, and the first half of the signature is then the
    secret nonce itself; where it does not, the process is aborted as
    for any other secret key. *)
Theorem sign_single_zero_key (fuel : nat) (msg32 seckey32 : list byte)
    (secnonce32 : option (list byte)) (pubnonce : option secp256k1_pubkey)
    (seed : list byte) (k : Scalar.t) (R : point) :
  be32 seckey32 = 0 ->
  sign_single_nonce fuel secnonce32 seed = Some (true, k, R) ->
  let hashed :=
    match pubnonce with
    | Some pn => pn
    | None => secp256k1_pubkey_save R
    end in
  let signed :=
    secp256k1_aggsig_sign_single fuel msg32 seckey32 secnonce32 pubnonce
      seed in
  (forall e ok,
     secp256k1_compute_sighash_single hashed msg32 = Some (e, ok) ->
     signed = Some (Some (Scalar.get_b32 k ++ Fe.get_b32 (ge_x R))))
  /\ (secp256k1_compute_sighash_single hashed msg32 = None -> signed = None).
Proof.
  intros Hz E. cbv zeta. pose proof n_lt_2_256.
  unfold secp256k1_aggsig_sign_single.
  rewrite E, (sign_single_recheck_noop _ _ _ _ _ _ E). cbn [negb].
  unfold secp256k1_ge_set_gej. split; [|apply sign_single_finish_abort].
  intros e ok He.
  rewrite (sign_single_finish_ok _ _ _ _ _ _ e ok) by (assumption || lia).
  apply sign_single_nonce_spec in E as (_ & _ & Hk & _).
  unfold Scalar.set_b32. cbn [fst].
  rewrite Hz, fe_normalize_ge_x. unfold Scalar.mul, Scalar.add.
  rewrite !Z.mod_0_l by lia. cbn [Z.mul]. rewrite ?Z.mod_0_l by lia.
  rewrite Z.add_0_l. now rewrite Z.mod_small.
Qed.

(** X9. A partial signature is a signature share: when
    [secp256k1_aggsig_partial_sign] returns 1, its 32 bytes are
    s_i = sk.e_i + k mod n, with e_i the per-index sighash of the
    prehash over the session's keys, the X coordinate of the nonce sum
    and the message, and k the slot's secret nonce, negated when the
    nonce sum has no quadratic-residue Y; so s_i.G - e_i.P = k.G for
    the public key P of sk. The nonce sum is not changed. *)
Theorem partial_signature_equation (a a' : secp256k1_aggsig_context)
    (msghash32 seckey32 partial : list byte) (index : N) :
  aggctx_wf a ->
  secp256k1_aggsig_partial_sign a msghash32 seckey32 index
  = (a', Some partial) ->
  let e :=
    fst (secp256k1_compute_sighash
           (secp256k1_compute_prehash (pubkeys a) (n_sigs a)
              (ge_x (pubnonce_sum a)) msghash32) index) in
  let k := signing_nonce (pubnonce_sum a) (secnonce_at a index) in
  length partial = 32%nat
  /\ be32 partial = Scalar.add (Scalar.mul (be32 seckey32) e) k
  /\ secnonce_at a' index = k
  /\ pubnonce_sum a' = pubnonce_sum a
  /\ secp256k1_ecmult_gen (be32 partial)
     +' ecmult (Scalar.negate e) (pubkey_of_seckey seckey32)
     = secp256k1_ecmult_gen k.
Proof.
  intros (Hlp & _ & Hls). cbv zeta. pose proof n_lt_2_256.
  unfold secp256k1_aggsig_partial_sign.
  destruct (N.ltb_spec index (n_sigs a)) as [Hidx|]; cbn [negb]; [|discriminate].
  destruct (some_nonce_unknown _ _); [discriminate|].
  destruct (nonce_progress_eqb _ _); cbn [negb]; [|discriminate].
  pose proof (tmp_ge_x (pubnonce_sum a)) as Hx.
  assert (Hat : forall v,
    secnonce_at (with_secnonce a (<[N.to_nat index := v]> (secnonce a))) index
    = v).
  { intros v. unfold secnonce_at. cbn [secnonce with_secnonce].
    apply default_insert_eq. unfold Scalar.t in *. lia. }
  unfold signing_nonce.
  destruct (has_quad_y (pubnonce_sum a)); cbn [negb] in *;
    cbn [pubkeys n_sigs with_secnonce]; rewrite Hx;
    destruct (secp256k1_compute_sighash _ index) as [e ok];
    (destruct ok; cbn [negb]; [|discriminate]);
    unfold Scalar.set_b32;
    (destruct (Z.leb_spec secp256k1_n (be32 seckey32)); [discriminate|]);
    pose proof (be32_range seckey32);
    rewrite ?Hat, Z.mod_small by lia;
    intros [= <- <-];
    cbn [fst pubnonce_sum with_progress with_secnonce];
    unfold Scalar.get_b32;
    rewrite length_be_bytes,
      be32_be_bytes by (pose proof (scalar_mod_range
        (Scalar.mul (be32 seckey32) e * 1 + 0)); unfold Scalar.add;
        pose proof (Z.mod_pos_bound (Scalar.mul (be32 seckey32) e
          + Scalar.negate (secnonce_at a index)) secp256k1_n);
        pose proof (Z.mod_pos_bound (Scalar.mul (be32 seckey32) e
          + secnonce_at a index) secp256k1_n); lia);
    (split; [reflexivity|]); (split; [reflexivity|]);
    (split; [unfold secnonce_at; cbn [secnonce with_progress with_secnonce];
             first [reflexivity
                   | apply default_insert_eq; unfold Scalar.t in *; lia]|]);
    (split; [reflexivity|]);
    unfold pubkey_of_seckey, secp256k1_pubkey_save, Scalar.set_b32; cbn [fst];
    rewrite Z.mod_small by lia; apply share_cancels.
Qed.

End SingleMore.

(** ** The draws of the nonce generator *)

Section Draws.

Context {B : Backend}.

Lemma nonce_retry_loop_first_valid (fuel : nat) (rng rng' : rfc6979)
    (k : Scalar.t) :
  nonce_retry_loop fuel rng = Some (k, rng') ->
  exists j,
    (j < fuel)%nat
    /\ (forall i, (i < j)%nat ->
          be32 (nth_draw rng i) = 0 \/ secp256k1_n <= be32 (nth_draw rng i))
    /\ 0 < be32 (nth_draw rng j) < secp256k1_n
    /\ k = be32 (nth_draw rng j)
    /\ rng' = rng_after (S j) rng.
Proof.
  revert rng. induction fuel as [|fuel IH]; intros rng; [discriminate|].
  cbn [nonce_retry_loop]. unfold Scalar.set_b32, Scalar.is_zero.
  destruct (rfc6979_generate rng 32) as [data rng1] eqn:Eg.
  pose proof (be32_range data) as Hr. pose proof n_lt_2_256 as Hn.
  assert (Hd : nth_draw rng 0 = data) by (unfold nth_draw; cbn; now rewrite Eg).
  assert (Hs : snd (rfc6979_generate rng 32) = rng1) by now rewrite Eg.
  destruct (Z.leb_spec secp256k1_n (be32 data)) as [Hov|Hov]; cbn [orb].
  - intros H. apply IH in H as (j & Hj & Hbad & Hok & Hk & Hrng).
    exists (S j). split; [lia|]. split.
    { intros [|i] Hi; [rewrite Hd; now right|].
      unfold nth_draw. cbn [rng_after]. rewrite Hs. apply Hbad. lia. }
    unfold nth_draw in *. cbn [rng_after] in *. rewrite Hs. auto.
  - destruct (Z.eqb_spec (be32 data mod secp256k1_n) 0) as [Hz|Hz].
    + rewrite Z.mod_small in Hz by lia.
      intros H. apply IH in H as (j & Hj & Hbad & Hok & Hk & Hrng).
      exists (S j). split; [lia|]. split.
      { intros [|i] Hi; [rewrite Hd; now left|].
        unfold nth_draw. cbn [rng_after]. rewrite Hs. apply Hbad. lia. }
      unfold nth_draw in *. cbn [rng_after] in *. rewrite Hs. auto.
    + rewrite Z.mod_small in * by lia. intros [= <- <-].
      exists 0%nat. split; [lia|]. split; [intros i Hi; lia|].
      rewrite Hd. cbn [rng_after]. rewrite Hs. repeat split; lia.
Qed.

(** X21. The nonce of [secp256k1_aggsig_generate_nonce_single] comes
    from the first draw of the generator that is a scalar in (0, n):
    every earlier draw was zero or >= n, no draw after it is made, and
    the secret nonce returned is that draw d or n - d. *)
Theorem generate_nonce_single_first_valid_draw (fuel : nat)
    (rng rng' : rfc6979) (ret : bool) (k : Scalar.t) (K : point) :
  secp256k1_aggsig_generate_nonce_single fuel rng = Some (ret, k, K, rng') ->
  exists j,
    (j < fuel)%nat
    /\ (forall i, (i < j)%nat ->
          be32 (nth_draw rng i) = 0 \/ secp256k1_n <= be32 (nth_draw rng i))
    /\ 0 < be32 (nth_draw rng j) < secp256k1_n
    /\ (k = be32 (nth_draw rng j) \/ k = secp256k1_n - be32 (nth_draw rng j))
    /\ rng' = rng_after (S j) rng.
Proof.
  unfold secp256k1_aggsig_generate_nonce_single.
  destruct (nonce_retry_loop fuel rng) as [[k0 rng0]|] eqn:E; [|discriminate].
  apply nonce_retry_loop_first_valid in E as (j & Hj & Hbad & Hok & -> & ->).
  intros H. exists j. split; [assumption|]. split; [assumption|].
  split; [assumption|].
  destruct (has_quad_y _); cbn [negb] in H; injection H as _ <- _ <-.
  - auto.
  - split; [|reflexivity]. right. unfold Scalar.negate.
    symmetry. apply (Z.mod_unique_pos _ _ (-1)); lia.
Qed.

(** X22. What [secp256k1_aggsig_sign_single] returns passes the input
    checks of the verifiers: 64 bytes, the first half a value below n
    and the second half a value below p; and it returns them only for
    a secret key below n. *)
Theorem sign_single_output_wellformed (fuel : nat)
    (msg32 seckey32 : list byte) (secnonce32 : option (list byte))
    (pubnonce : option secp256k1_pubkey) (seed sig64 : list byte) :
  secp256k1_aggsig_sign_single fuel msg32 seckey32 secnonce32 pubnonce seed
  = Some (Some sig64) ->
  length sig64 = 64%nat
  /\ 0 <= be32 sig64 < secp256k1_n
  /\ 0 <= be32 (drop 32 sig64) < secp256k1_p
  /\ be32 seckey32 < secp256k1_n.
Proof.
  pose proof n_lt_2_256. pose proof p_lt_2_256.
  unfold secp256k1_aggsig_sign_single.
  destruct (sign_single_nonce fuel secnonce32 seed) as [[[ret k] R]|];
    [|discriminate].
  destruct ret; cbn [negb]; [|discriminate].
  destruct (sign_single_recheck k R) as [k' T]. unfold sign_single_finish.
  destruct (match pubnonce with Some _ => _ | None => _ end) as [[e ok]|];
    [|discriminate].
  unfold Scalar.set_b32.
  destruct (Z.leb_spec secp256k1_n (be32 seckey32)); [discriminate|].
  intros Hsig. do 2 apply (inj Some) in Hsig. subst sig64.
  unfold Scalar.get_b32, Fe.get_b32.
  rewrite length_app, !length_be_bytes, drop_be_bytes_app.
  set (s := Scalar.add _ _).
  assert (Hs : 0 <= s < secp256k1_n) by apply scalar_mod_range.
  set (x := Fe.normalize _).
  assert (Hx : 0 <= x < secp256k1_p) by (apply Z.mod_pos_bound; lia).
  rewrite be32_be_bytes_app, be32_be_bytes by lia.
  repeat split; try lia.
Qed.

End Draws.

(** ** More on partial signatures *)

Section PartialMore.

Context {B : Backend} {L : BackendLaws B}.

(** X23. [secp256k1_aggsig_partial_sign] returns 1 exactly when the
    index is in range, no slot of the session is Unknown, the slot of
    the index is in Ours, the per-index sighash does not overflow n,
    and the secret key is a value below n. *)
Theorem partial_sign_success_iff (a : secp256k1_aggsig_context)
    (msghash32 seckey32 : list byte) (index : N) :
  aggctx_wf a ->
  (exists a' partial,
     secp256k1_aggsig_partial_sign a msghash32 seckey32 index
     = (a', Some partial))
  <-> (index < n_sigs a)%N
      /\ (forall j, (j < n_sigs a)%N ->
            progress_at a j <> NONCE_PROGRESS_UNKNOWN)
      /\ progress_at a index = NONCE_PROGRESS_OURS
      /\ snd (secp256k1_compute_sighash
                (secp256k1_compute_prehash (pubkeys a) (n_sigs a)
                   (ge_x (pubnonce_sum a)) msghash32) index) = true
      /\ be32 seckey32 < secp256k1_n.
Proof.
  intros (Hlp & _ & _).
  assert (Hunk : some_nonce_unknown (progress a) (N.to_nat (n_sigs a)) = false
                 <-> forall j, (j < n_sigs a)%N ->
                       progress_at a j <> NONCE_PROGRESS_UNKNOWN).
  { split.
    - intros Hf j Hj Hp.
      assert (Ht : some_nonce_unknown (progress a) (N.to_nat (n_sigs a)) = true).
      { apply (some_nonce_unknown_true _ _ (N.to_nat j)); [lia|].
        unfold progress_at in Hp.
        destruct (progress a !! N.to_nat j) as [st|] eqn:E.
        - simpl in Hp. now subst.
        - apply lookup_ge_None in E. lia. }
      congruence.
    - intros Hall. apply some_nonce_unknown_false. intros j st Hj Hl Hst.
      apply (Hall (N.of_nat j)); [lia|].
      unfold progress_at. rewrite Nat2N.id, Hl. exact Hst. }
  unfold secp256k1_aggsig_partial_sign.
  destruct (N.ltb_spec index (n_sigs a)) as [Hidx|Hidx]; cbn [negb].
  2:{ split; [intros (a' & p & [=]) | intros (? & _); lia]. }
  destruct (some_nonce_unknown (progress a) (N.to_nat (n_sigs a))) eqn:Eu.
  { split; [intros (a' & p & [=])|].
    intros (_ & Hall & _). apply Hunk in Hall. congruence. }
  destruct (nonce_progress_eqb (progress_at a index) NONCE_PROGRESS_OURS)
    eqn:Eo; cbn [negb].
  2:{ apply nonce_progress_eqb_neq in Eo.
      split; [intros (a' & p & [=]) | intros (_ & _ & ? & _); contradiction]. }
  apply nonce_progress_eqb_eq in Eo.
  pose proof (tmp_ge_x (pubnonce_sum a)) as Hx.
  destruct (has_quad_y (pubnonce_sum a)); cbn [negb] in *;
    cbn [pubkeys n_sigs with_secnonce]; rewrite Hx;
    destruct (secp256k1_compute_sighash _ index) as [e ok]; cbn [snd];
    (destruct ok; cbn [negb];
     [|split; [intros (a' & p & [=]) | intros (_ & _ & _ & [=] & _)]]);
    unfold Scalar.set_b32;
    (destruct (Z.leb_spec secp256k1_n (be32 seckey32));
     [split; [intros (a' & p & [=]) | intros (_ & _ & _ & _ & ?); lia]|]);
    (split; [intros _; repeat split; try assumption; now apply Hunk
            | intros _; eauto]).
Qed.

End PartialMore.

Section SigningOrder.

Context {B : Backend}.

Lemma some_nonce_unknown_inv (l : list nonce_progress) (n : nat) :
  some_nonce_unknown l n = true ->
  exists j, (j < n)%nat /\ l !! j = Some NONCE_PROGRESS_UNKNOWN.
Proof.
  revert n. induction l as [|st l IH]; intros [|n]; cbn [some_nonce_unknown];
    try discriminate.
  destruct (nonce_progress_eqb st NONCE_PROGRESS_UNKNOWN) eqn:E.
  - intros _. apply nonce_progress_eqb_eq in E. subst.
    exists 0%nat. split; [lia | reflexivity].
  - intros H. apply IH in H as (j & Hj & Hl). exists (S j). split; [lia|assumption].
Qed.

Lemma some_nonce_unknown_ext (l l' : list nonce_progress) (n : nat) :
  (forall j, (j < n)%nat ->
     l !! j = Some NONCE_PROGRESS_UNKNOWN
     <-> l' !! j = Some NONCE_PROGRESS_UNKNOWN) ->
  some_nonce_unknown l n = some_nonce_unknown l' n.
Proof.
  intros H.
  destruct (some_nonce_unknown l n) eqn:E, (some_nonce_unknown l' n) eqn:E';
    try reflexivity.
  - apply some_nonce_unknown_inv in E as (j & Hj & Hl).
    apply (H j Hj) in Hl.
    now rewrite (some_nonce_unknown_true _ _ j Hj Hl) in E'.
  - apply some_nonce_unknown_inv in E' as (j & Hj & Hl).
    apply (H j Hj) in Hl.
    now rewrite (some_nonce_unknown_true _ _ j Hj Hl) in E.
Qed.

(** What [partial_sign] does to the nonce sum and the progress array. *)
Lemma partial_sign_progress (a a' : secp256k1_aggsig_context)
    (msghash32 seckey32 : list byte) (index : N) (out : option (list byte)) :
  secp256k1_aggsig_partial_sign a msghash32 seckey32 index = (a', out) ->
  pubnonce_sum a' = pubnonce_sum a
  /\ (progress a' = progress a
      \/ (progress_at a index = NONCE_PROGRESS_OURS
          /\ progress a'
             = <[N.to_nat index := NONCE_PROGRESS_SIGNED]> (progress a))).
Proof.
  unfold secp256k1_aggsig_partial_sign. intros H.
  destruct (index <? n_sigs a)%N; cbn [negb] in H;
    [|injection H as <- _; auto].
  destruct (some_nonce_unknown _ _); [injection H as <- _; auto|].
  destruct (nonce_progress_eqb _ _) eqn:E; cbn [negb] in H;
    [|injection H as <- _; auto].
  apply nonce_progress_eqb_eq in E.
  destruct (has_quad_y (pubnonce_sum a)); cbn [negb] in H;
    destruct (secp256k1_compute_sighash _ index) as [sighash ok];
    destruct ok; cbn [negb] in H;
    destruct (Scalar.set_b32 seckey32) as [sec overflow];
    destruct overflow;
    injection H as <- _;
    cbn [progress pubnonce_sum with_progress with_secnonce]; auto.
Qed.

(** The result of [partial_sign] for a slot depends on the session
    through the keys, the nonce sum, whether a slot is Unknown, and the
    progress and secret nonce of that slot. *)
Lemma partial_sign_output_congr (a b : secp256k1_aggsig_context)
    (msghash32 seckey32 : list byte) (index : N) :
  length (secnonce a) = length (secnonce b) ->
  n_sigs a = n_sigs b -> pubkeys a = pubkeys b ->
  pubnonce_sum a = pubnonce_sum b ->
  some_nonce_unknown (progress a) (N.to_nat (n_sigs a))
  = some_nonce_unknown (progress b) (N.to_nat (n_sigs b)) ->
  progress_at a index = progress_at b index ->
  secnonce_at a index = secnonce_at b index ->
  snd (secp256k1_aggsig_partial_sign a msghash32 seckey32 index)
  = snd (secp256k1_aggsig_partial_sign b msghash32 seckey32 index).
Proof.
  intros Hlen Hn Hk Hs Hu Hp Hsec. unfold secp256k1_aggsig_partial_sign.
  rewrite <- Hn in Hu |- *. rewrite <- Hu, <- Hp, <- Hs.
  destruct (index <? n_sigs a)%N; cbn [negb]; [|reflexivity].
  destruct (some_nonce_unknown _ _); [reflexivity|].
  destruct (nonce_progress_eqb _ _); cbn [negb]; [|reflexivity].
  assert (Hat : secnonce_at
                  (with_secnonce a
                     (<[N.to_nat index := Scalar.negate (secnonce_at a index)]>
                        (secnonce a))) index
                = secnonce_at
                    (with_secnonce b
                       (<[N.to_nat index := Scalar.negate (secnonce_at b index)]>
                          (secnonce b))) index).
  { unfold secnonce_at at 1 3. cbn [secnonce with_secnonce].
    destruct (Nat.lt_ge_cases (N.to_nat index) (length (secnonce a))).
    - rewrite !list_lookup_insert_eq by (unfold Scalar.t in *; lia).
      cbn [default]. now rewrite Hsec.
    - rewrite !list_insert_ge by (unfold Scalar.t in *; lia). exact Hsec. }
  destruct (has_quad_y (pubnonce_sum a)); cbn [negb];
    cbn [pubkeys n_sigs with_secnonce]; rewrite <- Hk, <- Hn;
    destruct (secp256k1_compute_sighash _ index) as [sighash ok];
    destruct ok; cbn [negb]; try reflexivity;
    destruct (Scalar.set_b32 seckey32) as [sec overflow];
    destruct overflow; cbn [snd]; try reflexivity;
    now rewrite ?Hat, ?Hsec.
Qed.

(** X24. The cosigners may sign in any order: a [partial_sign] call for
    one slot, whether it succeeds or fails, does not change what a
    later [partial_sign] for another slot returns or writes as partial
    signature. *)
Theorem partial_sign_order_independent (a : secp256k1_aggsig_context)
    (msghash32 seckey32 msghash32' seckey32' : list byte) (index index' : N) :
  aggctx_wf a -> index <> index' ->
  snd (secp256k1_aggsig_partial_sign
         (fst (secp256k1_aggsig_partial_sign a msghash32' seckey32' index'))
         msghash32 seckey32 index)
  = snd (secp256k1_aggsig_partial_sign a msghash32 seckey32 index).
Proof.
  intros Hwf Hne.
  destruct (secp256k1_aggsig_partial_sign a msghash32' seckey32' index')
    as [b out] eqn:E. cbn [fst].
  assert (Hwfb : aggctx_wf b).
  { apply (aggctx_wf_exec a b (CallPartialSign msghash32' seckey32' index') out
             Hwf). cbn [aggsig_exec]. now rewrite E. }
  destruct Hwf as (Hlp & _ & Hls). destruct Hwfb as (Hlpb & _ & Hlsb).
  pose proof (partial_sign_frame _ _ _ _ _ index _ E Hne) as [Hp Hs].
  pose proof (partial_sign_progress _ _ _ _ _ _ E) as (Hsum & Hprog).
  assert (Hshape : pubkeys b = pubkeys a /\ n_sigs b = n_sigs a).
  { unfold secp256k1_aggsig_partial_sign in E.
    destruct (index' <? n_sigs a)%N; cbn [negb] in E;
      [|injection E as <- _; auto].
    destruct (some_nonce_unknown _ _); [injection E as <- _; auto|].
    destruct (nonce_progress_eqb _ _); cbn [negb] in E;
      [|injection E as <- _; auto].
    destruct (has_quad_y (pubnonce_sum a)); cbn [negb] in E;
      destruct (secp256k1_compute_sighash _ index') as [sighash ok];
      destruct ok; cbn [negb] in E;
      destruct (Scalar.set_b32 seckey32') as [sec overflow];
      destruct overflow;
      injection E as <- _; auto. }
  destruct Hshape as [Hk Hn].
  apply partial_sign_output_congr; try congruence.
  rewrite Hn. apply some_nonce_unknown_ext. intros j Hj.
  destruct Hprog as [->|[Ho ->]]; [reflexivity|].
  destruct (Nat.eq_dec (N.to_nat index') j) as [<-|Hnj].
  - unfold progress_at in Ho.
    destruct (progress a !! N.to_nat index') as [st|] eqn:El.
    + simpl in Ho. subst st.
      rewrite list_lookup_insert_eq by (eapply lookup_lt_Some; eassumption).
      split; discriminate.
    + discriminate.
  - now rewrite list_lookup_insert_ne.
Qed.

End SigningOrder.

(** * The properties on concrete inputs *)

Section Concrete.

Import DlogModel Examples.

(** Closed goals are settled by evaluating the model. The left-hand
    side of an equation is evaluated on its own, so that the backend
    record in the types is left alone. *)
Local Ltac compute_eq :=
  lazymatch goal with
  | |- ?l = _ => let v := eval vm_compute in l in exact (@eq_refl _ v)
  end.

Local Ltac compute_neq :=
  let H := fresh in intros H; vm_compute in H; discriminate H.

Local Ltac compute_goal :=
  repeat match goal with |- _ /\ _ => split end;
  lazymatch goal with
  | |- _ = _ => compute_eq
  | |- Z.lt _ _ => unfold Z.lt; compute_eq
  | |- Z.le _ _ => unfold Z.le; compute_neq
  | |- N.lt _ _ => unfold N.lt; compute_eq
  | |- Forall _ _ => repeat constructor; unfold Z.lt; compute_eq
  end.


(** A generator seeded with zero draws zero for ever. *)
Lemma nonce_retry_loop_zero_seed (fuel : nat) (c : Z) :
  @nonce_retry_loop model fuel (0, c) = None.
Proof.
  revert c. induction fuel as [|fuel IH]; intros c; [reflexivity|].
  cbn [nonce_retry_loop rfc6979_generate model backend dl_generate fst snd].
  change (0 * c) with 0. change (be_bytes 32 0) with (Scalar.get_b32 0).
  rewrite scalar_set_get by (pose proof n_lt_2_256; lia).
  apply IH.
Qed.



(** C2 on the signature the two cosigners produce, and on signatures
    that fail each of the checks. *)
Lemma aggsig_verify_characterised_witness :
  let pks := map (@pubkey_of_seckey model) seckeys2 in
  (exists sig64,
     @aggsig_protocol model 3 seed_flip msg seckeys2 pks = Some (Some sig64)
     /\ @ge_x model
          (@verify_point model (be32 sig64) (be32 (drop 32 sig64)) msg pks)
        = be32 (drop 32 sig64)
     /\ @has_quad_y model
          (@verify_point model (be32 sig64) (be32 (drop 32 sig64)) msg pks)
        = true)
  /\ @secp256k1_aggsig_verify model (bytes32 1 ++ bytes32 1) msg pks 0 = false
  /\ @secp256k1_aggsig_verify model (bytes_ff ++ bytes32 1) msg pks 2 = false
  /\ @secp256k1_aggsig_verify model (bytes32 1 ++ bytes_ff) msg pks 2 = false
  /\ @secp256k1_aggsig_verify overflowing forged_sig msg
       [@pubkey_of_seckey overflowing (bytes32 1)] 1 = false.
Proof.
  cbv zeta. split; [|split; [|split; [|split]]].
  - eexists. split; [compute_goal|].
    refine (proj1
      (proj2 (proj2 (proj2 (proj2
         (@aggsig_verify_characterised model (dlog_laws checksum) _ msg
            (map (@pubkey_of_seckey model) seckeys2))))) _ _ _ _) _).
    + discriminate.
    + compute_goal.
    + compute_goal.
    + compute_goal.
    + compute_goal.
  - exact (proj1
      (@aggsig_verify_characterised model (dlog_laws checksum)
         (bytes32 1 ++ bytes32 1) msg
         (map (@pubkey_of_seckey model) seckeys2))).
  - refine (proj1 (proj2
      (@aggsig_verify_characterised model (dlog_laws checksum)
         (bytes_ff ++ bytes32 1) msg
         (map (@pubkey_of_seckey model) seckeys2))) _).
    unfold Z.le. vm_compute. discriminate.
  - refine (proj1 (proj2 (proj2
      (@aggsig_verify_characterised model (dlog_laws checksum)
         (bytes32 1 ++ bytes_ff) msg
         (map (@pubkey_of_seckey model) seckeys2)))) _).
    unfold Z.le. vm_compute. discriminate.
  - refine (proj1 (proj2 (proj2 (proj2
      (@aggsig_verify_characterised overflowing (dlog_laws all_ones)
         forged_sig msg [@pubkey_of_seckey overflowing (bytes32 1)])))) _).
    compute_goal.
Defined.

(** C3 on a signature made with an internally generated nonce; and,
    with the constant hash, where the two challenges are the same, on
    the agreement of the two verifiers. *)
Lemma single_sign_verify_agreement_witness :
  (exists sig64,
     @secp256k1_aggsig_sign_single model 3 msg seckey None None seed
     = Some (Some sig64)
     /\ @secp256k1_aggsig_verify_single model sig64 msg None
          (@pubkey_of_seckey model seckey) = Some true)
  /\ (exists sig64,
        @secp256k1_aggsig_sign_single constant 3 msg seckey None None seed
        = Some (Some sig64)
        /\ @secp256k1_aggsig_verify_single constant sig64 msg None
             (@pubkey_of_seckey constant seckey)
           = Some (@secp256k1_aggsig_verify constant sig64 msg
                     [@pubkey_of_seckey constant seckey] 1)
        /\ @secp256k1_aggsig_verify constant sig64 msg
             [@pubkey_of_seckey constant seckey] 1 = true).
Proof.
  split.
  - eexists. split; [compute_goal|].
    refine (proj1 (@single_sign_verify_agreement model (dlog_laws checksum))
              3%nat msg seckey None seed _ _ _ _).
    + compute_goal.
    + discriminate.
    + compute_goal.
  - eexists. split; [compute_goal|]. split; [|compute_goal].
    refine (proj2
              (@single_sign_verify_agreement constant (dlog_laws constant_one))
              _ msg (@pubkey_of_seckey constant seckey) 1 true _ _).
    + compute_goal.
    + compute_goal.
Defined.

(** C3 as stated fails in both directions: the aggregate verifier
    rejects a signature of the single-party signer, and the
    single-party verifier rejects a signature that the aggregate
    protocol made for one key and the aggregate verifier accepts. *)
Lemma single_aggregate_counterexample :
  let pk := @pubkey_of_seckey model seckey in
  (exists sig64,
     @secp256k1_aggsig_sign_single model 3 msg seckey None None seed
     = Some (Some sig64)
     /\ @secp256k1_aggsig_verify model sig64 msg [pk] 1 = false)
  /\ (exists sig64,
        @aggsig_protocol model 3 seed msg [seckey] [pk] = Some (Some sig64)
        /\ @secp256k1_aggsig_verify model sig64 msg [pk] 1 = true
        /\ @secp256k1_aggsig_verify_single model sig64 msg None pk
           = Some false).
Proof.
  cbv zeta. split; eexists; compute_goal.
Qed.

Lemma session_flip_wf : @aggctx_wf model session_flip.
Proof. unfold aggctx_wf. compute_goal. Qed.

(** C4 at the failing input: in the two-cosigner session whose nonce
    sum has no quadratic-residue Y, [partial_sign] for slot 0 with the
    secret key ff..ff returns 0 and leaves the slot's secret nonce
    negated. *)
Lemma partial_sign_failure_negates_nonce_witness :
  let failed := @secp256k1_aggsig_partial_sign model session_flip msg bytes_ff 0 in
  snd failed = None
  /\ @secnonce_at model session_flip 0 = half_order
  /\ @secnonce_at model (fst failed) 0 = secp256k1_n - half_order
  /\ @secnonce_at model (fst failed) 0 <> @secnonce_at model session_flip 0.
Proof.
  cbv zeta.
  assert (Hfail : snd (@secp256k1_aggsig_partial_sign model session_flip msg
                         bytes_ff 0) = None) by compute_goal.
  assert (Hk : @secnonce_at model session_flip 0 = half_order) by compute_goal.
  destruct (@partial_sign_failure_negates_nonce model session_flip msg bytes_ff 0)
    as (Hneg & Hne & _).
  - exact session_flip_wf.
  - reflexivity.
  - compute_goal.
  - compute_goal.
  - compute_goal.
  - rewrite Hk. compute_goal.
  - exact Hfail.
  - rewrite Hk in Hneg. auto.
Defined.

(** The consequence of C4: a retry after the failed call signs with
    the nonce negated twice, and the combined signature is rejected,
    where the same session without the failed call verifies. *)
Lemma partial_sign_retry_breaks_signature :
  let pks := map (@pubkey_of_seckey model) seckeys2 in
  let failed := @secp256k1_aggsig_partial_sign model session_flip msg bytes_ff 0 in
  let finish a :=
    match @partial_signs model a msg seckeys2 0 with
    | (a', Some partials) =>
        match @secp256k1_aggsig_combine_signatures model a' partials 2 with
        | (_, Some sig64) => Some (@secp256k1_aggsig_verify model sig64 msg pks 2)
        | (_, None) => None
        end
    | (_, None) => None
    end in
  snd failed = None
  /\ finish session_flip = Some true
  /\ finish (fst failed) = Some false.
Proof. cbv zeta. compute_goal. Qed.

(** C5 on the two-cosigner session, fresh and after signing: the
    partial signature for slot 1 is made with the nonce of slot 1, and
    the calls that follow the signing of slot 0 return the same with
    another scalar in the place of its nonce. *)
Lemma nonce_lifecycle_enforced_witness :
  @secp256k1_aggsig_generate_nonce model 3 session_flip 0
  = Some (session_flip, false)
  /\ @secp256k1_aggsig_partial_sign model session_fresh msg seckey 0
     = (session_fresh, None)
  /\ @secp256k1_aggsig_partial_sign model session_signed msg seckey 0
     = (session_signed, None)
  /\ (exists a' partial,
        @secp256k1_aggsig_partial_sign model session_flip msg seckey 1
        = (a', Some partial)
        /\ @progress_at model session_flip 1 = NONCE_PROGRESS_OURS
        /\ @progress_at model a' 1 = NONCE_PROGRESS_SIGNED
        /\ partial
           = Scalar.get_b32
               (Scalar.add
                  (Scalar.mul (be32 seckey)
                     (@partial_sign_challenge model session_flip msg 1))
                  (@signing_nonce model (@pubnonce_sum model session_flip)
                     (@secnonce_at model session_flip 1))))
  /\ (forall a' outs,
        @aggsig_exec_all model session_signed
          [CallPartialSign msg seckey 0; CallGenerateNonce 3 0;
           CallCombine [] 2; CallPartialSign msg seckey 0] = Some (a', outs) ->
        @progress_at model a' 0 = NONCE_PROGRESS_SIGNED
        /\ @secnonce_at model a' 0 = @secnonce_at model session_signed 0
        /\ outs !! 0%nat = Some None /\ outs !! 3%nat = Some None
        /\ @aggsig_exec_all model (@with_secnonce_at model session_signed 0 7)
             [CallPartialSign msg seckey 0; CallGenerateNonce 3 0;
              CallCombine [] 2; CallPartialSign msg seckey 0]
           = Some (@with_secnonce_at model a' 0 7, outs)).
Proof.
  destruct (@nonce_lifecycle_enforced model)
    as (Hgen & Hunk & Hours & Hstep & Hsig).
  split; [apply Hgen; compute_neq|].
  split.
  { apply (Hunk session_fresh msg seckey 0%N 0%N);
      [unfold aggctx_wf|..]; compute_goal. }
  split; [apply Hours; compute_neq|].
  split.
  { do 2 eexists.
    refine ((fun H => conj H (Hstep _ _ _ _ _ _ session_flip_wf H)) _).
    compute_goal. }
  intros a' outs Hrun.
  destruct (Hsig session_signed a' _ outs 0%N ltac:(compute_goal) Hrun)
    as (Hp & Hk & Hout & Hv).
  split; [assumption|]. split; [assumption|].
  split; [apply (Hout 0%nat msg seckey); reflexivity|].
  split; [apply (Hout 3%nat msg seckey); reflexivity|].
  apply Hv.
Defined.

(** C6 on a draw n - 1, whose point has no quadratic-residue Y and is
    negated: the nonce returned is 1 and its point is G. *)
Lemma generate_nonce_single_contract_witness :
  exists rng',
    @secp256k1_aggsig_generate_nonce_single model 1
      (@rfc6979_initialize model (bytes32 (secp256k1_n - 1)))
    = Some (true, 1, @generator model, rng')
    /\ @generator model = @secp256k1_ecmult_gen model 1
    /\ 0 < 1 < secp256k1_n
    /\ @has_quad_y model (@generator model) = true.
Proof.
  eexists. split; [compute_goal|].
  refine (@generate_nonce_single_contract model (dlog_laws checksum) 1
            (@rfc6979_initialize model (bytes32 (secp256k1_n - 1))) _ 1
            (@generator model) _).
  compute_goal.
Defined.

(** C7 at the failing input: with a hash output >= n the sighash
    derivation reports the overflow, and the signer returns 1 with a
    signature all the same. *)
Lemma sign_single_ignores_sighash_overflow_witness :
  exists k R e sig64,
    @sign_single_nonce overflowing 1 (Some (bytes32 1)) seed = Some (true, k, R)
    /\ @secp256k1_compute_sighash_single overflowing
         (@secp256k1_pubkey_save overflowing
            (snd (@sign_single_recheck overflowing k R))) msg
       = Some (e, false)
    /\ @secp256k1_aggsig_sign_single overflowing 1 msg seckey
         (Some (bytes32 1)) None seed = Some (Some sig64).
Proof.
  do 4 eexists. split; [compute_goal|]. split; [compute_goal|].
  refine (@sign_single_ignores_sighash_overflow overflowing 1 msg seckey
            (Some (bytes32 1)) None seed _ _ _ _ _ _).
  - compute_goal.
  - compute_goal.
  - compute_goal.
Defined.

(** C8 on index 300 = 2 * 128 + 44. *)
Lemma compute_sighash_is_varint7_hash_witness :
  fst (@secp256k1_compute_sighash model (bytes32 9) 300)
  = be32 (@sha256 model (varint7 300 ++ bytes32 9)) mod secp256k1_n
  /\ varint7 0 = []
  /\ fst (@secp256k1_compute_sighash model (bytes32 9) 0)
     = be32 (@sha256 model (bytes32 9)) mod secp256k1_n.
Proof.
  apply (@compute_sighash_is_varint7_hash model (bytes32 9) 300).
  reflexivity.
Defined.

(** C9 on an internally generated nonce. *)
Lemma sign_single_recheck_redundant_witness :
  (forall ret k R,
     @sign_single_nonce model 3 None seed = Some (ret, k, R) ->
     @has_quad_y model R = true /\ @sign_single_recheck model k R = (k, R))
  /\ @secp256k1_aggsig_sign_single model 3 msg seckey None None seed
     = @sign_single_without_recheck model 3 msg seckey None None seed.
Proof.
  destruct (@sign_single_recheck_redundant model (dlog_laws checksum) 3 msg
              seckey None None seed) as [Hq Heq].
  split; [|exact Heq].
  intros ret k R H. apply (Hq ret k R H). discriminate.
Defined.

(** C9 as stated fails for an external secret nonce that is zero: the
    nonce point reaching the second check is the point at infinity,
    without a quadratic-residue Y, and the condition of the check
    holds, so its negation is executed. *)
Lemma sign_single_recheck_counterexample :
  @sign_single_nonce model 3 (Some (bytes32 0)) seed
  = Some (true, 0, @gej_infinity model)
  /\ negb (@has_quad_y model (@gej_infinity model)) = true.
Proof. compute_goal. Qed.



(** ** Further properties on concrete inputs *)

Lemma session_fresh_wf : @aggctx_wf model session_fresh.
Proof. unfold aggctx_wf. compute_goal. Qed.

Lemma session_signed_wf : @aggctx_wf model session_signed.
Proof. unfold aggctx_wf. compute_goal. Qed.

(** X1 on the two keys of the examples. *)
Lemma compute_prehash_message_witness :
  let pks := map (@pubkey_of_seckey model) seckeys2 in
  let message :=
    concat (map (@secp256k1_ec_pubkey_serialize model) (take 2 pks))
    ++ Fe.get_b32 7 ++ take 32 msg in
  @secp256k1_compute_prehash model pks 2 7 msg = @sha256 model message
  /\ length message = 130%nat.
Proof.
  cbv zeta.
  destruct (@compute_prehash_message model
              (map (@pubkey_of_seckey model) seckeys2) 2 7 msg) as [Heq Hlen].
  split; [exact Heq|]. apply Hlen; vm_compute; lia.
Defined.

(** X2 on index 300. *)
Lemma sighash_message_injective_witness :
  300%N = 300%N /\ take 32 (bytes32 9) = take 32 (bytes32 9).
Proof.
  apply (@sighash_message_injective model (bytes32 9) (bytes32 9) 300 300).
  - vm_compute. lia.
  - vm_compute. lia.
  - reflexivity.
Defined.

(** X4 on the first call for slot 0 of a fresh session, and on a second
    call for the same slot. *)
Lemma generate_nonce_contract_witness :
  @secp256k1_aggsig_generate_nonce model 3 session_fresh 0
  = Some (session_one, true)
  /\ @progress_at model session_one 0 = NONCE_PROGRESS_OURS
  /\ 0 < @secnonce_at model session_one 0 < secp256k1_n
  /\ @pubnonce_sum model session_one
     = @gej_add_var model (@pubnonce_sum model session_fresh)
         (@secp256k1_ecmult_gen model (@secnonce_at model session_one 0))
  /\ @secp256k1_aggsig_generate_nonce model 3 session_one 0
     = Some (session_one, false)
  /\ @progress_at model session_one 0 <> NONCE_PROGRESS_UNKNOWN.
Proof.
  assert (H1 : @secp256k1_aggsig_generate_nonce model 3 session_fresh 0
               = Some (session_one, true)) by compute_goal.
  assert (H2 : @secp256k1_aggsig_generate_nonce model 3 session_one 0
               = Some (session_one, false)) by compute_goal.
  pose proof (@generate_nonce_contract model (dlog_laws checksum) 3
                session_fresh session_one 0 true session_fresh_wf H1) as C1.
  assert (Hwf : @aggctx_wf model session_one)
    by (unfold aggctx_wf; compute_goal).
  pose proof (@generate_nonce_contract model (dlog_laws checksum) 3
                session_one session_one 0 false Hwf H2) as C2.
  cbv iota in C1, C2.
  destruct C1 as (_ & _ & Ho & Hk & _ & Hs & _).
  destruct C2 as (_ & [Hr|Hr]).
  - exfalso. apply Hr. reflexivity.
  - auto 10.
Defined.

(** X5 on nonces generated for slot 1, then for slot 0, with two calls
    refused in between. *)
Lemma nonce_sum_invariant_witness :
  let a' := fst (run session_fresh (generate_nonce_calls nonce_calls)) in
  @aggsig_exec_all model session_fresh (generate_nonce_calls nonce_calls)
  = Some (run session_fresh (generate_nonce_calls nonce_calls))
  /\ snd (run session_fresh (generate_nonce_calls nonce_calls))
     = [Some []; None; None; Some []]
  /\ @pubnonce_sum model a' = @session_nonce_sum model a'
  /\ @progress_at model a' 1 = NONCE_PROGRESS_OURS
  /\ 0 < @secnonce_at model a' 1 < secp256k1_n.
Proof.
  cbv zeta.
  assert (H : @aggsig_exec_all model session_fresh
                (generate_nonce_calls nonce_calls)
              = Some (run session_fresh (generate_nonce_calls nonce_calls)))
    by compute_goal.
  split; [exact H|]. split; [compute_goal|].
  destruct (@nonce_sum_invariant model (dlog_laws checksum)
              (map (@pubkey_of_seckey model) seckeys2) 2 seed nonce_calls
              (fst (run session_fresh (generate_nonce_calls nonce_calls)))
              (snd (run session_fresh (generate_nonce_calls nonce_calls))))
    as [Hsum Hslots].
  - vm_compute. lia.
  - rewrite <- surjective_pairing. exact H.
  - split; [exact Hsum|].
    destruct (Hslots 1%N) as (Ho & Hk & _); [compute_neq|]. auto.
Defined.

(** X6 on a sequence of calls of all three kinds. *)
Lemma progress_never_other_witness :
  @aggsig_exec_all model session_fresh mixed_calls
  = Some (run session_fresh mixed_calls)
  /\ @progress_at model (fst (run session_fresh mixed_calls)) 0
     <> NONCE_PROGRESS_OTHER
  /\ @progress_at model (fst (run session_fresh mixed_calls)) 1
     <> NONCE_PROGRESS_OTHER.
Proof.
  assert (H : @aggsig_exec_all model session_fresh mixed_calls
              = Some (run session_fresh mixed_calls)) by compute_goal.
  split; [exact H|].
  pose proof (@progress_never_other model
                (map (@pubkey_of_seckey model) seckeys2) 2 seed mixed_calls
                (fst (run session_fresh mixed_calls))
                (snd (run session_fresh mixed_calls))) as Hno.
  rewrite <- surjective_pairing in Hno.
  split; apply (Hno H).
Defined.

(** X7 on the same sequence of calls. *)
Lemma session_keys_immutable_witness :
  @aggsig_exec_all model session_fresh mixed_calls
  = Some (run session_fresh mixed_calls)
  /\ @pubkeys model (fst (run session_fresh mixed_calls))
     = @pubkeys model session_fresh
  /\ @n_sigs model (fst (run session_fresh mixed_calls))
     = @n_sigs model session_fresh
  /\ length (snd (run session_fresh mixed_calls)) = length mixed_calls.
Proof.
  assert (H : @aggsig_exec_all model session_fresh mixed_calls
              = Some (run session_fresh mixed_calls)) by compute_goal.
  split; [exact H|].
  destruct (@session_keys_immutable model session_fresh
              (fst (run session_fresh mixed_calls)) mixed_calls
              (snd (run session_fresh mixed_calls)) session_fresh_wf)
    as (Hk & Hn & _ & Hl).
  - rewrite <- surjective_pairing. exact H.
  - split; [exact Hk|]. split; [exact Hn | exact Hl].
Defined.

(** X8 on slot 0 of the two-cosigner session: a failed [partial_sign]
    negates its nonce, a refused [generate_nonce] and a successful
    [partial_sign] follow. *)
Lemma nonce_never_regenerated_witness :
  let cs := [CallPartialSign msg bytes_ff 0; CallGenerateNonce 3 0;
             CallPartialSign msg seckey 0] in
  @aggsig_exec_all model session_flip cs = Some (run session_flip cs)
  /\ @secnonce_at model session_flip 0 = half_order
  /\ @progress_at model (fst (run session_flip cs)) 0 <> NONCE_PROGRESS_UNKNOWN
  /\ (@secnonce_at model (fst (run session_flip cs)) 0 = half_order
      \/ @secnonce_at model (fst (run session_flip cs)) 0
         = Scalar.negate half_order).
Proof.
  cbv zeta.
  set (cs := [CallPartialSign msg bytes_ff 0; CallGenerateNonce 3 0;
              CallPartialSign msg seckey 0]).
  assert (H : @aggsig_exec_all model session_flip cs
              = Some (run session_flip cs)) by compute_goal.
  assert (Hk : @secnonce_at model session_flip 0 = half_order) by compute_goal.
  split; [exact H|]. split; [exact Hk|].
  rewrite <- Hk.
  apply (@nonce_never_regenerated model session_flip
           (fst (run session_flip cs)) cs (snd (run session_flip cs)) 0).
  - compute_neq.
  - rewrite Hk. compute_goal.
  - rewrite <- surjective_pairing. exact H.
Defined.

(** X9 on the first partial signature of the two-cosigner session,
    whose nonce sum has no quadratic-residue Y. *)
Lemma partial_signature_equation_witness :
  let e :=
    fst (@secp256k1_compute_sighash model
           (@secp256k1_compute_prehash model (@pubkeys model session_flip)
              (@n_sigs model session_flip)
              (@ge_x model (@pubnonce_sum model session_flip)) msg) 0) in
  let k := @signing_nonce model (@pubnonce_sum model session_flip)
             (@secnonce_at model session_flip 0) in
  exists partial,
    snd signed_one = Some partial
    /\ k = secp256k1_n - half_order
    /\ be32 partial = Scalar.add (Scalar.mul (be32 seckey) e) k
    /\ @gej_add_var model (@secp256k1_ecmult_gen model (be32 partial))
         (@ecmult model (Scalar.negate e) (@pubkey_of_seckey model seckey))
       = @secp256k1_ecmult_gen model k.
Proof.
  cbv zeta. eexists. split; [compute_goal|]. split; [compute_goal|].
  refine ((fun C => conj (proj1 (proj2 C)) (proj2 (proj2 (proj2 (proj2 C)))))
            (@partial_signature_equation model (dlog_laws checksum)
               session_flip (fst signed_one) msg seckey _ 0 session_flip_wf _)).
  compute_goal.
Defined.

(** X10 on the partial signatures of the two cosigners, on a wrong
    count and on an overflowing partial signature. *)
Lemma combine_signatures_contract_witness :
  (exists sig64,
     @secp256k1_aggsig_combine_signatures model session_signed partials2 2
     = (@with_pubnonce_sum model session_signed
          (@final_nonce model (@pubnonce_sum model session_signed)),
        Some sig64)
     /\ length sig64 = 64%nat
     /\ be32 sig64
        = foldr Z.add 0 (map be32 (take (N.to_nat 2) partials2))
          mod secp256k1_n
     /\ be32 (drop 32 sig64)
        = @ge_x model (@pubnonce_sum model session_signed))
  /\ @secp256k1_aggsig_combine_signatures model session_signed partials2 3
     = (session_signed, None)
  /\ @secp256k1_aggsig_combine_signatures model session_signed
       [bytes32 1; bytes_ff] 2 = (session_signed, None).
Proof.
  split; [|split].
  - apply (proj2 (proj2 (@combine_signatures_contract model
                           (dlog_laws checksum) session_signed partials2 2))).
    + symmetry. compute_goal.
    + let v := eval vm_compute in (take (N.to_nat 2) partials2) in
      change (Forall (fun d => be32 d < secp256k1_n) v).
      compute_goal.
  - apply (proj1 (@combine_signatures_contract model (dlog_laws checksum)
                    session_signed partials2 3)).
    compute_neq.
  - apply (proj1 (proj2 (@combine_signatures_contract model
                           (dlog_laws checksum) session_signed
                           [bytes32 1; bytes_ff] 2))).
    change (N.to_nat 2) with 2%nat. cbn [take].
    apply Exists_cons_tl, Exists_cons_hd. compute_goal.
Defined.

(** X11 on the two partial signatures in either order. *)
Lemma combine_signatures_order_witness :
  @secp256k1_aggsig_combine_signatures model session_signed
    [bytes32 3; bytes32 4] 2
  = @secp256k1_aggsig_combine_signatures model session_signed
      [bytes32 4; bytes32 3] 2.
Proof.
  apply (@combine_signatures_order model).
  change (N.to_nat 2) with 2%nat. cbn [take]. apply perm_swap.
Defined.

(** X12 on the session of the two cosigners, whose nonce sum the first
    call negates. *)
Lemma combine_signatures_repeatable_witness :
  exists sig64,
    combined2 = (fst combined2, Some sig64)
    /\ @pubnonce_sum model (fst combined2)
       = @gej_neg model (@pubnonce_sum model session_signed)
    /\ snd (@secp256k1_aggsig_combine_signatures model (fst combined2)
              partials2 2) = Some sig64.
Proof.
  eexists. split; [compute_goal|]. split; [compute_goal|].
  apply (@combine_signatures_repeatable model (dlog_laws checksum)
           session_signed).
  compute_goal.
Defined.

(** X13 on the three cosigners whose nonces sum to the point at
    infinity. *)
Lemma protocol_infinity_rejected_witness :
  exists sig64,
    @aggsig_protocol model 3 seed_inf msg seckeys3
      (map (@pubkey_of_seckey model) seckeys3) = Some (Some sig64)
    /\ @secp256k1_aggsig_verify model sig64 msg
         (map (@pubkey_of_seckey model) seckeys3) 3 = false.
Proof.
  eapply (@protocol_infinity_rejected model (dlog_laws checksum) 3 seed_inf msg
            seckeys3).
  - simpl. lia.
  - compute_goal.
  - compute_goal.
  - compute_goal.
  - compute_goal.
Defined.

(** X14 with the hash whose every output overflows. *)
Lemma protocol_overflow_fails_witness :
  @aggsig_protocol overflowing 3 seed msg [seckey]
    [@pubkey_of_seckey overflowing seckey] = Some None.
Proof.
  eapply (@protocol_overflow_fails overflowing (dlog_laws all_ones) 3 seed msg
            [seckey]).
  - compute_goal.
  - compute_goal.
  - compute_goal.
Defined.

(** X15 on the seed of the examples. *)
Lemma export_secnonce_single_contract_witness :
  @secp256k1_aggsig_export_secnonce_single model 3 seed
  = Some (Some exported_nonce)
  /\ length exported_nonce = 32%nat
  /\ 0 < be32 exported_nonce < secp256k1_n
  /\ @has_quad_y model (@secp256k1_ecmult_gen model (be32 exported_nonce))
     = true.
Proof.
  assert (H : @secp256k1_aggsig_export_secnonce_single model 3 seed
              = Some (Some exported_nonce)) by compute_goal.
  split; [exact H|].
  destruct (@export_secnonce_single_contract model (dlog_laws checksum) 3 seed
              _ H) as (b & Hb & Hl & Hk & HQ).
  apply (inj Some) in Hb. rewrite Hb. auto.
Defined.

(** X16 on the seed of the examples. *)
Lemma sign_single_with_exported_nonce_witness :
  @secp256k1_aggsig_export_secnonce_single model 3 seed
  = Some (Some exported_nonce)
  /\ @secp256k1_aggsig_sign_single model 3 msg seckey None None seed
     = @secp256k1_aggsig_sign_single model 0 msg seckey (Some exported_nonce)
         None bytes_ff.
Proof.
  assert (H : @secp256k1_aggsig_export_secnonce_single model 3 seed
              = Some (Some exported_nonce)) by compute_goal.
  split; [exact H|].
  apply (@sign_single_with_exported_nonce model (dlog_laws checksum) 3 0 msg
           seckey seed bytes_ff exported_nonce None H).
Defined.

(** X17 on the secret nonces 3 and n - 3. *)
Lemma sign_single_nonce_sign_irrelevant_witness :
  @secp256k1_aggsig_sign_single model 3 msg seckey (Some (bytes32 3)) None seed
  = @secp256k1_aggsig_sign_single model 3 msg seckey
      (Some (bytes32 (secp256k1_n - 3))) None seed.
Proof.
  apply (@sign_single_nonce_sign_irrelevant model (dlog_laws checksum)).
  compute_goal.
Defined.

(** X18 on the all-zero secret key, with the secret nonce 3 and with
    the secret nonce zero. *)
Lemma sign_single_zero_key_witness :
  (exists e ok,
     @secp256k1_compute_sighash_single model
       (@secp256k1_pubkey_save model (@secp256k1_ecmult_gen model 3)) msg
     = Some (e, ok))
  /\ @secp256k1_aggsig_sign_single model 3 msg (bytes32 0) (Some (bytes32 3))
       None seed
     = Some (Some (Scalar.get_b32 3
                   ++ Fe.get_b32 (@ge_x model (@secp256k1_ecmult_gen model 3))))
  /\ @secp256k1_aggsig_sign_single model 3 msg (bytes32 0) (Some (bytes32 0))
       None seed = None.
Proof.
  assert (Hz : be32 (bytes32 0) = 0) by compute_goal.
  assert (H3 : @sign_single_nonce model 3 (Some (bytes32 3)) seed
               = Some (true, 3, @secp256k1_ecmult_gen model 3))
    by compute_goal.
  assert (H0 : @sign_single_nonce model 3 (Some (bytes32 0)) seed
               = Some (true, 0, @gej_infinity model)) by compute_goal.
  pose proof (@sign_single_zero_key model (dlog_laws checksum) 3 msg
                (bytes32 0) (Some (bytes32 3)) None seed 3 _ Hz H3) as Hok.
  pose proof (@sign_single_zero_key model (dlog_laws checksum) 3 msg
                (bytes32 0) (Some (bytes32 0)) None seed 0 _ Hz H0) as Hab.
  cbv zeta in Hok, Hab.
  destruct Hok as [Hok _]. destruct Hab as [_ Hab].
  assert (He : exists e ok,
             @secp256k1_compute_sighash_single model
               (@secp256k1_pubkey_save model (@secp256k1_ecmult_gen model 3))
               msg = Some (e, ok)) by (do 2 eexists; compute_goal).
  split; [exact He|]. split.
  - destruct He as (e & ok & He). exact (Hok e ok He).
  - apply Hab. compute_goal.
Defined.

(** X19 on a public nonce that is not the signer's own. *)
Lemma sign_verify_single_with_pubnonce_witness :
  exists sig64,
    @secp256k1_aggsig_sign_single model 3 msg seckey None (Some other_nonce)
      seed = Some (Some sig64)
    /\ @secp256k1_aggsig_verify_single model sig64 msg (Some other_nonce)
         (@pubkey_of_seckey model seckey) = Some true
    /\ @secp256k1_aggsig_verify_single model sig64 msg None
         (@pubkey_of_seckey model seckey) = Some false.
Proof.
  eexists. split; [compute_goal|]. split; [|compute_goal].
  refine (@sign_verify_single_with_pubnonce model (dlog_laws checksum) 3%nat
            msg seckey None other_nonce seed _ _ _ _).
  - compute_goal.
  - discriminate.
  - compute_goal.
Defined.

(** X20 on a signature of the single-party signer, on signatures that
    fail each of the two checks, and on a signature whose second half
    is zero. *)
Lemma verify_single_characterised_witness :
  (exists sig64 e ok,
     @secp256k1_aggsig_sign_single model 3 msg seckey None None seed
     = Some (Some sig64)
     /\ @secp256k1_compute_sighash_single model
          (@verify_single_nonce_key model (be32 (drop 32 sig64)) None) msg
        = Some (e, ok)
     /\ @ge_x model
          (@verify_single_point model (be32 sig64) e
             (@pubkey_of_seckey model seckey))
        = be32 (drop 32 sig64)
     /\ @has_quad_y model
          (@verify_single_point model (be32 sig64) e
             (@pubkey_of_seckey model seckey)) = true)
  /\ @secp256k1_aggsig_verify_single model (bytes_ff ++ bytes32 1) msg None
       (@pubkey_of_seckey model seckey) = Some false
  /\ @secp256k1_aggsig_verify_single model (bytes32 1 ++ bytes_ff) msg None
       (@pubkey_of_seckey model seckey) = Some false
  /\ @ge_x model
       (@secp256k1_pubkey_load model
          (@verify_single_nonce_key model (be32 (drop 32 (bytes32 1 ++ bytes32 0)))
             None)) = 0
  /\ @secp256k1_aggsig_verify_single model (bytes32 1 ++ bytes32 0) msg None
       (@pubkey_of_seckey model seckey) = None.
Proof.
  split; [|split; [|split; [|split]]].
  - do 3 eexists. split; [compute_goal|]. split; [compute_goal|].
    refine (proj1 (proj2
      (proj2 (proj2 (proj2 (proj2
         (@verify_single_characterised model (dlog_laws checksum) _ msg None
            (@pubkey_of_seckey model seckey))))) _ _ _ _ _)) _).
    + compute_goal.
    + compute_goal.
    + compute_goal.
    + compute_goal.
  - apply (proj1 (@verify_single_characterised model (dlog_laws checksum)
                    (bytes_ff ++ bytes32 1) msg None
                    (@pubkey_of_seckey model seckey))).
    compute_goal.
  - apply (proj1 (proj2 (@verify_single_characterised model
                           (dlog_laws checksum) (bytes32 1 ++ bytes_ff) msg
                           None (@pubkey_of_seckey model seckey)))).
    compute_goal.
  - compute_goal.
  - refine (proj1 (proj2 (proj2 (proj2
      (@verify_single_characterised model (dlog_laws checksum)
         (bytes32 1 ++ bytes32 0) msg None
         (@pubkey_of_seckey model seckey))))) _ _ _).
    + compute_goal.
    + compute_goal.
    + compute_goal.
Defined.

(** X21 on a generator whose first draw is n and whose second draw is
    below n. *)
Lemma generate_nonce_single_first_valid_draw_witness :
  let rng := @rfc6979_initialize model (bytes32 secp256k1_n) in
  exists k K rng',
    @secp256k1_aggsig_generate_nonce_single model 2 rng
    = Some (true, k, K, rng')
    /\ be32 (@nth_draw model rng 0) = secp256k1_n
    /\ 0 < be32 (@nth_draw model rng 1) < secp256k1_n
    /\ (k = be32 (@nth_draw model rng 1)
        \/ k = secp256k1_n - be32 (@nth_draw model rng 1))
    /\ rng' = @rng_after model 2 rng.
Proof.
  cbv zeta. do 3 eexists. split; [compute_goal|]. split; [compute_goal|].
  destruct (@generate_nonce_single_first_valid_draw model 2
              (@rfc6979_initialize model (bytes32 secp256k1_n)) _ true _ _
              ltac:(compute_goal))
    as (j & Hj & Hbad & Hok & Hk & Hrng).
  assert (Hj1 : j = 1%nat).
  { destruct j as [|[|j]]; [|reflexivity|lia].
    exfalso. revert Hok. vm_compute. intros [_ Hlt]. discriminate Hlt. }
  subst j. auto.
Defined.

(** X22 on a signature made with an internally generated nonce. *)
Lemma sign_single_output_wellformed_witness :
  exists sig64,
    @secp256k1_aggsig_sign_single model 3 msg seckey None None seed
    = Some (Some sig64)
    /\ length sig64 = 64%nat
    /\ 0 <= be32 sig64 < secp256k1_n
    /\ 0 <= be32 (drop 32 sig64) < secp256k1_p.
Proof.
  eexists.
  assert (H : forall s, @secp256k1_aggsig_sign_single model 3 msg seckey None
                          None seed = Some (Some s) ->
              @secp256k1_aggsig_sign_single model 3 msg seckey None None seed
              = Some (Some s)
              /\ length s = 64%nat /\ 0 <= be32 s < secp256k1_n
              /\ 0 <= be32 (drop 32 s) < secp256k1_p).
  { intros s Hs. split; [exact Hs|].
    destruct (@sign_single_output_wellformed model 3 msg seckey None None seed
                s Hs) as (? & ? & ? & _). auto. }
  apply H. compute_goal.
Defined.

(** X23 on the two-cosigner session: slot 0 signs with its key, and
    does not with the key ff..ff. *)
Lemma partial_sign_success_iff_witness :
  (exists a' partial,
     @secp256k1_aggsig_partial_sign model session_flip msg seckey 0
     = (a', Some partial))
  /\ ~ (exists a' partial,
          @secp256k1_aggsig_partial_sign model session_flip msg bytes_ff 0
          = (a', Some partial)).
Proof.
  split.
  - apply (proj2 (@partial_sign_success_iff model (dlog_laws checksum)
                    session_flip msg seckey 0 session_flip_wf)).
    split; [compute_goal|]. split.
    { intros j Hj. change (@n_sigs model session_flip) with 2%N in Hj.
      assert (Hc : j = 0%N \/ j = 1%N) by lia.
      destruct Hc as [-> | ->]; compute_neq. }
    compute_goal.
  - intros H.
    apply (proj1 (@partial_sign_success_iff model (dlog_laws checksum)
                    session_flip msg bytes_ff 0 session_flip_wf)) in H.
    destruct H as (_ & _ & _ & _ & Hk). revert Hk. unfold Z.lt.
    vm_compute. discriminate.
Defined.

(** X24 on the two-cosigner session: slot 1 signs the same after slot 0
    has signed, and after slot 0 has failed to sign. *)
Lemma partial_sign_order_independent_witness :
  let alone := snd (@secp256k1_aggsig_partial_sign model session_flip msg
                      (bytes32 6) 1) in
  (exists partial, alone = Some partial)
  /\ snd (@secp256k1_aggsig_partial_sign model
            (fst (@secp256k1_aggsig_partial_sign model session_flip msg
                    seckey 0)) msg (bytes32 6) 1) = alone
  /\ snd (@secp256k1_aggsig_partial_sign model
            (fst (@secp256k1_aggsig_partial_sign model session_flip msg
                    bytes_ff 0)) msg (bytes32 6) 1) = alone.
Proof.
  cbv zeta. split; [eexists; compute_eq|].
  split; apply (@partial_sign_order_independent model);
    first [exact session_flip_wf | discriminate].
Defined.

End Concrete.
